(** * webxr-first-steps: the per-frame game logic of [src/index.js]

    A shallow embedding of the module-level game state and of the two
    functions [updateScoreDisplay] and [onFrame].

    Conventions of the embedding.
    - A JavaScript number is an exact rational ([Q]) in the state of the
      game.  Where a property depends on the rounding of IEEE doubles, the
      expressions of the source are taken a second time with each operation
      rounded (the definitions with names ending in [R], and [roundDouble]).
      The score, which only ever holds integers, is a [Z].
    - A [THREE.Vector3] is a record of three rationals.
    - [Vector3.distanceTo] is a square root; the only use the code makes
      of it is the test [distance < 1], which is the test
      [distanceToSquared < 1] and is modelled as such.
    - The registry [bullets] is a JavaScript object keyed by uuid; it is an
      association list in insertion order (the order of [Object.values]).
    - The tweening library (gsap), [setTimeout], the asset loaders, audio and
      haptics are outside the file.  The callbacks that [index.js] hands to
      them are modelled as events of a transition system; the requests made
      to them are recorded in the state.
    - What is written for rendering only (the rotation of the liquid meshes,
      the [visible] flag of the controller's own mesh) and the sounds are not
      part of the state.  The haptic call is modelled for the exception it
      may throw. *)

From Stdlib Require Import QArith ZArith List String Ascii Bool Lia Lqa.
From Stdlib Require Import DecimalString.
From Stdlib Require Import Qround Qpower.
Import ListNotations.

Open Scope Q_scope.

(** ** JavaScript numbers *)

Definition Qltb (a b : Q) : bool := negb (Qle_bool b a).

(** [Math.max] and [Math.min] on two numbers. *)
Definition Math_max (a b : Q) : Q := if Qle_bool a b then b else a.
Definition Math_min (a b : Q) : Q := if Qle_bool a b then a else b.

(** [THREE.MathUtils.clamp(value, min, max)] is
    [Math.max(min, Math.min(max, value))]. *)
Definition clamp (value lo hi : Q) : Q := Math_max lo (Math_min hi value).

(** ** THREE.Vector3 *)

Record Vector3 : Type := mkVector3 { vx : Q; vy : Q; vz : Q }.

Definition vzero : Vector3 := mkVector3 0 0 0.

Definition vsub (a b : Vector3) : Vector3 :=
  mkVector3 (vx a - vx b) (vy a - vy b) (vz a - vz b).

Definition vadd (a b : Vector3) : Vector3 :=
  mkVector3 (vx a + vx b) (vy a + vy b) (vz a + vz b).

Definition multiplyScalar (a : Vector3) (s : Q) : Vector3 :=
  mkVector3 (vx a * s) (vy a * s) (vz a * s).

(** [divideScalar(s)] is [multiplyScalar(1 / s)]. *)
Definition divideScalar (a : Vector3) (s : Q) : Vector3 :=
  multiplyScalar a (1 / s).

Definition distanceToSquared (a b : Vector3) : Q :=
  let dx := vx a - vx b in
  let dy := vy a - vy b in
  let dz := vz a - vz b in
  dx * dx + dy * dy + dz * dz.

(** ** THREE.Quaternion and [Vector3.applyQuaternion] *)

Record Quaternion : Type := mkQuaternion { qx : Q; qy : Q; qz : Q; qw : Q }.

Definition applyQuaternion (v : Vector3) (q : Quaternion) : Vector3 :=
  let tx := 2 * (qy q * vz v - qz q * vy v) in
  let ty := 2 * (qz q * vx v - qx q * vz v) in
  let tz := 2 * (qx q * vy v - qy q * vx v) in
  mkVector3 (vx v + qw q * tx + qy q * tz - qz q * ty)
            (vy v + qw q * ty + qz q * tx - qx q * tz)
            (vz v + qw q * tz + qx q * ty - qy q * tx).

(** ** Module constants *)

Definition forwardVector : Vector3 := mkVector3 0 0 (-1).
Definition bulletSpeed : Q := 10.
Definition bulletTimeToLive : Q := 1.

(** ** Score display *)

(** [Number.prototype.toString] on an integer. *)
Definition Number_toString (n : Z) : string :=
  NilZero.string_of_int (Z.to_int n).

(** [k] characters taken cyclically from [pad]; [cur] is what is left of the
    current copy of [pad]. *)
Fixpoint cycle_chars (k : nat) (pad cur : string) : string :=
  match k with
  | O => EmptyString
  | S k' =>
      match cur with
      | String c rest => String c (cycle_chars k' pad rest)
      | EmptyString =>
          match pad with
          | String c rest => String c (cycle_chars k' pad rest)
          | EmptyString => EmptyString
          end
      end
  end.

(** [String.prototype.padStart(targetLength, padString)]. *)
Definition padStart (s : string) (targetLength : nat) (padString : string)
  : string :=
  if (String.length s <? targetLength)%nat
  then (cycle_chars (targetLength - String.length s) padString padString ++ s)%string
  else s.

(** The text that [updateScoreDisplay] assigns to [scoreText.text]. *)
Definition displayScore (score : Z) : string :=
  let clampedScore := Z.max 0 (Z.min 9999 score) in
  padStart (Number_toString clampedScore) 4 "0".

(** ** Objects of the game *)

(** A projectile: a clone of the blaster's [bullet] object.  [userData] holds
    [velocity] and [timeToLive]. *)
Module Bullet.
Record t : Type := mk {
  uuid : string;
  position : Vector3;
  quaternion : Quaternion;
  velocity : Vector3;
  timeToLive : Q
}.
End Bullet.

Module Target.
Record t : Type := mk {
  position : Vector3;
  visible : bool;
  scale : Vector3
}.

Definition set_visible (v : bool) (x : t) : t :=
  mk (position x) v (scale x).
Definition set_scale (s : Vector3) (x : t) : t :=
  mk (position x) (visible x) s.
Definition set_position_xz (px pz : Q) (x : t) : t :=
  mk (mkVector3 px (vy (position x)) pz) (visible x) (scale x).
End Target.

(** [blasterInertia].  The fields [sensitivity], [damping] and [maxTilt] are
    written once, in the object literal, and never assigned again: they are
    constants here. *)
Module BlasterInertia.
Record t : Type := mk { prevPos : Vector3; tiltY : Q; tiltZ : Q }.
Definition sensitivity : Q := 25 # 10.
Definition damping : Q := 8.
Definition maxTilt : Q := 12 # 100.
Definition initial : t := mk vzero 0 0.
End BlasterInertia.

(** [liquidSphereInertia], with the same convention for its constants. *)
Module LiquidSphereInertia.
Record t : Type := mk {
  prevPos : Vector3;
  tiltX : Q; tiltY : Q; tiltZ : Q;
  velX : Q; velY : Q; velZ : Q
}.
Definition sensitivity : Q := 3.
Definition spring : Q := 12.
Definition damping : Q := 4.
Definition maxTilt : Q := 18 # 100.
Definition initial (cameraPos : Vector3) : t := mk cameraPos 0 0 0 0 0 0.
End LiquidSphereInertia.

(** The children of [scene], by identity. *)
Inductive Object3D : Type :=
| ObjScoreText
| ObjSpaceStation
| ObjTarget (index : nat)
| ObjBullet (uuid : string).

Definition Object3D_eqb (a b : Object3D) : bool :=
  match a, b with
  | ObjScoreText, ObjScoreText => true
  | ObjSpaceStation, ObjSpaceStation => true
  | ObjTarget i, ObjTarget j => Nat.eqb i j
  | ObjBullet u, ObjBullet v => String.eqb u v
  | _, _ => false
  end.

(** [Object3D.remove(child)]: the child is spliced out of [children]. *)
Definition scene_remove (o : Object3D) (children : list Object3D)
  : list Object3D :=
  filter (fun c => negb (Object3D_eqb c o)) children.

(** [Object3D.add(child)]: the child leaves its former parent and is pushed
    at the end of [children]. *)
Definition scene_add (o : Object3D) (children : list Object3D)
  : list Object3D :=
  scene_remove o children ++ [o].

(** A request made to gsap and not completed yet: the shrink of a target
    (scale to 0, with the [onComplete] callback) or its growth (scale to 1). *)
Inductive Tween : Type :=
| Shrink (target : nat)
| Grow (target : nat).

Definition Tween_eqb (a b : Tween) : bool :=
  match a, b with
  | Shrink i, Shrink j => Nat.eqb i j
  | Grow i, Grow j => Nat.eqb i j
  | _, _ => false
  end.

Definition tween_target (tw : Tween) : nat :=
  match tw with Shrink i => i | Grow i => i end.

(** ** The module-level state *)

Record State : Type := mkState {
  bullets : list Bullet.t;           (* the registry, keyed by [Bullet.uuid] *)
  targets : list Target.t;
  blasterInertia : BlasterInertia.t;
  liquidSphereInertia : LiquidSphereInertia.t;
  score : Z;
  scoreText : string;                (* [scoreText.text] *)
  scene : list Object3D;             (* [scene.children] *)
  blasterAttached : bool;            (* [raySpace.children.includes(blasterGroup)] *)
  blasterRotation : Q * Q;           (* [blasterGroup.rotation.y], [.z] *)
  tweens : list Tween;               (* gsap requests in flight *)
  timers : list nat                  (* pending [setTimeout]s, by target *)
}.

Definition set_bullets (v : list Bullet.t) (s : State) : State :=
  mkState v (targets s) (blasterInertia s) (liquidSphereInertia s) (score s)
    (scoreText s) (scene s) (blasterAttached s) (blasterRotation s) (tweens s)
    (timers s).
Definition set_targets (v : list Target.t) (s : State) : State :=
  mkState (bullets s) v (blasterInertia s) (liquidSphereInertia s) (score s)
    (scoreText s) (scene s) (blasterAttached s) (blasterRotation s) (tweens s)
    (timers s).
Definition set_blasterInertia (v : BlasterInertia.t) (s : State) : State :=
  mkState (bullets s) (targets s) v (liquidSphereInertia s) (score s)
    (scoreText s) (scene s) (blasterAttached s) (blasterRotation s) (tweens s)
    (timers s).
Definition set_liquidSphereInertia (v : LiquidSphereInertia.t) (s : State)
  : State :=
  mkState (bullets s) (targets s) (blasterInertia s) v (score s)
    (scoreText s) (scene s) (blasterAttached s) (blasterRotation s) (tweens s)
    (timers s).
Definition set_score (v : Z) (s : State) : State :=
  mkState (bullets s) (targets s) (blasterInertia s) (liquidSphereInertia s) v
    (scoreText s) (scene s) (blasterAttached s) (blasterRotation s) (tweens s)
    (timers s).
Definition set_scoreText (v : string) (s : State) : State :=
  mkState (bullets s) (targets s) (blasterInertia s) (liquidSphereInertia s)
    (score s) v (scene s) (blasterAttached s) (blasterRotation s) (tweens s)
    (timers s).
Definition set_scene (v : list Object3D) (s : State) : State :=
  mkState (bullets s) (targets s) (blasterInertia s) (liquidSphereInertia s)
    (score s) (scoreText s) v (blasterAttached s) (blasterRotation s) (tweens s)
    (timers s).
Definition set_blasterAttached (v : bool) (s : State) : State :=
  mkState (bullets s) (targets s) (blasterInertia s) (liquidSphereInertia s)
    (score s) (scoreText s) (scene s) v (blasterRotation s) (tweens s)
    (timers s).
Definition set_blasterRotation (v : Q * Q) (s : State) : State :=
  mkState (bullets s) (targets s) (blasterInertia s) (liquidSphereInertia s)
    (score s) (scoreText s) (scene s) (blasterAttached s) v (tweens s)
    (timers s).
Definition set_tweens (v : list Tween) (s : State) : State :=
  mkState (bullets s) (targets s) (blasterInertia s) (liquidSphereInertia s)
    (score s) (scoreText s) (scene s) (blasterAttached s) (blasterRotation s) v
    (timers s).
Definition set_timers (v : list nat) (s : State) : State :=
  mkState (bullets s) (targets s) (blasterInertia s) (liquidSphereInertia s)
    (score s) (scoreText s) (scene s) (blasterAttached s) (blasterRotation s)
    (tweens s) v.

(** [updateScoreDisplay()]: only [scoreText.text] is written. *)
Definition updateScoreDisplay (s : State) : State :=
  set_scoreText (displayScore (score s)) s.

(** ** The registry [bullets] as a keyed collection *)

Definition has_uuid (u : string) (b : Bullet.t) : bool :=
  String.eqb (Bullet.uuid b) u.

(** [bullets[u]]. *)
Definition registry_get (u : string) (r : list Bullet.t) : option Bullet.t :=
  find (has_uuid u) r.

(** [delete bullets[u]]. *)
Definition registry_delete (u : string) (r : list Bullet.t) : list Bullet.t :=
  filter (fun b => negb (has_uuid u b)) r.

(** The object held under key [uuid b] is [b] after a mutation of it. *)
Definition registry_mutate (b : Bullet.t) (r : list Bullet.t)
  : list Bullet.t :=
  map (fun x => if has_uuid (Bullet.uuid b) x then b else x) r.

(** [bullets[b.uuid] = b]: an existing key keeps its place, a new key goes
    last. *)
Definition registry_set (b : Bullet.t) (r : list Bullet.t) : list Bullet.t :=
  if existsb (has_uuid (Bullet.uuid b)) r
  then registry_mutate b r
  else r ++ [b].

Definition registry_keys (r : list Bullet.t) : list string :=
  map Bullet.uuid r.

(** ** Exceptions *)

Inductive result (A : Type) : Type :=
| Ok (a : A)
| Throw (e : string).
Arguments Ok {A} a.
Arguments Throw {A} e.

Definition bind {A B : Type} (r : result A) (k : A -> result B) : result B :=
  match r with
  | Ok a => k a
  | Throw e => Throw e
  end.

(** [try { body } catch { handler }]. *)
Definition try_catch {A : Type} (body handler : result A) : result A :=
  match body with
  | Ok a => Ok a
  | Throw _ => handler
  end.

(** ** What a frame reads from the XR layer *)

Record Controller : Type := mkController {
  raySpace_worldPosition : Vector3;  (* [raySpace.getWorldPosition] *)
  triggerClick : bool;               (* [gamepad.getButtonClick(TRIGGER)] *)
  hapticActuator : bool              (* does [getHapticActuator(0).pulse] return? *)
}.

(** The object that [blasterGroup.getObjectByName('bullet')] finds, with its
    world position and world quaternion. *)
Record Prototype : Type := mkPrototype {
  worldPosition : Vector3;
  worldQuaternion : Quaternion
}.

Record FrameInput : Type := mkFrameInput {
  camera_worldPosition : Vector3;
  controllers_right : option Controller;
  bulletPrototype : option Prototype;  (* [None]: no object named bullet *)
  cloneUuid : string                   (* the uuid a [clone()] would get *)
}.

(** ** Inertia filters *)

Definition epsilonDelta : Q := 1 # 1000.

(** [pos.clone().sub(prevPos).divideScalar(Math.max(delta, 0.001))]. *)
Definition estimateVelocity (delta : Q) (pos prevPos : Vector3) : Vector3 :=
  divideScalar (vsub pos prevPos) (Math_max delta epsilonDelta).

Definition liquidTargetX (refVelocity : Vector3) : Q :=
  clamp (- vx refVelocity * LiquidSphereInertia.sensitivity * (8 # 10))
        (- LiquidSphereInertia.maxTilt) LiquidSphereInertia.maxTilt.
Definition liquidTargetY (refVelocity : Vector3) : Q :=
  clamp (- vx refVelocity * LiquidSphereInertia.sensitivity)
        (- LiquidSphereInertia.maxTilt) LiquidSphereInertia.maxTilt.
Definition liquidTargetZ (refVelocity : Vector3) : Q :=
  clamp (vz refVelocity * LiquidSphereInertia.sensitivity * (5 # 10))
        (- LiquidSphereInertia.maxTilt) LiquidSphereInertia.maxTilt.

(** One axis of the spring: [vel += (target - tilt) * s - vel * d]. *)
Definition springVel (target tilt vel s d : Q) : Q :=
  vel + ((target - tilt) * s - vel * d).

(** The spring-damper update of [liquidSphereInertia] (lines 177-206). *)
Definition updateLiquid (delta : Q) (refPos : Vector3)
  (l : LiquidSphereInertia.t) : LiquidSphereInertia.t :=
  let refVelocity := estimateVelocity delta refPos (LiquidSphereInertia.prevPos l) in
  let targetX := liquidTargetX refVelocity in
  let targetY := liquidTargetY refVelocity in
  let targetZ := liquidTargetZ refVelocity in
  let d := LiquidSphereInertia.damping * delta in
  let s := LiquidSphereInertia.spring * delta in
  let velX := springVel targetX (LiquidSphereInertia.tiltX l) (LiquidSphereInertia.velX l) s d in
  let velY := springVel targetY (LiquidSphereInertia.tiltY l) (LiquidSphereInertia.velY l) s d in
  let velZ := springVel targetZ (LiquidSphereInertia.tiltZ l) (LiquidSphereInertia.velZ l) s d in
  LiquidSphereInertia.mk refPos
    (LiquidSphereInertia.tiltX l + velX * delta)
    (LiquidSphereInertia.tiltY l + velY * delta)
    (LiquidSphereInertia.tiltZ l + velZ * delta)
    velX velY velZ.

Definition blasterTargetTiltY (velocity : Vector3) : Q :=
  clamp (- vx velocity * BlasterInertia.sensitivity)
        (- BlasterInertia.maxTilt) BlasterInertia.maxTilt.
Definition blasterTargetTiltZ (velocity : Vector3) : Q :=
  clamp (vz velocity * BlasterInertia.sensitivity * (5 # 10))
        (- BlasterInertia.maxTilt) BlasterInertia.maxTilt.

(** One axis of the low-pass blend:
    [tilt += (target - tilt) * Math.min(1, damping * delta)]. *)
Definition blend (target tilt delta : Q) : Q :=
  tilt + (target - tilt) * Math_min 1 (BlasterInertia.damping * delta).

(** The low-pass update of [blasterInertia] (lines 224-241). *)
Definition updateBlaster (delta : Q) (currentPos : Vector3)
  (b : BlasterInertia.t) : BlasterInertia.t :=
  let velocity := estimateVelocity delta currentPos (BlasterInertia.prevPos b) in
  let targetTiltY := blasterTargetTiltY velocity in
  let targetTiltZ := blasterTargetTiltZ velocity in
  BlasterInertia.mk currentPos
    (blend targetTiltY (BlasterInertia.tiltY b) delta)
    (blend targetTiltZ (BlasterInertia.tiltZ b) delta).

(** ** The right controller: attaching the blaster, tilting it, firing *)

(** Lines 216-221: the first frame that sees the controller parents the
    blaster to it and resets both [prevPos]. *)
Definition attachBlaster (c : Controller) (st : State) : State :=
  if blasterAttached st then st
  else
    let p := raySpace_worldPosition c in
    let b := blasterInertia st in
    let l := liquidSphereInertia st in
    set_liquidSphereInertia
      (LiquidSphereInertia.mk p
         (LiquidSphereInertia.tiltX l) (LiquidSphereInertia.tiltY l)
         (LiquidSphereInertia.tiltZ l) (LiquidSphereInertia.velX l)
         (LiquidSphereInertia.velY l) (LiquidSphereInertia.velZ l))
      (set_blasterInertia
         (BlasterInertia.mk p (BlasterInertia.tiltY b) (BlasterInertia.tiltZ b))
         (set_blasterAttached true st)).

(** Lines 258-270, under the guard [if (bulletPrototype)]. *)
Definition spawnBullet (u : string) (p : Prototype) (st : State) : State :=
  let directionVector := applyQuaternion forwardVector (worldQuaternion p) in
  let bullet :=
    Bullet.mk u (worldPosition p) (worldQuaternion p)
      (multiplyScalar directionVector bulletSpeed) bulletTimeToLive in
  set_bullets (registry_set bullet (bullets st))
    (set_scene (scene_add (ObjBullet u) (scene st)) st).

(** Lines 256-271. *)
Definition spawn (inp : FrameInput) (st : State) : State :=
  match bulletPrototype inp with
  | Some p => spawnBullet (cloneUuid inp) p st
  | None => st
  end.

Definition hapticPulse (c : Controller) : result unit :=
  if hapticActuator c then Ok tt else Throw "getHapticActuator".

(** Lines 245-272, the body of [if (gamepad.getButtonClick(...))]: the haptic
    pulse under [try]/[catch], the laser sound (no state of this model), the
    spawn. *)
Definition onTrigger (inp : FrameInput) (c : Controller) (st : State)
  : result State :=
  bind (try_catch (hapticPulse c) (Ok tt)) (fun _ => Ok (spawn inp st)).

(** Lines 214-273, the body of [if (controllers.right)]. *)
Definition rightController (delta : Q) (inp : FrameInput) (c : Controller)
  (st : State) : result State :=
  let st1 := attachBlaster c st in
  let b := updateBlaster delta (raySpace_worldPosition c) (blasterInertia st1) in
  let st2 :=
    set_blasterRotation (BlasterInertia.tiltY b, BlasterInertia.tiltZ b)
      (set_blasterInertia b st1) in
  if triggerClick c then onTrigger inp c st2 else Ok st2.

(** ** The projectile loop (lines 275-322) *)

(** [delete bullets[bullet.uuid]; scene.remove(bullet);] *)
Definition removeBullet (b : Bullet.t) (st : State) : State :=
  set_scene (scene_remove (ObjBullet (Bullet.uuid b)) (scene st))
    (set_bullets (registry_delete (Bullet.uuid b) (bullets st)) st).

(** Lines 281-283: [position += velocity * delta; timeToLive -= delta]. *)
Definition advance (delta : Q) (b : Bullet.t) : Bullet.t :=
  Bullet.mk (Bullet.uuid b)
    (vadd (Bullet.position b) (multiplyScalar (Bullet.velocity b) delta))
    (Bullet.quaternion b) (Bullet.velocity b)
    (Bullet.timeToLive b - delta).

(** [target.position.distanceTo(bullet.position) < 1]. *)
Definition inRange (b : Bullet.t) (t : Target.t) : bool :=
  Qltb (distanceToSquared (Target.position t) (Bullet.position b)) 1.

(** The targets with their index in [targets]; the index stands for the
    object captured by the closures handed to gsap. *)
Definition indexed (ts : list Target.t) : list (nat * Target.t) :=
  combine (seq 0 (List.length ts)) ts.

(** [targets.filter((target) => target.visible)]. *)
Definition visibleTargets (ts : list Target.t) : list (nat * Target.t) :=
  filter (fun it => Target.visible (snd it)) (indexed ts).

(** Lines 290-319, the body of [if (distance < 1)]. *)
Definition onHit (b : Bullet.t) (i : nat) (st : State) : State :=
  let st1 := removeBullet b st in
  let st2 := set_tweens (tweens st1 ++ [Shrink i]) st1 in
  updateScoreDisplay (set_score (score st2 + 10)%Z st2).

(** The callback of the inner [forEach] (lines 287-321). *)
Definition checkTarget (b : Bullet.t) (st : State) (it : nat * Target.t)
  : State :=
  if inRange b (snd it) then onHit b (fst it) st else st.

(** The callback of the outer [forEach] (lines 275-322), applied to the object
    [b]; it returns the object as the call leaves it, and the state. *)
Definition bulletCallback (delta : Q) (b : Bullet.t) (st : State)
  : Bullet.t * State :=
  if Qltb (Bullet.timeToLive b) 0
  then (b, removeBullet b st)
  else
    let b' := advance delta b in
    let st1 := set_bullets (registry_mutate b' (bullets st)) st in
    (b', fold_left (checkTarget b') (visibleTargets (targets st1)) st1).

(** [Object.values(bullets).forEach(...)]: the array of values is taken once,
    before the first call.  No call touches an object other than its own, so
    the value of an object in that array is its value when its turn comes. *)
Definition stepBullets (delta : Q) (st : State) : State :=
  fold_left (fun s b => snd (bulletCallback delta b s)) (bullets st) st.

(** ** [onFrame] *)

(** Lines 171-273: everything [onFrame] does before the projectile loop. *)
Definition beforeBullets (delta : Q) (inp : FrameInput) (st : State)
  : result State :=
  let refPos :=
    match controllers_right inp with
    | Some c => raySpace_worldPosition c
    | None => camera_worldPosition inp
    end in
  let st1 :=
    set_liquidSphereInertia
      (updateLiquid delta refPos (liquidSphereInertia st)) st in
  match controllers_right inp with
  | Some c => rightController delta inp c st1
  | None => Ok st1
  end.

(** [gsap.ticker.tick(delta)], the last statement, runs the tweening library:
    what it may do to the state is the events [TweenUpdate], [ShrinkComplete]
    and [GrowComplete] below. *)
Definition onFrame (delta : Q) (inp : FrameInput) (st : State)
  : result State :=
  bind (beforeBullets delta inp st) (fun st2 => Ok (stepBullets delta st2)).

(** ** Callbacks run by the loaders, gsap and [setTimeout] *)

Fixpoint update_nth {A : Type} (i : nat) (f : A -> A) (l : list A) : list A :=
  match l, i with
  | [], _ => []
  | x :: r, O => f x :: r
  | x :: r, S i' => x :: update_nth i' f r
  end.

Fixpoint remove_first {A : Type} (eqb : A -> A -> bool) (a : A) (l : list A)
  : list A :=
  match l with
  | [] => []
  | x :: r => if eqb x a then r else x :: remove_first eqb a r
  end.

(** A value of [Math.random()]. *)
Definition isRandom (r : Q) : bool := Qle_bool 0 r && Qltb r 1.

(** One turn of the loop of the [target.glb] callback (lines 130-137). *)
Definition addTarget (st : State) (ir : nat * (Q * Q)) : State :=
  let '(i, (rx, rz)) := ir in
  let target :=
    Target.mk
      (mkVector3 (rx * 10 - 5) (inject_Z (Z.of_nat i) * 2 + 1) (- rz * 5 - 5))
      true (mkVector3 1 1 1) in
  set_targets (targets st ++ [target])
    (set_scene (scene_add (ObjTarget (List.length (targets st))) (scene st)) st).

(** The [onComplete] callback of the shrink (lines 298-313): gsap has brought
    the scale to its end value; the target is hidden and the timer armed. *)
Definition shrinkComplete (i : nat) (st : State) : State :=
  set_timers (timers st ++ [i])
    (set_tweens (remove_first Tween_eqb (Shrink i) (tweens st))
       (set_targets
          (update_nth i
             (fun t => Target.set_visible false (Target.set_scale vzero t))
             (targets st))
          st)).

(** The [setTimeout] callback (lines 300-312). *)
Definition respawn (i : nat) (rx rz : Q) (st : State) : State :=
  set_tweens (tweens st ++ [Grow i])
    (set_timers (remove_first Nat.eqb i (timers st))
       (set_targets
          (update_nth i
             (fun t =>
                Target.set_position_xz (rx * 10 - 5) (- rz * 5 - 5)
                  (Target.set_visible true t))
             (targets st))
          st)).

Definition growComplete (i : nat) (st : State) : State :=
  set_tweens (remove_first Tween_eqb (Grow i) (tweens st))
    (set_targets
       (update_nth i (Target.set_scale (mkVector3 1 1 1)) (targets st)) st).

Inductive Event : Type :=
| Frame (delta : Q) (inp : FrameInput)
| TargetsLoaded (r0 r1 r2 : Q * Q)
| StationLoaded
| TweenUpdate (tw : Tween) (s : Vector3)
| ShrinkComplete (i : nat)
| RespawnTimeout (i : nat) (rx rz : Q)
| GrowComplete (i : nat).

Definition isRandomPair (r : Q * Q) : bool :=
  isRandom (fst r) && isRandom (snd r).

(** The state after an event, [None] when the event cannot happen in [st]
    (or when the frame throws). *)
Definition applyEvent (e : Event) (st : State) : option State :=
  match e with
  | Frame delta inp =>
      match onFrame delta inp st with
      | Ok st' => Some st'
      | Throw _ => None
      end
  | TargetsLoaded r0 r1 r2 =>
      match targets st with
      | [] =>
          if isRandomPair r0 && isRandomPair r1 && isRandomPair r2
          then Some (fold_left addTarget [(0%nat, r0); (1%nat, r1); (2%nat, r2)] st)
          else None
      | _ :: _ => None
      end
  | StationLoaded =>
      Some (set_scene (scene_add ObjSpaceStation (scene st)) st)
  | TweenUpdate tw s =>
      if existsb (Tween_eqb tw) (tweens st)
      then Some (set_targets
                   (update_nth (tween_target tw) (Target.set_scale s) (targets st))
                   st)
      else None
  | ShrinkComplete i =>
      if existsb (Tween_eqb (Shrink i)) (tweens st)
      then Some (shrinkComplete i st) else None
  | RespawnTimeout i rx rz =>
      if existsb (Nat.eqb i) (timers st) && isRandom rx && isRandom rz
      then Some (respawn i rx rz st) else None
  | GrowComplete i =>
      if existsb (Tween_eqb (Grow i)) (tweens st)
      then Some (growComplete i st) else None
  end.

Fixpoint run (es : list Event) (st : State) : option State :=
  match es with
  | [] => Some st
  | e :: es' =>
      match applyEvent e st with
      | Some st' => run es' st'
      | None => None
      end
  end.

(** The state when [setupScene] returns: the score text is in the scene and
    shows the score, the liquid filter has sampled the camera. *)
Definition initialState (cameraPos : Vector3) : State :=
  mkState [] [] BlasterInertia.initial (LiquidSphereInertia.initial cameraPos)
    0%Z (displayScore 0) [ObjScoreText] false (0, 0) [] [].

Definition reachable (st : State) : Prop :=
  exists cameraPos es, run es (initialState cameraPos) = Some st.

(** ** Predicates used in the statements *)

(** [x] lies between [a] and [b], ends included, whichever is larger. *)
Definition between (a b x : Q) : Prop :=
  Math_min a b <= x /\ x <= Math_max a b.

(** [x] lies in [[-m, m]]. *)
Definition withinTilt (m x : Q) : Prop := - m <= x /\ x <= m.

Definition blasterWithin (b : BlasterInertia.t) : Prop :=
  withinTilt BlasterInertia.maxTilt (BlasterInertia.tiltY b) /\
  withinTilt BlasterInertia.maxTilt (BlasterInertia.tiltZ b).

Definition liquidWithin (l : LiquidSphereInertia.t) : Prop :=
  withinTilt LiquidSphereInertia.maxTilt (LiquidSphereInertia.tiltX l) /\
  withinTilt LiquidSphereInertia.maxTilt (LiquidSphereInertia.tiltY l) /\
  withinTilt LiquidSphereInertia.maxTilt (LiquidSphereInertia.tiltZ l).

(** The fields of the state that the projectile loop never writes. *)
Definition sameOutsideLoop (s s' : State) : Prop :=
  targets s' = targets s /\
  blasterInertia s' = blasterInertia s /\
  liquidSphereInertia s' = liquidSphereInertia s /\
  blasterAttached s' = blasterAttached s /\
  blasterRotation s' = blasterRotation s /\
  timers s' = timers s.

(** The targets of [its] within range of [b]. *)
Definition hitsOf (b : Bullet.t) (its : list (nat * Target.t))
  : list (nat * Target.t) :=
  filter (fun it => inRange b (snd it)) its.

(** The collisions of the projectile [b] in a frame of [delta]: the visible
    targets, in the order of [targets], within range of [b] once it has
    advanced; none when [b] has expired. *)
Definition collisions (delta : Q) (ts : list Target.t) (b : Bullet.t)
  : list (nat * Target.t) :=
  if Qltb (Bullet.timeToLive b) 0 then []
  else hitsOf (advance delta b) (visibleTargets ts).

(** [b] is neither expired nor hits anything in this frame. *)
Definition survives (delta : Q) (ts : list Target.t) (b : Bullet.t) : bool :=
  negb (Qltb (Bullet.timeToLive b) 0) &&
  match collisions delta ts b with [] => true | _ :: _ => false end.

(** The shrink requests that the collisions of [b] make to gsap. *)
Definition shrinkRequests (delta : Q) (ts : list Target.t) (b : Bullet.t)
  : list Tween :=
  map (fun it => Shrink (fst it)) (collisions delta ts b).

(** The registry holds at most one object per uuid. *)
Definition uniqueKeys (st : State) : Prop :=
  NoDup (registry_keys (bullets st)).

(** The projectiles of the registry are the projectiles of the scene. *)
Definition registryInScene (st : State) : Prop :=
  forall u, In u (registry_keys (bullets st)) <-> In (ObjBullet u) (scene st).

(** The projectile loop, as a function of the array it walks. *)
Definition loopOver (delta : Q) (bs : list Bullet.t) (st : State) : State :=
  fold_left (fun s b => snd (bulletCallback delta b s)) bs st.

(** The scene once the projectiles of [bs] that do not survive are removed. *)
Definition sceneAfter (delta : Q) (ts : list Target.t) (bs : list Bullet.t)
  (sc : list Object3D) : list Object3D :=
  fold_left
    (fun children b =>
       if survives delta ts b then children
       else scene_remove (ObjBullet (Bullet.uuid b)) children)
    bs sc.

(** The two invariants of the registry. *)
Definition wellFormed (st : State) : Prop :=
  uniqueKeys st /\ registryInScene st.

(** The decimal digit [d] (0 to 9) as a character. *)
Definition digitChar (d : Z) : ascii := ascii_of_nat (48 + Z.to_nat d).

(** The display the specification describes: the four decimal digits of a
    value between 0 and 9999, thousands first. *)
Definition fourDigits (c : Z) : string :=
  String (digitChar ((c / 1000) mod 10))
    (String (digitChar ((c / 100) mod 10))
       (String (digitChar ((c / 10) mod 10))
          (String (digitChar (c mod 10)) EmptyString))).

(** [clamp(s, 0, 9999)] on integers. *)
Definition clampScore (s : Z) : Z :=
  if (s <? 0)%Z then 0%Z else if (9999 <? s)%Z then 9999%Z else s.

(** The same frame with the trigger at rest. *)
Definition releaseTrigger (inp : FrameInput) : FrameInput :=
  mkFrameInput (camera_worldPosition inp)
    (match controllers_right inp with
     | Some c =>
         Some (mkController (raySpace_worldPosition c) false (hapticActuator c))
     | None => None
     end)
    (bulletPrototype inp) (cloneUuid inp).

Definition isFrame (e : Event) : bool :=
  match e with Frame _ _ => true | _ => false end.


(** The heights the loader gives the targets: the target of index [i] is at
    height [2 i + 1], and no callback writes [position.y]. *)
Definition targetsLaidOut (st : State) : Prop :=
  forall i t,
    nth_error (targets st) i = Some t ->
    vy (Target.position t) = inject_Z (Z.of_nat i) * 2 + 1.

(** ** Sample data for the examples *)

Definition identityQuaternion : Quaternion := mkQuaternion 0 0 0 1.

Definition unitScale : Vector3 := mkVector3 1 1 1.

(** A frame without a controller: only the camera is sampled. *)
Definition cameraOnly (cameraPos : Vector3) : FrameInput :=
  mkFrameInput cameraPos None None "".

(** A frame with the right controller held at [p]; the blaster's [bullet]
    object, when it exists, sits at [p] with the identity orientation. *)
Definition withController (p : Vector3) (trigger haptics hasPrototype : bool)
  (u : string) : FrameInput :=
  mkFrameInput vzero (Some (mkController p trigger haptics))
    (if hasPrototype then Some (mkPrototype p identityQuaternion) else None) u.

(** The state a frame leaves (the state it found, should it throw). *)
Definition afterFrame (delta : Q) (inp : FrameInput) (st : State) : State :=
  match onFrame delta inp st with
  | Ok st' => st'
  | Throw _ => st
  end.

(** The blaster already sits on the controller, at the origin. *)
Definition attachedState : State :=
  set_blasterAttached true (initialState vzero).

(** The controller swept to the left within one sixtieth of a second. *)
Definition sweepLeft : FrameInput :=
  withController (mkVector3 (-1) 1 0) false true true "".

(** The state a run from the initial state ends in. *)
Definition afterRun (es : list Event) : State :=
  match run es (initialState vzero) with
  | Some st => st
  | None => initialState vzero
  end.

(** The three targets right ahead: at (0, 1, -5), (0, 3, -5), (0, 5, -5). *)
Definition targetsAhead : Event := TargetsLoaded (1 # 2, 0) (1 # 2, 0) (1 # 2, 0).

(** A frame of a tenth of a second, the blaster held at (0, 1, -3) and
    pointing down the -z axis; [trigger] fires the projectile [u].  A
    projectile flies one metre per frame: it is at z = -4 when the frame of
    the shot ends, one metre from the lowest target, and on the target one
    frame later. *)
Definition aimFrame (trigger : bool) (u : string) : Event :=
  Frame (1 # 10) (withController (mkVector3 0 1 (-3)) trigger true true u).

(** One shot at the lowest target, followed until it lands. *)
Definition oneShot : list Event :=
  [targetsAhead; aimFrame true "b1"; aimFrame false ""].

(** Two shots one frame apart: the second lands while the target shrinks. *)
Definition twoShots : list Event :=
  [targetsAhead; aimFrame true "b1"; aimFrame true "b2"; aimFrame false ""].

(** The same, but the shrink completes between the two landings. *)
Definition twoShotsShrinkDone : list Event :=
  [targetsAhead; aimFrame true "b1"; aimFrame true "b2"; ShrinkComplete 0;
   aimFrame false ""].

(** Three frames of half a second after a shot in an empty room. *)
Definition shotInEmptyRoom : list Event :=
  [Frame (1 # 2) (withController (mkVector3 0 1 0) true true true "b1");
   Frame (1 # 2) (withController (mkVector3 0 1 0) false true true "");
   Frame (1 # 2) (withController (mkVector3 0 1 0) false true true "")].

(** A projectile at rest at the origin, and two visible targets half a metre
    from it. *)
Definition restingBullet : Bullet.t :=
  Bullet.mk "b" vzero identityQuaternion vzero 1.

Definition twoTargetsInRange : State :=
  mkState [restingBullet]
    [Target.mk (mkVector3 (1 # 2) 0 0) true unitScale;
     Target.mk (mkVector3 0 (1 # 2) 0) true unitScale]
    BlasterInertia.initial (LiquidSphereInertia.initial vzero)
    0%Z "0000" [ObjScoreText; ObjTarget 0; ObjTarget 1; ObjBullet "b"]
    false (0, 0) [] [].

(** An expired projectile sitting on a visible target. *)
Definition expiredBullet : Bullet.t :=
  Bullet.mk "old" vzero identityQuaternion (mkVector3 0 0 (-10)) (-1 # 100).

Definition expiredOnTarget : State :=
  mkState [expiredBullet; restingBullet]
    [Target.mk vzero true unitScale]
    BlasterInertia.initial (LiquidSphereInertia.initial vzero)
    30%Z "0030" [ObjScoreText; ObjTarget 0; ObjBullet "old"; ObjBullet "b"]
    false (0, 0) [] [].

(** [n] frames of a fifth of a second, the camera gliding to the left at one
    metre per second. *)
Definition glide (n : nat) : list Event :=
  map (fun k =>
         Frame (1 # 5)
           (cameraOnly (mkVector3 (- (inject_Z (Z.of_nat (S k)) / 5)) 0 0)))
      (seq 0 n).

(** ** Further predicates and sample data *)

(** The displayed text is the text of the stored score. *)
Definition displayInSync (st : State) : Prop :=
  scoreText st = displayScore (score st).

(** The same frame, with the haptic actuator working ([true]) or throwing. *)
Definition withHaptics (h : bool) (inp : FrameInput) : FrameInput :=
  mkFrameInput (camera_worldPosition inp)
    (match controllers_right inp with
     | Some c => Some (mkController (raySpace_worldPosition c) (triggerClick c) h)
     | None => None
     end)
    (bulletPrototype inp) (cloneUuid inp).

Definition isShrink (tw : Tween) : bool :=
  match tw with Shrink _ => true | Grow _ => false end.

(** [Vector3.lengthSq()]. *)
Definition lengthSq (v : Vector3) : Q :=
  vx v * vx v + vy v * vy v + vz v * vz v.

(** The object that the spawn creates from the prototype [p] under the uuid
    [u] (lines 258-269). *)
Definition newBullet (u : string) (p : Prototype) : Bullet.t :=
  Bullet.mk u (worldPosition p) (worldQuaternion p)
    (multiplyScalar (applyQuaternion forwardVector (worldQuaternion p))
       bulletSpeed)
    bulletTimeToLive.

(** A click of the trigger that fires: controller, click and prototype. *)
Definition fires (inp : FrameInput) : bool :=
  match controllers_right inp, bulletPrototype inp with
  | Some c, Some _ => triggerClick c
  | _, _ => false
  end.

(** The object after the advances of the frames [ds]. *)
Definition flightOf (ds : list Q) (b : Bullet.t) : Bullet.t :=
  fold_left (fun x d => advance d x) ds b.

(** [b] passes the liveness test of each of the frames [ds]. *)
Fixpoint aliveThrough (ds : list Q) (b : Bullet.t) : bool :=
  match ds with
  | [] => true
  | d :: r => negb (Qltb (Bullet.timeToLive b) 0) && aliveThrough r (advance d b)
  end.

(** A run of frames, given by their [delta] and their input. *)
Definition frames (fs : list (Q * FrameInput)) : list Event :=
  map (fun f => Frame (fst f) (snd f)) fs.

(** A frame of non-negative length that does not fire. *)
Definition quietFrame (f : Q * FrameInput) : Prop :=
  0 <= fst f /\ fires (snd f) = false.

(** A frame where the controller is held still at (0, 1, 0), trigger at
    rest. *)
Definition quietInput : FrameInput :=
  withController (mkVector3 0 1 0) false true true "".

(** The state one frame of half a second after a shot in an empty room. *)
Definition firedOnce : State :=
  afterRun [Frame (1 # 2) (withController (mkVector3 0 1 0) true true true "b1")].

(** The projectile of [firedOnce]. *)
Definition firstBullet : Bullet.t :=
  advance (1 # 2)
    (newBullet "b1" (mkPrototype (mkVector3 0 1 0) identityQuaternion)).

(** The gallery: where the loader and the respawn put a target. *)
Definition inGallery (t : Target.t) : Prop :=
  -5 <= vx (Target.position t) /\ vx (Target.position t) < 5 /\
  -10 <= vz (Target.position t) /\ vz (Target.position t) <= -5.

Definition targetsInGallery (st : State) : Prop :=
  forall i t, nth_error (targets st) i = Some t -> inGallery t.

(** Every hidden target has a respawn timer pending. *)
Definition hiddenHaveTimer (st : State) : Prop :=
  forall i t,
    nth_error (targets st) i = Some t -> Target.visible t = false ->
    In i (timers st).

(** The score text and the targets are children of the scene. *)
Definition fixturesInScene (st : State) : Prop :=
  In ObjScoreText (scene st) /\
  forall i, (i < List.length (targets st))%nat -> In (ObjTarget i) (scene st).

Definition isBullet (o : Object3D) : bool :=
  match o with ObjBullet _ => true | _ => false end.

(** The position a frame takes as the reference of the liquid: the
    controller when there is one, the camera otherwise (lines 171-176). *)
Definition referencePosition (inp : FrameInput) : Vector3 :=
  match controllers_right inp with
  | Some c => raySpace_worldPosition c
  | None => camera_worldPosition inp
  end.

(** The rotation of the blaster is the state of its filter. *)
Definition rotationInSync (st : State) : Prop :=
  blasterRotation st =
  (BlasterInertia.tiltY (blasterInertia st),
   BlasterInertia.tiltZ (blasterInertia st)).

(** The liquid at rest: no tilt, no velocity. *)
Definition liquidAtRest (l : LiquidSphereInertia.t) : Prop :=
  LiquidSphereInertia.tiltX l == 0 /\ LiquidSphereInertia.tiltY l == 0 /\
  LiquidSphereInertia.tiltZ l == 0 /\ LiquidSphereInertia.velX l == 0 /\
  LiquidSphereInertia.velY l == 0 /\ LiquidSphereInertia.velZ l == 0.

(** Two states of the liquid filter with equal numbers. *)
Definition sameLiquidMotion (l l' : LiquidSphereInertia.t) : Prop :=
  LiquidSphereInertia.tiltX l' == LiquidSphereInertia.tiltX l /\
  LiquidSphereInertia.tiltY l' == LiquidSphereInertia.tiltY l /\
  LiquidSphereInertia.tiltZ l' == LiquidSphereInertia.tiltZ l /\
  LiquidSphereInertia.velX l' == LiquidSphereInertia.velX l /\
  LiquidSphereInertia.velY l' == LiquidSphereInertia.velY l /\
  LiquidSphereInertia.velZ l' == LiquidSphereInertia.velZ l.
(** ** IEEE binary64 rounding

    The numbers of the program are doubles.  Where a property depends on
    the rounding of a result, the expressions of the source are taken again
    with each operation rounded to the nearest double, ties to even.  The
    model of rounding covers the normal and the subnormal range; overflow to
    infinity, NaN and the sign of zero are not modelled. *)

Definition pow2 (e : Z) : Q := Qpower 2 e.

(** The integer nearest to [m], the even one when two are as near. *)
Definition roundHalfEven (m : Q) : Z :=
  let f := Qfloor m in
  match Qcompare (m - inject_Z f) (1 # 2) with
  | Lt => f
  | Gt => (f + 1)%Z
  | Eq => if Z.even f then f else (f + 1)%Z
  end.

(** For [a > 0], the exponent [e] with [2^e <= a < 2^(e+1)]. *)
Definition binade (a : Q) : Z :=
  let g := (Z.log2 (Qnum a) - Z.log2 (Z.pos (Qden a)))%Z in
  if Qle_bool (pow2 g) a then g else (g - 1)%Z.

(** The double nearest to [a > 0]: 53 significant bits, and no exponent below
    that of the subnormal numbers. *)
Definition roundPositive (a : Q) : Q :=
  let q := (Z.max (binade a) (-1022) - 52)%Z in
  inject_Z (roundHalfEven (a / pow2 q)) * pow2 q.

Definition roundDouble (x : Q) : Q :=
  match Qcompare x 0 with
  | Eq => 0
  | Gt => roundPositive x
  | Lt => - roundPositive (- x)
  end.


(** ** The low-pass filter in doubles

    Lines 224-241 with every operation rounded by [fl].  With [fl] the
    identity this is [updateBlaster]. *)

Section Rounded.

Variable fl : Q -> Q.

(** [pos.clone().sub(prevPos).divideScalar(Math.max(delta, 0.001))]:
    [divideScalar(s)] multiplies each component by the double [1 / s]. *)
Definition estimateVelocityR (delta : Q) (pos prevPos : Vector3) : Vector3 :=
  let scalar := fl (1 / Math_max delta (fl epsilonDelta)) in
  mkVector3 (fl (fl (vx pos - vx prevPos) * scalar))
            (fl (fl (vy pos - vy prevPos) * scalar))
            (fl (fl (vz pos - vz prevPos) * scalar)).

Definition maxTiltR : Q := fl BlasterInertia.maxTilt.

Definition blasterTargetTiltYR (velocity : Vector3) : Q :=
  clamp (fl (- vx velocity * fl BlasterInertia.sensitivity))
        (- maxTiltR) maxTiltR.

Definition blasterTargetTiltZR (velocity : Vector3) : Q :=
  clamp (fl (fl (vz velocity * fl BlasterInertia.sensitivity) * (5 # 10)))
        (- maxTiltR) maxTiltR.

(** [tilt += (target - tilt) * Math.min(1, damping * delta)]. *)
Definition blendR (target tilt delta : Q) : Q :=
  fl (tilt +
      fl (fl (target - tilt) * Math_min 1 (fl (BlasterInertia.damping * delta)))).

(** The same update when the factor is 1: the furthest a frame can move the
    tilt. *)
Definition fullStepR (target tilt : Q) : Q :=
  fl (tilt + fl (fl (target - tilt) * 1)).

Definition updateBlasterR (delta : Q) (currentPos : Vector3)
  (b : BlasterInertia.t) : BlasterInertia.t :=
  let velocity := estimateVelocityR delta currentPos (BlasterInertia.prevPos b) in
  let targetTiltY := blasterTargetTiltYR velocity in
  let targetTiltZ := blasterTargetTiltZR velocity in
  BlasterInertia.mk currentPos
    (blendR targetTiltY (BlasterInertia.tiltY b) delta)
    (blendR targetTiltZ (BlasterInertia.tiltZ b) delta).

End Rounded.

(** Two frames in doubles after the blaster was attached at the origin: the
    controller moves 1/32 to the right in 1/64 s, then one metre to the left
    in 1/8 s. *)
Definition blasterNudged : BlasterInertia.t :=
  updateBlasterR roundDouble (1 # 64) (mkVector3 (1 # 32) 0 0)
    BlasterInertia.initial.

Definition blasterSwept : BlasterInertia.t :=
  updateBlasterR roundDouble (1 # 8) (mkVector3 (-31 # 32) 0 0) blasterNudged.

(** The target tilt about y of the second of these frames. *)
Definition sweptTargetTiltY : Q :=
  blasterTargetTiltYR roundDouble
    (estimateVelocityR roundDouble (1 # 8) (mkVector3 (-31 # 32) 0 0)
       (BlasterInertia.prevPos blasterNudged)).


(** ** The projectile loop with an exit at the first hit

    The loop as the specification words it: a projectile is tested against
    the visible targets in the order of [targets] up to the first one within
    range, which is hit; no target after that one is looked at. *)





(** * Properties *)

(** Closed conjunctions of equations and comparisons between values that the
    definitions compute. *)
Ltac by_evaluation :=
  repeat match goal with |- _ /\ _ => split end;
  vm_compute; reflexivity.

(** ** Comparisons, [Math.min], [Math.max], [clamp] *)

Lemma Qltb_lt a b : Qltb a b = true <-> a < b.
Proof.
  unfold Qltb. rewrite negb_true_iff. split; intro H.
  - apply Qnot_le_lt. intro Hle. apply Qle_bool_iff in Hle. congruence.
  - destruct (Qle_bool b a) eqn:E; [|reflexivity].
    apply Qle_bool_iff in E. exfalso. apply (Qlt_not_le _ _ H E).
Qed.

Lemma Qltb_ge a b : Qltb a b = false <-> b <= a.
Proof.
  unfold Qltb. rewrite negb_false_iff. apply Qle_bool_iff.
Qed.

Lemma Qle_bool_false a b : Qle_bool a b = false -> b < a.
Proof.
  intro H. apply Qnot_le_lt. intro Hle. apply Qle_bool_iff in Hle. congruence.
Qed.

Lemma Math_min_spec a b :
  (a <= b /\ Math_min a b = a) \/ (b < a /\ Math_min a b = b).
Proof.
  unfold Math_min. destruct (Qle_bool a b) eqn:E.
  - left. split; [now apply Qle_bool_iff|reflexivity].
  - right. split; [now apply Qle_bool_false|reflexivity].
Qed.

Lemma Math_max_spec a b :
  (a <= b /\ Math_max a b = b) \/ (b < a /\ Math_max a b = a).
Proof.
  unfold Math_max. destruct (Qle_bool a b) eqn:E.
  - left. split; [now apply Qle_bool_iff|reflexivity].
  - right. split; [now apply Qle_bool_false|reflexivity].
Qed.

Lemma clamp_within value m : 0 <= m -> withinTilt m (clamp value (- m) m).
Proof.
  intro Hm. unfold withinTilt, clamp.
  destruct (Math_min_spec m value) as [[H1 E1]|[H1 E1]]; rewrite E1;
  destruct (Math_max_spec (- m) m) as [[H2 E2]|[H2 E2]];
  destruct (Math_max_spec (- m) value) as [[H3 E3]|[H3 E3]];
  rewrite ?E2, ?E3; lra.
Qed.

(** ** What the projectile loop leaves alone *)

Lemma sameOutsideLoop_refl s : sameOutsideLoop s s.
Proof. repeat split. Qed.

Lemma sameOutsideLoop_trans s1 s2 s3 :
  sameOutsideLoop s1 s2 -> sameOutsideLoop s2 s3 -> sameOutsideLoop s1 s3.
Proof.
  unfold sameOutsideLoop. intros (A & B & C & D & E & F) (A' & B' & C' & D' & E' & F').
  repeat split; congruence.
Qed.

Lemma checkTarget_outside b st it : sameOutsideLoop st (checkTarget b st it).
Proof.
  unfold checkTarget. destruct (inRange b (snd it)); repeat split.
Qed.

Lemma fold_checkTarget_outside b its :
  forall st, sameOutsideLoop st (fold_left (checkTarget b) its st).
Proof.
  induction its as [|it its IH]; intro st; simpl.
  - apply sameOutsideLoop_refl.
  - eapply sameOutsideLoop_trans; [apply checkTarget_outside|apply IH].
Qed.

Lemma bulletCallback_outside delta b st :
  sameOutsideLoop st (snd (bulletCallback delta b st)).
Proof.
  unfold bulletCallback. destruct (Qltb (Bullet.timeToLive b) 0); simpl.
  - repeat split.
  - eapply sameOutsideLoop_trans; [|apply fold_checkTarget_outside].
    repeat split.
Qed.

Lemma fold_bulletCallback_outside delta bs :
  forall st,
    sameOutsideLoop st
      (fold_left (fun s b => snd (bulletCallback delta b s)) bs st).
Proof.
  induction bs as [|b bs IH]; intro st; simpl.
  - apply sameOutsideLoop_refl.
  - eapply sameOutsideLoop_trans; [apply bulletCallback_outside|apply IH].
Qed.

Lemma stepBullets_outside delta st : sameOutsideLoop st (stepBullets delta st).
Proof. apply fold_bulletCallback_outside. Qed.

(** ** Exceptions: the frame never throws *)

Lemma onTrigger_ok inp c st : onTrigger inp c st = Ok (spawn inp st).
Proof.
  unfold onTrigger, hapticPulse. destruct (hapticActuator c); reflexivity.
Qed.

Lemma spawn_inertia inp st :
  blasterInertia (spawn inp st) = blasterInertia st /\
  liquidSphereInertia (spawn inp st) = liquidSphereInertia st /\
  targets (spawn inp st) = targets st /\
  score (spawn inp st) = score st /\
  tweens (spawn inp st) = tweens st.
Proof.
  unfold spawn. destruct (bulletPrototype inp); repeat split.
Qed.

(** The state in which the right controller's code leaves the frame. *)
Lemma rightController_ok delta inp c st :
  exists st',
    rightController delta inp c st = Ok st' /\
    blasterInertia st' =
      updateBlaster delta (raySpace_worldPosition c)
        (blasterInertia (attachBlaster c st)) /\
    liquidSphereInertia st' = liquidSphereInertia (attachBlaster c st) /\
    targets st' = targets st /\ score st' = score st /\
    tweens st' = tweens st.
Proof.
  unfold rightController.
  assert (HA : targets (attachBlaster c st) = targets st /\
               score (attachBlaster c st) = score st /\
               tweens (attachBlaster c st) = tweens st).
  { unfold attachBlaster. destruct (blasterAttached st); repeat split. }
  destruct HA as (HA1 & HA2 & HA3).
  destruct (triggerClick c).
  - rewrite onTrigger_ok. eexists; split; [reflexivity|].
    destruct (spawn_inertia inp
      (set_blasterRotation
         (BlasterInertia.tiltY (updateBlaster delta (raySpace_worldPosition c)
                                  (blasterInertia (attachBlaster c st))),
          BlasterInertia.tiltZ (updateBlaster delta (raySpace_worldPosition c)
                                  (blasterInertia (attachBlaster c st))))
         (set_blasterInertia
            (updateBlaster delta (raySpace_worldPosition c)
               (blasterInertia (attachBlaster c st)))
            (attachBlaster c st)))) as (S1 & S2 & S3 & S4 & S5).
    rewrite S1, S2, S3, S4, S5. simpl. repeat split; assumption.
  - eexists; split; [reflexivity|]. simpl. repeat split; assumption.
Qed.

Lemma attachBlaster_tilts c st :
  BlasterInertia.tiltY (blasterInertia (attachBlaster c st)) =
    BlasterInertia.tiltY (blasterInertia st) /\
  BlasterInertia.tiltZ (blasterInertia (attachBlaster c st)) =
    BlasterInertia.tiltZ (blasterInertia st).
Proof.
  unfold attachBlaster. destruct (blasterAttached st); split; reflexivity.
Qed.

Lemma beforeBullets_total delta inp st :
  exists st', beforeBullets delta inp st = Ok st'.
Proof.
  unfold beforeBullets. destruct (controllers_right inp) as [c|].
  - destruct (rightController_ok delta inp c
               (set_liquidSphereInertia
                  (updateLiquid delta (raySpace_worldPosition c)
                     (liquidSphereInertia st)) st)) as (st' & E & _).
    exists st'. exact E.
  - eexists; reflexivity.
Qed.

Lemma onFrame_total delta inp st : exists st', onFrame delta inp st = Ok st'.
Proof.
  unfold onFrame. destruct (beforeBullets_total delta inp st) as (st2 & E).
  rewrite E. simpl. eexists; reflexivity.
Qed.

Lemma onFrame_inv delta inp st st' :
  onFrame delta inp st = Ok st' ->
  exists st2, beforeBullets delta inp st = Ok st2 /\ st' = stepBullets delta st2.
Proof.
  unfold onFrame. destruct (beforeBullets delta inp st) as [st2|e]; simpl.
  - intro H. inversion H. exists st2. split; reflexivity.
  - discriminate.
Qed.

(** ** The low-pass filter of the blaster *)

Lemma beforeBullets_blaster delta inp c st st2 :
  controllers_right inp = Some c ->
  beforeBullets delta inp st = Ok st2 ->
  blasterInertia st2 =
    updateBlaster delta (raySpace_worldPosition c)
      (blasterInertia (attachBlaster c st)).
Proof.
  unfold beforeBullets. intros Hc. rewrite Hc.
  set (st1 := set_liquidSphereInertia _ st).
  destruct (rightController_ok delta inp c st1) as (st' & E & B & _).
  rewrite E. intro H. inversion H; subst st2. rewrite B.
  unfold attachBlaster, st1. simpl. destruct (blasterAttached st); reflexivity.
Qed.

Lemma beforeBullets_no_controller delta inp st st2 :
  controllers_right inp = None ->
  beforeBullets delta inp st = Ok st2 ->
  blasterInertia st2 = blasterInertia st.
Proof.
  unfold beforeBullets. intros Hc. rewrite Hc. intro H.
  inversion H. reflexivity.
Qed.

(** ** The spring filter of the liquid *)

Lemma liquidTargets_within v :
  withinTilt LiquidSphereInertia.maxTilt (liquidTargetX v) /\
  withinTilt LiquidSphereInertia.maxTilt (liquidTargetY v) /\
  withinTilt LiquidSphereInertia.maxTilt (liquidTargetZ v).
Proof.
  unfold liquidTargetX, liquidTargetY, liquidTargetZ.
  repeat split; apply clamp_within; unfold LiquidSphereInertia.maxTilt; lra.
Qed.

Lemma blasterTargets_within v :
  withinTilt BlasterInertia.maxTilt (blasterTargetTiltY v) /\
  withinTilt BlasterInertia.maxTilt (blasterTargetTiltZ v).
Proof.
  unfold blasterTargetTiltY, blasterTargetTiltZ.
  split; apply clamp_within; unfold BlasterInertia.maxTilt; lra.
Qed.

(** The liquid filter as the frame leaves it: the spring update of what the
    frame found, apart from [prevPos]. *)
Lemma beforeBullets_liquid delta inp st st2 :
  beforeBullets delta inp st = Ok st2 ->
  let refPos :=
    match controllers_right inp with
    | Some c => raySpace_worldPosition c
    | None => camera_worldPosition inp
    end in
  let l := updateLiquid delta refPos (liquidSphereInertia st) in
  LiquidSphereInertia.tiltX (liquidSphereInertia st2) = LiquidSphereInertia.tiltX l /\
  LiquidSphereInertia.tiltY (liquidSphereInertia st2) = LiquidSphereInertia.tiltY l /\
  LiquidSphereInertia.tiltZ (liquidSphereInertia st2) = LiquidSphereInertia.tiltZ l /\
  LiquidSphereInertia.velX (liquidSphereInertia st2) = LiquidSphereInertia.velX l /\
  LiquidSphereInertia.velY (liquidSphereInertia st2) = LiquidSphereInertia.velY l /\
  LiquidSphereInertia.velZ (liquidSphereInertia st2) = LiquidSphereInertia.velZ l.
Proof.
  unfold beforeBullets. destruct (controllers_right inp) as [c|]; simpl.
  - set (st1 := set_liquidSphereInertia _ st).
    destruct (rightController_ok delta inp c st1) as (st' & E & _ & L & _).
    rewrite E. intro H. inversion H; subst st2. rewrite L.
    unfold attachBlaster, st1. simpl.
    destruct (blasterAttached st); simpl; repeat split.
  - intro H. inversion H. simpl. repeat split.
Qed.

(** C2 does not hold of the spring filter: from rest, with the camera
    moved by one metre to the left in a frame of one second, every tilt
    starts at 0, inside the bounds, and [tiltY] ends at 2.16, above
    [maxTilt = 0.18]. *)
Lemma spring_tilt_leaves_bounds :
  let st := initialState vzero in
  let st' := afterFrame 1 (cameraOnly (mkVector3 (-1) 0 0)) st in
  0 <= 1 /\
  onFrame 1 (cameraOnly (mkVector3 (-1) 0 0)) st = Ok st' /\
  blasterWithin (blasterInertia st) /\
  liquidWithin (liquidSphereInertia st) /\
  LiquidSphereInertia.tiltY (liquidSphereInertia st') == 216 # 100 /\
  ~ liquidWithin (liquidSphereInertia st').
Proof.
  cbv zeta. split; [lra|]. split; [reflexivity|].
  split; [|split; [|split]].
  - repeat split; vm_compute; discriminate.
  - repeat split; vm_compute; discriminate.
  - vm_compute. reflexivity.
  - unfold liquidWithin, withinTilt. intros (_ & [_ H] & _).
    vm_compute in H. apply H. reflexivity.
Qed.

(** ** The registry and the scene as collections *)

Lemma has_uuid_own b : has_uuid (Bullet.uuid b) b = true.
Proof. unfold has_uuid. apply String.eqb_refl. Qed.

Lemma has_uuid_true u b : has_uuid u b = true <-> Bullet.uuid b = u.
Proof. unfold has_uuid. apply String.eqb_eq. Qed.

Lemma has_uuid_false u b : has_uuid u b = false <-> Bullet.uuid b <> u.
Proof. unfold has_uuid. apply String.eqb_neq. Qed.

Lemma registry_delete_app u r1 r2 :
  registry_delete u (r1 ++ r2) = registry_delete u r1 ++ registry_delete u r2.
Proof. unfold registry_delete. apply filter_app. Qed.

Lemma registry_mutate_app b r1 r2 :
  registry_mutate b (r1 ++ r2) = registry_mutate b r1 ++ registry_mutate b r2.
Proof. unfold registry_mutate. apply map_app. Qed.

Lemma registry_delete_fresh u r :
  ~ In u (registry_keys r) -> registry_delete u r = r.
Proof.
  induction r as [|x r IH]; simpl; intro H; [reflexivity|].
  destruct (has_uuid u x) eqn:E; simpl.
  - exfalso. apply H. left. now apply has_uuid_true.
  - f_equal. apply IH. intro Hin. apply H. now right.
Qed.

Lemma registry_mutate_fresh b r :
  ~ In (Bullet.uuid b) (registry_keys r) -> registry_mutate b r = r.
Proof.
  induction r as [|x r IH]; simpl; intro H; [reflexivity|].
  destruct (has_uuid (Bullet.uuid b) x) eqn:E.
  - exfalso. apply H. left. now apply has_uuid_true.
  - f_equal. apply IH. intro Hin. apply H. now right.
Qed.

Lemma registry_delete_mutate b r :
  registry_delete (Bullet.uuid b) (registry_mutate b r) =
  registry_delete (Bullet.uuid b) r.
Proof.
  induction r as [|x r IH]; simpl; [reflexivity|].
  destruct (has_uuid (Bullet.uuid b) x) eqn:E; simpl.
  - rewrite has_uuid_own. simpl. exact IH.
  - rewrite E. simpl. f_equal. exact IH.
Qed.

Lemma filter_idem {A : Type} (f : A -> bool) (l : list A) :
  filter f (filter f l) = filter f l.
Proof.
  induction l as [|x l IH]; simpl; [reflexivity|].
  destruct (f x) eqn:E; simpl; [rewrite E; f_equal|]; exact IH.
Qed.

Lemma registry_delete_idem u r :
  registry_delete u (registry_delete u r) = registry_delete u r.
Proof. apply filter_idem. Qed.

Lemma scene_remove_idem o sc :
  scene_remove o (scene_remove o sc) = scene_remove o sc.
Proof. apply filter_idem. Qed.

Lemma registry_keys_mutate b r :
  registry_keys (registry_mutate b r) = registry_keys r.
Proof.
  induction r as [|x r IH]; simpl; [reflexivity|].
  destruct (has_uuid (Bullet.uuid b) x) eqn:E; simpl; rewrite IH; f_equal.
  symmetry. now apply has_uuid_true.
Qed.

Lemma registry_keys_delete u r :
  forall v, In v (registry_keys (registry_delete u r)) <->
            In v (registry_keys r) /\ v <> u.
Proof.
  intro v. unfold registry_keys, registry_delete.
  rewrite !in_map_iff. split.
  - intros (x & Ex & Hx). apply filter_In in Hx. destruct Hx as [Hin Hne].
    apply negb_true_iff, has_uuid_false in Hne. subst v.
    split; [exists x; split; trivial|assumption].
  - intros [(x & Ex & Hin) Hne]. exists x. split; [assumption|].
    apply filter_In. split; [assumption|].
    apply negb_true_iff, has_uuid_false. congruence.
Qed.

Lemma Object3D_eqb_eq a b : Object3D_eqb a b = true <-> a = b.
Proof.
  destruct a, b; simpl; split; intro H; try discriminate; try reflexivity.
  - apply Nat.eqb_eq in H. now subst.
  - inversion H. apply Nat.eqb_refl.
  - apply String.eqb_eq in H. now subst.
  - inversion H. apply String.eqb_refl.
Qed.

Lemma scene_remove_In o sc x :
  In x (scene_remove o sc) <-> In x sc /\ x <> o.
Proof.
  unfold scene_remove. rewrite filter_In, negb_true_iff. split.
  - intros [Hin Hne]. split; [assumption|]. intro E.
    apply Object3D_eqb_eq in E. congruence.
  - intros [Hin Hne]. split; [assumption|].
    destruct (Object3D_eqb x o) eqn:E; [|reflexivity].
    apply Object3D_eqb_eq in E. contradiction.
Qed.

Lemma scene_add_In o sc x : In x (scene_add o sc) <-> In x sc \/ x = o.
Proof.
  unfold scene_add. rewrite in_app_iff, scene_remove_In. simpl. split.
  - intros [[H _]|[H|[]]]; [now left|now right].
  - intros [H|H].
    + destruct (Object3D_eqb x o) eqn:E.
      * apply Object3D_eqb_eq in E. right. left. congruence.
      * left. split; [assumption|]. intro Eq. apply Object3D_eqb_eq in Eq.
        congruence.
    + right. left. congruence.
Qed.

(** ** One projectile against the visible targets *)

Lemma fold_checkTarget_summary b its :
  forall st,
    let st' := fold_left (checkTarget b) its st in
    score st' = (score st + 10 * Z.of_nat (List.length (hitsOf b its)))%Z /\
    tweens st' = tweens st ++ map (fun it => Shrink (fst it)) (hitsOf b its) /\
    bullets st' =
      match hitsOf b its with
      | [] => bullets st
      | _ :: _ => registry_delete (Bullet.uuid b) (bullets st)
      end /\
    scene st' =
      match hitsOf b its with
      | [] => scene st
      | _ :: _ => scene_remove (ObjBullet (Bullet.uuid b)) (scene st)
      end /\
    scoreText st' =
      match hitsOf b its with
      | [] => scoreText st
      | _ :: _ => displayScore (score st')
      end.
Proof.
  induction its as [|it its IH]; intro st; cbn zeta.
  - simpl. rewrite Z.add_0_r, app_nil_r. repeat split.
  - simpl fold_left. unfold hitsOf in *. simpl filter.
    assert (HC : checkTarget b st it =
                 if inRange b (snd it) then onHit b (fst it) st else st)
      by reflexivity.
    rewrite HC. clear HC.
    destruct (inRange b (snd it)) eqn:E.
    + specialize (IH (onHit b (fst it) st)). cbn zeta in IH.
      destruct IH as (S & T & B & C & X).
      rewrite S, T. split; [|split; [|split; [|split]]].
      * simpl score. simpl List.length. lia.
      * simpl tweens. rewrite <- app_assoc. reflexivity.
      * rewrite B. simpl bullets.
        destruct (filter _ its); [reflexivity|apply registry_delete_idem].
      * rewrite C. simpl scene.
        destruct (filter _ its); [reflexivity|apply scene_remove_idem].
      * rewrite X. destruct (filter _ its) eqn:F; [|rewrite S; reflexivity].
        simpl. rewrite Z.add_0_r. reflexivity.
    + apply IH.
Qed.

(** What one call of the outer callback does to the state. *)
Lemma bulletCallback_summary delta b st :
  let st' := snd (bulletCallback delta b st) in
  let u := Bullet.uuid b in
  score st' =
    (score st + 10 * Z.of_nat (List.length (collisions delta (targets st) b)))%Z /\
  tweens st' = tweens st ++ shrinkRequests delta (targets st) b /\
  bullets st' =
    (if survives delta (targets st) b
     then registry_mutate (advance delta b) (bullets st)
     else registry_delete u (bullets st)) /\
  scene st' =
    (if survives delta (targets st) b
     then scene st
     else scene_remove (ObjBullet u) (scene st)).
Proof.
  cbn zeta. unfold bulletCallback, survives, shrinkRequests, collisions.
  destruct (Qltb (Bullet.timeToLive b) 0) eqn:E; simpl.
  - rewrite Z.add_0_r, app_nil_r. repeat split.
  - pose proof (fold_checkTarget_summary (advance delta b)
                  (visibleTargets (targets st))
                  (set_bullets (registry_mutate (advance delta b) (bullets st)) st))
      as H.
    cbn zeta in H. destruct H as (S & T & B & C & _).
    simpl in S, T, B, C. rewrite S, T, B, C.
    repeat split;
      destruct (hitsOf (advance delta b) (visibleTargets (targets st)));
      try reflexivity.
    apply (registry_delete_mutate (advance delta b)).
Qed.

(** ** The whole projectile loop *)

Lemma stepBullets_loopOver delta st :
  stepBullets delta st = loopOver delta (bullets st) st.
Proof. reflexivity. Qed.

Lemma loopOver_targets delta bs st : targets (loopOver delta bs st) = targets st.
Proof. apply (fold_bulletCallback_outside delta bs st). Qed.

Lemma loopOver_score_tweens delta bs :
  forall st,
    score (loopOver delta bs st) =
      (score st +
       10 * Z.of_nat (List.length (flat_map (collisions delta (targets st)) bs)))%Z /\
    tweens (loopOver delta bs st) =
      tweens st ++ flat_map (shrinkRequests delta (targets st)) bs.
Proof.
  induction bs as [|b bs IH]; intro st.
  - simpl. rewrite Z.add_0_r, app_nil_r. split; reflexivity.
  - change (loopOver delta (b :: bs) st)
      with (loopOver delta bs (snd (bulletCallback delta b st))).
    destruct (IH (snd (bulletCallback delta b st))) as [S T].
    destruct (bulletCallback_summary delta b st) as (S1 & T1 & _).
    destruct (bulletCallback_outside delta b st) as (ET & _).
    rewrite S, T, ET, S1, T1. simpl flat_map.
    rewrite length_app, <- app_assoc. split; [lia|reflexivity].
Qed.

Lemma loopOver_scene delta bs :
  forall st,
    scene (loopOver delta bs st) = sceneAfter delta (targets st) bs (scene st).
Proof.
  induction bs as [|b bs IH]; intro st; [reflexivity|].
  change (loopOver delta (b :: bs) st)
    with (loopOver delta bs (snd (bulletCallback delta b st))).
  rewrite IH.
  destruct (bulletCallback_summary delta b st) as (_ & _ & _ & C).
  destruct (bulletCallback_outside delta b st) as (ET & _).
  rewrite ET, C. reflexivity.
Qed.

Lemma sceneAfter_In delta ts bs :
  forall sc o,
    In o (sceneAfter delta ts bs sc) <->
    In o sc /\
    forall b, In b bs -> survives delta ts b = false ->
              o <> ObjBullet (Bullet.uuid b).
Proof.
  induction bs as [|b bs IH]; intros sc o; simpl.
  - split; [intro H; split; [assumption|intros b []]|intros [H _]; exact H].
  - unfold sceneAfter in *. rewrite IH. clear IH.
    destruct (survives delta ts b) eqn:E.
    + split; intros [H1 H2]; split; try assumption.
      * intros x [->|Hx] Hs; [congruence|now apply H2].
      * intros x Hx. apply H2. now right.
    + rewrite scene_remove_In. split.
      * intros [[H1 Hne] H2]. split; [assumption|].
        intros x [<-|Hx] Hs; [assumption|now apply H2].
      * intros [H1 H2]. split; [split; [assumption|]|].
        -- apply (H2 b); [now left|assumption].
        -- intros x Hx. apply H2. now right.
Qed.

(** The registry after the loop, when it holds one object per uuid: the
    survivors, advanced, in their order. *)
Lemma loopOver_registry delta ts todo :
  forall done st,
    bullets st = done ++ todo ->
    targets st = ts ->
    NoDup (registry_keys (done ++ todo)) ->
    bullets (loopOver delta todo st) =
      done ++ map (advance delta) (filter (survives delta ts) todo).
Proof.
  induction todo as [|b todo IH]; intros done st HB HT HN.
  - simpl. rewrite HB. reflexivity.
  - change (loopOver delta (b :: todo) st)
      with (loopOver delta todo (snd (bulletCallback delta b st))).
    destruct (bulletCallback_summary delta b st) as (_ & _ & B & _).
    destruct (bulletCallback_outside delta b st) as (ET & _).
    unfold registry_keys in HN. rewrite map_app in HN. simpl in HN.
    pose proof (NoDup_remove_1 _ _ _ HN) as HN1.
    pose proof (NoDup_remove_2 _ _ _ HN) as HN2.
    assert (Hd : ~ In (Bullet.uuid b) (registry_keys done))
      by (intro H; apply HN2; apply in_or_app; now left).
    assert (Ht : ~ In (Bullet.uuid b) (registry_keys todo))
      by (intro H; apply HN2; apply in_or_app; now right).
    rewrite HT, HB in B. simpl filter.
    destruct (survives delta ts b) eqn:E.
    + rewrite registry_mutate_app in B. simpl in B.
      rewrite has_uuid_own in B.
      rewrite (registry_mutate_fresh (advance delta b) done) in B by exact Hd.
      rewrite (registry_mutate_fresh (advance delta b) todo) in B by exact Ht.
      rewrite (IH (done ++ [advance delta b]) (snd (bulletCallback delta b st))).
      * rewrite <- app_assoc. reflexivity.
      * rewrite B, <- app_assoc. reflexivity.
      * congruence.
      * unfold registry_keys. rewrite <- app_assoc, map_app. simpl. exact HN.
    + rewrite registry_delete_app in B. simpl in B.
      rewrite has_uuid_own in B. simpl in B.
      rewrite (registry_delete_fresh _ done) in B by exact Hd.
      rewrite (registry_delete_fresh _ todo) in B by exact Ht.
      apply (IH done (snd (bulletCallback delta b st))).
      * exact B.
      * congruence.
      * unfold registry_keys. rewrite map_app. exact HN1.
Qed.

Lemma stepBullets_registry delta st :
  uniqueKeys st ->
  bullets (stepBullets delta st) =
    map (advance delta) (filter (survives delta (targets st)) (bullets st)).
Proof.
  intro HN. rewrite stepBullets_loopOver.
  apply (loopOver_registry delta (targets st) (bullets st) [] st);
    [reflexivity|reflexivity|exact HN].
Qed.

Lemma registry_keys_survivors delta ts bs :
  registry_keys (map (advance delta) (filter (survives delta ts) bs)) =
  registry_keys (filter (survives delta ts) bs).
Proof. unfold registry_keys. rewrite map_map. reflexivity. Qed.

Lemma NoDup_keys_filter (f : Bullet.t -> bool) bs :
  NoDup (registry_keys bs) -> NoDup (registry_keys (filter f bs)).
Proof.
  induction bs as [|b bs IH]; simpl; intro H; [constructor|].
  inversion H as [|? ? Hn Hr]; subst.
  destruct (f b); simpl; [constructor|]; auto.
  intro Hin. apply Hn. unfold registry_keys in *.
  apply in_map_iff in Hin. destruct Hin as (x & Ex & Hx).
  apply filter_In in Hx. apply in_map_iff. exists x. tauto.
Qed.

Lemma stepBullets_uniqueKeys delta st :
  uniqueKeys st -> uniqueKeys (stepBullets delta st).
Proof.
  intro H. unfold uniqueKeys. rewrite (stepBullets_registry delta st H).
  rewrite registry_keys_survivors. now apply NoDup_keys_filter.
Qed.

(** ** Invariants of the reachable states *)

Lemma unique_key_same_object bs b1 b2 :
  NoDup (registry_keys bs) -> In b1 bs -> In b2 bs ->
  Bullet.uuid b1 = Bullet.uuid b2 -> b1 = b2.
Proof.
  induction bs as [|x bs IH]; simpl; intros HN H1 H2 E; [contradiction|].
  inversion HN as [|? ? Hn Hr]; subst.
  destruct H1 as [->|H1], H2 as [->|H2]; trivial.
  - exfalso. apply Hn. rewrite E. now apply in_map.
  - exfalso. apply Hn. rewrite <- E. now apply in_map.
  - now apply IH.
Qed.

Lemma registry_keys_set b r :
  forall v, In v (registry_keys (registry_set b r)) <->
            In v (registry_keys r) \/ v = Bullet.uuid b.
Proof.
  intro v. unfold registry_set.
  destruct (existsb (has_uuid (Bullet.uuid b)) r) eqn:E.
  - rewrite registry_keys_mutate. split; [now left|].
    intros [H| ->]; [assumption|].
    apply existsb_exists in E. destruct E as (x & Hin & Hx).
    apply has_uuid_true in Hx. rewrite <- Hx. now apply in_map.
  - unfold registry_keys. rewrite map_app, in_app_iff. simpl.
    split.
    + intros [H|[H|[]]]; [now left|right; congruence].
    + intros [H|H]; [now left|right; left; congruence].
Qed.

Lemma registry_set_unique b r :
  NoDup (registry_keys r) -> NoDup (registry_keys (registry_set b r)).
Proof.
  intro HN. unfold registry_set.
  destruct (existsb (has_uuid (Bullet.uuid b)) r) eqn:E.
  - now rewrite registry_keys_mutate.
  - unfold registry_keys. rewrite map_app. simpl.
    apply NoDup_app; [exact HN|repeat constructor; intros []| ].
    intros a Ha [<-|[]].
    assert (Hex : existsb (has_uuid (Bullet.uuid b)) r = true);
      [|congruence].
    apply in_map_iff in Ha. destruct Ha as (x & Ex & Hx).
    apply existsb_exists. exists x. split; [assumption|].
    now apply has_uuid_true.
Qed.

Lemma spawn_wellFormed inp st : wellFormed st -> wellFormed (spawn inp st).
Proof.
  intros [HU HS]. unfold spawn. destruct (bulletPrototype inp) as [p|];
    [|split; assumption].
  unfold spawnBullet. split.
  - unfold uniqueKeys. simpl. now apply registry_set_unique.
  - intro u. simpl. rewrite registry_keys_set, scene_add_In, (HS u).
    simpl. split; intros [H|H]; auto; right; congruence.
Qed.

Lemma attachBlaster_registry c st :
  bullets (attachBlaster c st) = bullets st /\
  scene (attachBlaster c st) = scene st.
Proof.
  unfold attachBlaster. destruct (blasterAttached st); split; reflexivity.
Qed.

Lemma wellFormed_ext st st' :
  bullets st' = bullets st -> scene st' = scene st ->
  wellFormed st -> wellFormed st'.
Proof.
  unfold wellFormed, uniqueKeys, registryInScene. intros -> ->. trivial.
Qed.

Lemma beforeBullets_wellFormed delta inp st st2 :
  beforeBullets delta inp st = Ok st2 -> wellFormed st -> wellFormed st2.
Proof.
  unfold beforeBullets. intros H HW.
  destruct (controllers_right inp) as [c|].
  - unfold rightController in H.
    set (st1 := set_liquidSphereInertia _ st) in *.
    destruct (attachBlaster_registry c st1) as [EB ES].
    set (stR := set_blasterRotation _ _) in *.
    assert (HR : wellFormed stR).
    { apply (wellFormed_ext st); [| |exact HW].
      - unfold stR. simpl. rewrite EB. reflexivity.
      - unfold stR. simpl. rewrite ES. reflexivity. }
    destruct (triggerClick c).
    + rewrite onTrigger_ok in H. inversion H. now apply spawn_wellFormed.
    + inversion H. subst. exact HR.
  - inversion H. apply (wellFormed_ext st); [reflexivity|reflexivity|exact HW].
Qed.

Lemma stepBullets_wellFormed delta st :
  wellFormed st -> wellFormed (stepBullets delta st).
Proof.
  intros [HU HS]. split; [now apply stepBullets_uniqueKeys|].
  intro u. rewrite (stepBullets_registry delta st HU).
  rewrite registry_keys_survivors, stepBullets_loopOver, loopOver_scene.
  rewrite sceneAfter_In. unfold registry_keys. rewrite in_map_iff. split.
  - intros (b & <- & Hb). apply filter_In in Hb. destruct Hb as [Hin Hsv].
    split.
    + apply HS. now apply in_map.
    + intros b2 Hin2 Hs2 E. inversion E as [Eu].
      rewrite (unique_key_same_object _ _ _ HU Hin Hin2 Eu) in Hsv. congruence.
  - intros [Hin Hall]. apply HS in Hin. unfold registry_keys in Hin.
    apply in_map_iff in Hin. destruct Hin as (b & <- & Hb).
    exists b. split; [reflexivity|]. apply filter_In. split; [assumption|].
    destruct (survives delta (targets st) b) eqn:E; [reflexivity|].
    exfalso. now apply (Hall b Hb E).
Qed.

Lemma addTarget_registry st ir :
  bullets (addTarget st ir) = bullets st /\
  (forall u, In (ObjBullet u) (scene (addTarget st ir)) <->
             In (ObjBullet u) (scene st)) /\
  score (addTarget st ir) = score st.
Proof.
  destruct ir as [i [rx rz]]. simpl. repeat split.
  - rewrite scene_add_In. intros [H|H]; [assumption|discriminate].
  - intro H. apply scene_add_In. now left.
Qed.

Lemma applyEvent_wellFormed e st st' :
  applyEvent e st = Some st' -> wellFormed st -> wellFormed st'.
Proof.
  destruct e as [delta inp|r0 r1 r2| |tw s|i|i rx rz|i];
    unfold applyEvent; intros H HW.
  - destruct (onFrame delta inp st) as [s|] eqn:E; [|discriminate].
    inversion H; subst s.
    destruct (onFrame_inv _ _ _ _ E) as (st2 & Hb & ->).
    apply stepBullets_wellFormed. eapply beforeBullets_wellFormed; eauto.
  - destruct (targets st); [|discriminate].
    destruct (isRandomPair r0 && isRandomPair r1 && isRandomPair r2);
      [|discriminate].
    assert (E : st' = addTarget (addTarget (addTarget st (0%nat, r0))
                                   (1%nat, r1)) (2%nat, r2))
      by (inversion H; reflexivity).
    clear H. subst st'.
    destruct HW as [HU HS].
    destruct (addTarget_registry st (0%nat, r0)) as (B0 & S0 & _).
    destruct (addTarget_registry (addTarget st (0%nat, r0)) (1%nat, r1))
      as (B1 & S1 & _).
    destruct (addTarget_registry
                (addTarget (addTarget st (0%nat, r0)) (1%nat, r1)) (2%nat, r2))
      as (B2 & S2 & _).
    split.
    + unfold uniqueKeys. rewrite B2, B1, B0. exact HU.
    + intro u. rewrite B2, B1, B0, S2, S1, S0. apply HS.
  - inversion H. destruct HW as [HU HS]. split; [exact HU|].
    intro u. simpl. rewrite scene_add_In, (HS u).
    split; [now left|intros [K|K]; [assumption|discriminate]].
  - destruct (existsb (Tween_eqb tw) (tweens st)); [|discriminate].
    inversion H. apply (wellFormed_ext st); trivial.
  - destruct (existsb (Tween_eqb (Shrink i)) (tweens st)); [|discriminate].
    inversion H. apply (wellFormed_ext st); trivial.
  - destruct (existsb (Nat.eqb i) (timers st) && isRandom rx && isRandom rz);
      [|discriminate].
    inversion H. apply (wellFormed_ext st); trivial.
  - destruct (existsb (Tween_eqb (Grow i)) (tweens st)); [|discriminate].
    inversion H. apply (wellFormed_ext st); trivial.
Qed.

Lemma run_wellFormed es :
  forall st st', run es st = Some st' -> wellFormed st -> wellFormed st'.
Proof.
  induction es as [|e es IH]; simpl; intros st st' H HW.
  - inversion H. now subst.
  - destruct (applyEvent e st) as [s|] eqn:E; [|discriminate].
    apply (IH s st' H). eapply applyEvent_wellFormed; eauto.
Qed.

Lemma initialState_wellFormed c : wellFormed (initialState c).
Proof.
  split.
  - constructor.
  - intro u. simpl. split; [intros []|intros [H|[]]; discriminate].
Qed.

Lemma reachable_wellFormed st : reachable st -> wellFormed st.
Proof.
  intros (c & es & H).
  apply (run_wellFormed es _ _ H (initialState_wellFormed c)).
Qed.

(** ** The score display *)

Lemma displayScore_below_10000 :
  forallb
    (fun n => String.eqb (displayScore (Z.of_nat n)) (fourDigits (Z.of_nat n)))
    (seq 0 (Z.to_nat 10000)) = true.
Proof. vm_compute. reflexivity. Qed.

Lemma displayScore_in_range c :
  (0 <= c <= 9999)%Z -> displayScore c = fourDigits c.
Proof.
  intro H. pose proof displayScore_below_10000 as A.
  rewrite forallb_forall in A.
  specialize (A (Z.to_nat c)). rewrite Z2Nat.id in A by lia.
  apply String.eqb_eq, A, in_seq. lia.
Qed.

Lemma displayScore_clamp s : displayScore s = displayScore (clampScore s).
Proof.
  unfold displayScore, clampScore.
  destruct (Z.ltb_spec s 0); [|destruct (Z.ltb_spec 9999 s)];
    f_equal; f_equal; lia.
Qed.

(** C6.  Whatever integer the stored score is, the text written by
    [updateScoreDisplay] is the score clamped to 0..9999, in decimal, padded
    with zeros on the left to four characters; -5 shows as 0000 and 15000 as
    9999.  The stored score is not clamped: [updateScoreDisplay] leaves it as
    it is, and a hit adds 10 to it whatever its value. *)
Theorem score_display_clamped_and_padded :
  forall (st : State) (b : Bullet.t) (i : nat),
    scoreText (updateScoreDisplay st) = fourDigits (clampScore (score st)) /\
    String.length (scoreText (updateScoreDisplay st)) = 4%nat /\
    score (updateScoreDisplay st) = score st /\
    score (onHit b i st) = (score st + 10)%Z /\
    displayScore (-5) = "0000"%string /\
    displayScore 15000 = "9999"%string.
Proof.
  intros st b i.
  assert (E : scoreText (updateScoreDisplay st) =
              fourDigits (clampScore (score st))).
  { simpl. rewrite displayScore_clamp. apply displayScore_in_range.
    unfold clampScore.
    destruct (Z.ltb_spec (score st) 0); [|destruct (Z.ltb_spec 9999 (score st))];
      lia. }
  split; [exact E|]. split; [rewrite E; reflexivity|].
  repeat split.
Qed.

(** ** Spawning *)

(** C8.  When the trigger is clicked and the blaster has no object named
    bullet, the spawn does nothing: the state, with its registry and its
    scene, is the one before, no exception leaves the trigger code even when
    the haptic call throws, and the whole frame ends as the frame with the
    trigger at rest would. *)
Theorem spawn_without_prototype_is_noop :
  forall delta inp c st,
    controllers_right inp = Some c ->
    triggerClick c = true ->
    bulletPrototype inp = None ->
    spawn inp st = st /\
    onTrigger inp c st = Ok st /\
    onFrame delta inp st = onFrame delta (releaseTrigger inp) st /\
    exists st', onFrame delta inp st = Ok st'.
Proof.
  intros delta inp c st Hc Ht Hp.
  assert (Hs : forall s, spawn inp s = s)
    by (intro s; unfold spawn; rewrite Hp; reflexivity).
  split; [apply Hs|]. split; [rewrite onTrigger_ok, Hs; reflexivity|].
  split; [|apply onFrame_total].
  unfold onFrame, beforeBullets, releaseTrigger. simpl. rewrite Hc.
  unfold rightController. simpl. rewrite Ht, onTrigger_ok, Hs. reflexivity.
Qed.

Lemma spawn_without_prototype_is_noop_witness :
  let inp := withController (mkVector3 0 1 0) true false false "b1" in
  spawn inp (initialState vzero) = initialState vzero /\
  onFrame (1 # 60) inp (initialState vzero) =
    onFrame (1 # 60) (releaseTrigger inp) (initialState vzero).
Proof.
  pose proof (spawn_without_prototype_is_noop (1 # 60)
    (withController (mkVector3 0 1 0) true false false "b1")
    (mkController (mkVector3 0 1 0) true false) (initialState vzero)
    eq_refl eq_refl eq_refl) as (H1 & _ & H3 & _).
  split; [exact H1|exact H3].
Defined.

(** ** The stored score *)

Lemma beforeBullets_score delta inp st st2 :
  beforeBullets delta inp st = Ok st2 ->
  score st2 = score st /\ targets st2 = targets st /\ tweens st2 = tweens st.
Proof.
  unfold beforeBullets. destruct (controllers_right inp) as [c|].
  - set (st1 := set_liquidSphereInertia _ st).
    destruct (rightController_ok delta inp c st1) as (st' & E & _ & _ & T & S & W).
    rewrite E. intro H. inversion H; subst st2. rewrite T, S, W.
    repeat split.
  - intro H. inversion H. repeat split.
Qed.

(** The score a frame leaves: ten more for each collision in that frame. *)
Lemma onFrame_score delta inp st st' :
  onFrame delta inp st = Ok st' ->
  exists st2,
    beforeBullets delta inp st = Ok st2 /\
    score st' =
      (score st +
       10 * Z.of_nat
              (List.length
                 (flat_map (collisions delta (targets st2)) (bullets st2))))%Z.
Proof.
  intro H. destruct (onFrame_inv _ _ _ _ H) as (st2 & Hb & ->).
  exists st2. split; [exact Hb|].
  destruct (beforeBullets_score _ _ _ _ Hb) as (S & _).
  rewrite stepBullets_loopOver.
  destruct (loopOver_score_tweens delta (bullets st2) st2) as [E _].
  rewrite E, S. reflexivity.
Qed.

Lemma applyEvent_score e st st' :
  applyEvent e st = Some st' ->
  exists k : nat,
    score st' = (score st + 10 * Z.of_nat k)%Z /\
    (isFrame e = false -> k = 0%nat).
Proof.
  destruct e as [delta inp|r0 r1 r2| |tw s|i|i rx rz|i];
    unfold applyEvent; intro H.
  - destruct (onFrame delta inp st) as [s|] eqn:E; [|discriminate].
    inversion H; subst s.
    destruct (onFrame_score _ _ _ _ E) as (st2 & _ & S).
    eexists. split; [exact S|discriminate].
  - destruct (targets st); [|discriminate].
    destruct (isRandomPair r0 && isRandomPair r1 && isRandomPair r2);
      [|discriminate].
    assert (E : st' = addTarget (addTarget (addTarget st (0%nat, r0))
                                   (1%nat, r1)) (2%nat, r2))
      by (inversion H; reflexivity).
    clear H. subst st'. exists 0%nat. split; [|reflexivity].
    destruct (addTarget_registry st (0%nat, r0)) as (_ & _ & S0).
    destruct (addTarget_registry (addTarget st (0%nat, r0)) (1%nat, r1))
      as (_ & _ & S1).
    destruct (addTarget_registry
                (addTarget (addTarget st (0%nat, r0)) (1%nat, r1)) (2%nat, r2))
      as (_ & _ & S2).
    rewrite S2, S1, S0. lia.
  - inversion H. exists 0%nat. simpl. split; [lia|reflexivity].
  - destruct (existsb (Tween_eqb tw) (tweens st)); [|discriminate].
    inversion H. exists 0%nat. simpl. split; [lia|reflexivity].
  - destruct (existsb (Tween_eqb (Shrink i)) (tweens st)); [|discriminate].
    inversion H. exists 0%nat. simpl. split; [lia|reflexivity].
  - destruct (existsb (Nat.eqb i) (timers st) && isRandom rx && isRandom rz);
      [|discriminate].
    inversion H. exists 0%nat. simpl. split; [lia|reflexivity].
  - destruct (existsb (Tween_eqb (Grow i)) (tweens st)); [|discriminate].
    inversion H. exists 0%nat. simpl. split; [lia|reflexivity].
Qed.

Lemma run_score es :
  forall st st',
    run es st = Some st' ->
    exists k : nat, score st' = (score st + 10 * Z.of_nat k)%Z.
Proof.
  induction es as [|e es IH]; intros st st' H; cbn [run] in H.
  - inversion H. exists 0%nat. lia.
  - destruct (applyEvent e st) as [s|] eqn:E; [|discriminate].
    destruct (applyEvent_score _ _ _ E) as (k1 & S1 & _).
    destruct (IH _ _ H) as (k2 & S2).
    exists (k1 + k2)%nat. lia.
Qed.

(** C9.  The score is 0 when the scene is set up.  In every state the game
    reaches it is ten times a natural number.  An event other than a frame
    leaves it as it is; a frame adds ten for each collision of that frame
    and nothing else, so the score never decreases. *)
Theorem score_is_multiple_of_ten_and_monotone :
  forall st,
    reachable st ->
    (forall cameraPos, score (initialState cameraPos) = 0%Z) /\
    (exists n : nat, score st = (10 * Z.of_nat n)%Z) /\
    (forall e st',
       applyEvent e st = Some st' ->
       (score st <= score st')%Z /\
       (isFrame e = false -> score st' = score st)) /\
    (forall delta inp st',
       onFrame delta inp st = Ok st' ->
       exists st2,
         beforeBullets delta inp st = Ok st2 /\
         score st' =
           (score st +
            10 * Z.of_nat
                   (List.length
                      (flat_map (collisions delta (targets st2))
                         (bullets st2))))%Z).
Proof.
  intros st (c & es & Hrun). split; [reflexivity|]. split; [|split].
  - destruct (run_score es _ _ Hrun) as (k & S). exists k. rewrite S.
    change (score (initialState c)) with 0%Z. lia.
  - intros e st' He. destruct (applyEvent_score _ _ _ He) as (k & S & K).
    split; [lia|]. intro Hf. rewrite S, (K Hf). lia.
  - intros delta inp st' Hf. now apply onFrame_score.
Qed.

(** ** The layout of the targets *)

Lemma nth_error_update_nth {A : Type} (f : A -> A) (l : list A) :
  forall j i,
    nth_error (update_nth j f l) i =
    if Nat.eqb i j then option_map f (nth_error l i) else nth_error l i.
Proof.
  induction l as [|x l IH]; intros j i.
  - destruct j, i; simpl; try reflexivity.
    destruct (Nat.eqb i j); reflexivity.
  - destruct j, i; simpl; try reflexivity. apply IH.
Qed.

Lemma update_nth_laidOut j f st :
  (forall t, vy (Target.position (f t)) = vy (Target.position t)) ->
  targetsLaidOut st ->
  forall i t,
    nth_error (update_nth j f (targets st)) i = Some t ->
    vy (Target.position t) = inject_Z (Z.of_nat i) * 2 + 1.
Proof.
  intros Hf HL i t. rewrite nth_error_update_nth.
  destruct (Nat.eqb i j); [|apply HL].
  destruct (nth_error (targets st) i) as [t0|] eqn:E; simpl; [|discriminate].
  intro H. inversion H. rewrite Hf. now apply HL.
Qed.

Lemma applyEvent_laidOut e st st' :
  applyEvent e st = Some st' -> targetsLaidOut st -> targetsLaidOut st'.
Proof.
  destruct e as [delta inp|r0 r1 r2| |tw s|i|i rx rz|i];
    unfold applyEvent; intros H HL.
  - destruct (onFrame delta inp st) as [s|] eqn:E; [|discriminate].
    inversion H; subst s.
    destruct (onFrame_inv _ _ _ _ E) as (st2 & Hb & ->).
    destruct (beforeBullets_score _ _ _ _ Hb) as (_ & T & _).
    destruct (stepBullets_outside delta st2) as (T2 & _).
    unfold targetsLaidOut. rewrite T2, T. exact HL.
  - destruct (targets st) eqn:ET; [|discriminate].
    destruct (isRandomPair r0 && isRandomPair r1 && isRandomPair r2);
      [|discriminate].
    inversion H. clear H. destruct r0, r1, r2.
    unfold targetsLaidOut. simpl. rewrite ET. simpl.
    intros [|[|[|[|i]]]] t E; simpl in E; inversion E; reflexivity.
  - inversion H. exact HL.
  - destruct (existsb (Tween_eqb tw) (tweens st)); [|discriminate].
    inversion H. unfold targetsLaidOut. simpl.
    apply update_nth_laidOut; [reflexivity|exact HL].
  - destruct (existsb (Tween_eqb (Shrink i)) (tweens st)); [|discriminate].
    inversion H. unfold targetsLaidOut. simpl.
    apply update_nth_laidOut; [reflexivity|exact HL].
  - destruct (existsb (Nat.eqb i) (timers st) && isRandom rx && isRandom rz);
      [|discriminate].
    inversion H. unfold targetsLaidOut. simpl.
    apply update_nth_laidOut; [reflexivity|exact HL].
  - destruct (existsb (Tween_eqb (Grow i)) (tweens st)); [|discriminate].
    inversion H. unfold targetsLaidOut. simpl.
    apply update_nth_laidOut; [reflexivity|exact HL].
Qed.

Lemma reachable_laidOut st : reachable st -> targetsLaidOut st.
Proof.
  intros (c & es & H).
  assert (G : forall es s s', run es s = Some s' ->
                              targetsLaidOut s -> targetsLaidOut s').
  { clear. induction es as [|e es IH]; intros s s' H HL; cbn [run] in H.
    - inversion H. now subst.
    - destruct (applyEvent e s) as [s1|] eqn:E; [|discriminate].
      apply (IH _ _ H). eapply applyEvent_laidOut; eauto. }
  apply (G es _ _ H). intros i t E. destruct i; discriminate.
Qed.

Lemma indexed_from_In (ts : list Target.t) :
  forall k i t,
    In (i, t) (combine (seq k (List.length ts)) ts) ->
    (k <= i)%nat /\ nth_error ts (i - k) = Some t.
Proof.
  induction ts as [|x ts IH]; intros k i t H; simpl in H; [contradiction|].
  destruct H as [H|H].
  - inversion H. subst. split; [lia|]. rewrite Nat.sub_diag. reflexivity.
  - apply IH in H. destruct H as [Hk Hn]. split; [lia|].
    replace (i - k)%nat with (S (i - S k)) by lia. exact Hn.
Qed.

Lemma indexed_In ts i t : In (i, t) (indexed ts) -> nth_error ts i = Some t.
Proof.
  intro H. apply indexed_from_In in H. destruct H as [_ H].
  now rewrite Nat.sub_0_r in H.
Qed.

Lemma indexed_from_nth (ts : list Target.t) :
  forall k i t,
    nth_error ts i = Some t ->
    In ((k + i)%nat, t) (combine (seq k (List.length ts)) ts).
Proof.
  induction ts as [|x ts IH]; intros k i t H; [destruct i; discriminate|].
  destruct i; simpl in *.
  - inversion H. left. f_equal. lia.
  - right. replace (k + S i)%nat with (S k + i)%nat by lia. now apply IH.
Qed.

Lemma indexed_nth ts i t : nth_error ts i = Some t -> In (i, t) (indexed ts).
Proof. intro H. apply (indexed_from_nth ts 0 i t H). Qed.

Lemma visibleTargets_In ts i t :
  In (i, t) (visibleTargets ts) <->
  nth_error ts i = Some t /\ Target.visible t = true.
Proof.
  unfold visibleTargets. rewrite filter_In. simpl. split.
  - intros [H V]. split; [now apply indexed_In|exact V].
  - intros [H V]. split; [now apply indexed_nth|exact V].
Qed.

Lemma indexed_keys ts : map fst (indexed ts) = seq 0 (List.length ts).
Proof.
  unfold indexed. generalize 0%nat.
  induction ts as [|x ts IH]; intro k; simpl; [reflexivity|].
  f_equal. apply IH.
Qed.

Lemma filter_at_most_one {A : Type} (f : nat * A -> bool) (l : list (nat * A)) :
  NoDup (map fst l) ->
  (forall x y, In x l -> In y l -> f x = true -> f y = true -> fst x = fst y) ->
  (List.length (filter f l) <= 1)%nat.
Proof.
  induction l as [|x l IH]; simpl; intros HN HF; [lia|].
  inversion HN as [|? ? Hn Hr]; subst.
  assert (IH' : (List.length (filter f l) <= 1)%nat)
    by (apply IH; [assumption|intros; apply HF; auto]).
  destruct (f x) eqn:E; [|exact IH'].
  destruct (filter f l) as [|y r] eqn:F; simpl; [lia|].
  exfalso. apply Hn.
  assert (Hy : In y (filter f l)) by (rewrite F; now left).
  apply filter_In in Hy. destruct Hy as [Hin Hfy].
  rewrite (HF x y); [now apply in_map| now left | now right | assumption
                    | assumption].
Qed.

Lemma square_below_one a : a * a < 1 -> -1 < a /\ a < 1.
Proof. intro H. split; nra. Qed.

Lemma inRange_heights b t :
  inRange b t = true ->
  -1 < vy (Target.position t) - vy (Bullet.position b) /\
  vy (Target.position t) - vy (Bullet.position b) < 1.
Proof.
  unfold inRange, distanceToSquared. intro H. apply Qltb_lt in H.
  apply square_below_one.
  set (dx := vx (Target.position t) - vx (Bullet.position b)) in *.
  set (dy := vy (Target.position t) - vy (Bullet.position b)) in *.
  set (dz := vz (Target.position t) - vz (Bullet.position b)) in *.
  assert (0 <= dx * dx) by nra. assert (0 <= dz * dz) by nra. lra.
Qed.

Lemma heights_apart (i j : nat) (y : Q) :
  -1 < inject_Z (Z.of_nat i) * 2 + 1 - y ->
  inject_Z (Z.of_nat i) * 2 + 1 - y < 1 ->
  -1 < inject_Z (Z.of_nat j) * 2 + 1 - y ->
  inject_Z (Z.of_nat j) * 2 + 1 - y < 1 ->
  i = j.
Proof.
  intros A1 A2 B1 B2.
  assert (L : forall a b : Z,
             inject_Z a * 2 - inject_Z b * 2 < 2 -> (a <= b)%Z).
  { intros a b H. apply Z.nlt_ge. intro Hlt.
    assert (Hle : (b + 1 <= a)%Z) by lia.
    rewrite Zle_Qle, inject_Z_plus in Hle.
    change (inject_Z 1) with 1 in Hle. lra. }
  apply Nat2Z.inj. apply Z.le_antisymm; apply L; lra.
Qed.

(** With the targets at the heights the loader gives them, two metres apart,
    no projectile is within range (one metre) of two of them. *)
Lemma laidOut_at_most_one_hit b st :
  targetsLaidOut st ->
  (List.length (hitsOf b (visibleTargets (targets st))) <= 1)%nat.
Proof.
  intro HL. unfold hitsOf, visibleTargets. apply filter_at_most_one.
  - assert (G : forall (g : nat * Target.t -> bool) l,
               NoDup (map fst l) -> NoDup (map fst (filter g l))).
    { clear. intros g l. induction l as [|x l IH]; simpl; intro H;
        [constructor|].
      inversion H as [|? ? Hn Hr]; subst.
      destruct (g x); simpl; [constructor|]; auto.
      intro Hin. apply Hn. apply in_map_iff in Hin.
      destruct Hin as (y & Ey & Hy). apply filter_In in Hy.
      apply in_map_iff. exists y. tauto. }
    apply G. rewrite indexed_keys. apply seq_NoDup.
  - intros [i t] [j t'] Hx Hy Fx Fy. simpl in *.
    apply filter_In in Hx, Hy. destruct Hx as [Hx _], Hy as [Hy _].
    apply indexed_In in Hx, Hy.
    apply inRange_heights in Fx, Fy.
    rewrite (HL i t Hx) in Fx. rewrite (HL j t' Hy) in Fy.
    destruct Fx, Fy.
    eapply heights_apart; eauto.
Qed.

(** In the states the game reaches, every projectile collides with one target
    at most in a frame. *)
Lemma reachable_at_most_one_collision delta st b :
  reachable st ->
  (List.length (collisions delta (targets st) b) <= 1)%nat.
Proof.
  intro HR. unfold collisions.
  destruct (Qltb (Bullet.timeToLive b) 0); [simpl; lia|].
  apply laidOut_at_most_one_hit. now apply reachable_laidOut.
Qed.

(** ** Collisions of one projectile *)

Lemma collisions_live delta ts b :
  0 <= Bullet.timeToLive b ->
  collisions delta ts b = hitsOf (advance delta b) (visibleTargets ts).
Proof.
  intro H. unfold collisions. apply Qltb_ge in H. rewrite H. reflexivity.
Qed.

Lemma collisions_expired delta ts b :
  Bullet.timeToLive b < 0 -> collisions delta ts b = [].
Proof.
  intro H. unfold collisions. apply Qltb_lt in H. rewrite H. reflexivity.
Qed.

(** The callback as the source has it, in any state.  A live projectile is
    advanced and then tested against every visible target, in the order of
    [targets]; the inner loop has no exit.  Each visible target within range
    counts: the score grows by ten per such target and a shrink is requested
    for each, in that order.  The projectile leaves the registry and the
    scene when there is at least one such target, and stays, advanced, when
    there is none.  With the targets at the heights the loader gives them
    there is one such target at most. *)
Lemma bulletCallback_counts_targets_in_range :
  forall delta b st,
    0 <= Bullet.timeToLive b ->
    let b' := advance delta b in
    let hits := hitsOf b' (visibleTargets (targets st)) in
    let st' := snd (bulletCallback delta b st) in
    fst (bulletCallback delta b st) = b' /\
    score st' = (score st + 10 * Z.of_nat (List.length hits))%Z /\
    tweens st' = tweens st ++ map (fun it => Shrink (fst it)) hits /\
    (hits = [] ->
     bullets st' = registry_mutate b' (bullets st) /\ scene st' = scene st) /\
    (hits <> [] ->
     bullets st' = registry_delete (Bullet.uuid b) (bullets st) /\
     scene st' = scene_remove (ObjBullet (Bullet.uuid b)) (scene st)) /\
    (List.length hits = 1%nat -> score st' = (score st + 10)%Z) /\
    (targetsLaidOut st -> (List.length hits <= 1)%nat) /\
    score (stepBullets delta st) =
      (score st +
       10 * Z.of_nat
              (List.length (flat_map (collisions delta (targets st)) (bullets st))))%Z.
Proof.
  intros delta b st Hlive b' hits st'.
  destruct (bulletCallback_summary delta b st) as (S & T & B & C).
  fold st' in S, T, B, C.
  unfold shrinkRequests, survives in *.
  rewrite (collisions_live delta (targets st) b Hlive) in *.
  fold b' in S, T, B, C. fold hits in S, T, B, C.
  pose proof Hlive as Hl. apply Qltb_ge in Hl. rewrite Hl in B, C.
  simpl in B, C.
  split; [unfold bulletCallback; rewrite Hl; reflexivity|].
  split; [exact S|]. split; [exact T|]. split; [|split; [|split; [|split]]].
  - intro E. rewrite E in B, C. split; assumption.
  - intro E. destruct hits; [congruence|]. split; assumption.
  - intro E. rewrite S, E. reflexivity.
  - intro HL. apply laidOut_at_most_one_hit. exact HL.
  - rewrite stepBullets_loopOver.
    apply (loopOver_score_tweens delta (bullets st) st).
Qed.

(** What the missing exit would do in a state that no run of the game
    reaches: with two visible targets half a metre from the projectile, the
    frame takes the score from 0 to 20 and requests the shrink of both. *)
Example two_targets_in_range_both_count :
  let st := twoTargetsInRange in
  let b' := advance (1 # 60) restingBullet in
  bullets st = [restingBullet] /\
  map Target.visible (targets st) = [true; true] /\
  map (inRange b') (targets st) = [true; true] /\
  score st = 0%Z /\
  exists st',
    onFrame (1 # 60) (cameraOnly vzero) st = Ok st' /\
    score st' = 20%Z /\
    scoreText st' = "0020"%string /\
    tweens st' = [Shrink 0; Shrink 1] /\
    bullets st' = [].
Proof.
  cbv zeta. repeat split.
  eexists. split; [reflexivity|]. repeat split.
Qed.

(** ** Who is in the registry after a frame *)

Lemma survives_true delta ts b :
  survives delta ts b = true <->
  0 <= Bullet.timeToLive b /\ collisions delta ts b = [].
Proof.
  unfold survives. rewrite andb_true_iff, negb_true_iff, Qltb_ge.
  destruct (collisions delta ts b); split; intros [H1 H2]; split;
    trivial; discriminate.
Qed.

(** C3, as the code has it.  In every state the game reaches, the registry
    and the scene hold the same projectiles.  After a frame the registry
    holds exactly the projectiles that were in it when the projectile loop
    began, had [timeToLive >= 0] then, and were not within range of a visible
    target once advanced; each is stored advanced, its [timeToLive] lowered
    by [delta], so that it is at least [-delta] and may be negative: an
    expired projectile leaves at the start of the next frame.  The registry
    and the scene again hold the same projectiles: a projectile leaves both
    in the same frame. *)
Theorem registry_holds_unexpired_uncollided_of_frame_start :
  forall st,
    reachable st ->
    registryInScene st /\
    forall delta inp st',
      onFrame delta inp st = Ok st' ->
      exists st2,
        beforeBullets delta inp st = Ok st2 /\
        (forall b',
           In b' (bullets st') <->
           exists b,
             In b (bullets st2) /\
             0 <= Bullet.timeToLive b /\
             collisions delta (targets st2) b = [] /\
             b' = advance delta b) /\
        (forall b', In b' (bullets st') -> - delta <= Bullet.timeToLive b') /\
        registryInScene st'.
Proof.
  intros st HR. pose proof (reachable_wellFormed st HR) as HW.
  split; [exact (proj2 HW)|].
  intros delta inp st' Hf.
  destruct (onFrame_inv _ _ _ _ Hf) as (st2 & Hb & ->).
  pose proof (beforeBullets_wellFormed _ _ _ _ Hb HW) as HW2.
  exists st2. split; [exact Hb|].
  assert (M : forall b',
             In b' (bullets (stepBullets delta st2)) <->
             exists b,
               In b (bullets st2) /\ 0 <= Bullet.timeToLive b /\
               collisions delta (targets st2) b = [] /\ b' = advance delta b).
  { intro b'. rewrite (stepBullets_registry delta st2 (proj1 HW2)).
    rewrite in_map_iff. split.
    - intros (b & E & Hin). apply filter_In in Hin. destruct Hin as [Hin Hs].
      apply survives_true in Hs. destruct Hs as [H0 Hc].
      exists b. repeat split; auto.
    - intros (b & Hin & H0 & Hc & E). exists b. split; [auto|].
      apply filter_In. split; [exact Hin|]. apply survives_true. now split. }
  split; [exact M|]. split.
  - intros b' Hin. apply M in Hin. destruct Hin as (b & _ & H0 & _ & ->).
    simpl. lra.
  - exact (proj2 (stepBullets_wellFormed delta st2 HW2)).
Qed.

Lemma registry_holds_unexpired_uncollided_of_frame_start_witness :
  registryInScene (afterRun oneShot).
Proof.
  refine (proj1 (registry_holds_unexpired_uncollided_of_frame_start
                   (afterRun oneShot) _)).
  exists vzero, oneShot. vm_compute. reflexivity.
Defined.

(** C3 does not hold between frames: the registry can hold a projectile
    whose [timeToLive] is negative.  One shot in a room without targets,
    three frames of half a second: the projectile is still in the registry
    and in the scene, with [timeToLive = -1/2], and has hit nothing. *)
Lemma expired_projectile_still_in_registry :
  let st := afterRun shotInEmptyRoom in
  run shotInEmptyRoom (initialState vzero) = Some st /\
  map (fun b => (Bullet.uuid b, Qred (Bullet.timeToLive b))) (bullets st) =
    [("b1"%string, -1 # 2)] /\
  (exists b, In b (bullets st) /\ Bullet.timeToLive b < 0) /\
  In (ObjBullet "b1") (scene st) /\
  targets st = [] /\ tweens st = [] /\ score st = 0%Z.
Proof.
  cbv zeta. split; [vm_compute; reflexivity|].
  split; [vm_compute; reflexivity|]. split.
  - eexists. split; [vm_compute; left; reflexivity|vm_compute; reflexivity].
  - repeat split. vm_compute. right. left. reflexivity.
Qed.

(** ** Expiry *)

Lemma bulletCallback_expired delta b st :
  Bullet.timeToLive b < 0 ->
  bulletCallback delta b st = (b, removeBullet b st).
Proof.
  intro H. unfold bulletCallback. apply Qltb_lt in H. rewrite H. reflexivity.
Qed.

Lemma flat_map_filter_nil {A B : Type} (f : A -> bool) (g : A -> list B) l :
  (forall x, In x l -> f x = false -> g x = []) ->
  flat_map g (filter f l) = flat_map g l.
Proof.
  induction l as [|x l IH]; simpl; intro H; [reflexivity|].
  destruct (f x) eqn:E; simpl.
  - f_equal. apply IH. intros y Hy. apply H. now right.
  - rewrite (H x (or_introl eq_refl) E). simpl.
    apply IH. intros y Hy. apply H. now right.
Qed.

(** C4.  A projectile that is in the registry with a negative [timeToLive]
    when the loop begins is removed by its call of the callback, which
    returns before the advance and before the collision test: the object is
    left as it was, position included, and the state changes by the removal
    only.  After the loop it is neither in the registry nor in the scene, and
    the score and the shrink requests of the frame are those of the frame
    without that projectile, however close to a visible target it lies. *)
Theorem expired_projectile_removed_before_move_and_collision :
  forall delta st b,
    uniqueKeys st ->
    In b (bullets st) ->
    Bullet.timeToLive b < 0 ->
    (forall s, bulletCallback delta b s = (b, removeBullet b s)) /\
    Bullet.position (fst (bulletCallback delta b st)) = Bullet.position b /\
    collisions delta (targets st) b = [] /\
    ~ In (Bullet.uuid b) (registry_keys (bullets (stepBullets delta st))) /\
    ~ In (ObjBullet (Bullet.uuid b)) (scene (stepBullets delta st)) /\
    score (stepBullets delta st) = score (stepBullets delta (removeBullet b st)) /\
    tweens (stepBullets delta st) = tweens (stepBullets delta (removeBullet b st)).
Proof.
  intros delta st b HU Hin Hneg.
  pose proof (collisions_expired delta (targets st) b Hneg) as Hc.
  assert (Hs : survives delta (targets st) b = false).
  { unfold survives. apply Qltb_lt in Hneg. rewrite Hneg. reflexivity. }
  split; [intro s; now apply bulletCallback_expired|].
  split; [rewrite bulletCallback_expired by assumption; reflexivity|].
  split; [exact Hc|]. split; [|split].
  - rewrite (stepBullets_registry delta st HU), registry_keys_survivors.
    unfold registry_keys. rewrite in_map_iff.
    intros (x & Ex & Hx). apply filter_In in Hx. destruct Hx as [Hx Hsx].
    rewrite (unique_key_same_object _ _ _ HU Hx Hin Ex) in Hsx. congruence.
  - rewrite stepBullets_loopOver, loopOver_scene, sceneAfter_In.
    intros [_ Hall]. now apply (Hall b Hin Hs).
  - rewrite !stepBullets_loopOver.
    destruct (loopOver_score_tweens delta (bullets st) st) as [S T].
    destruct (loopOver_score_tweens delta (bullets (removeBullet b st))
                (removeBullet b st)) as [S' T'].
    rewrite S, T, S', T'. simpl.
    assert (G : forall (g : Bullet.t -> list (nat * Target.t)),
               g b = [] ->
               flat_map g (registry_delete (Bullet.uuid b) (bullets st)) =
               flat_map g (bullets st)).
    { intros g Hg. apply flat_map_filter_nil. intros x Hx Hfx.
      apply negb_false_iff, has_uuid_true in Hfx.
      rewrite (unique_key_same_object _ _ _ HU Hx Hin Hfx). exact Hg. }
    assert (G' : flat_map (shrinkRequests delta (targets st))
                   (registry_delete (Bullet.uuid b) (bullets st)) =
                 flat_map (shrinkRequests delta (targets st)) (bullets st)).
    { apply flat_map_filter_nil. intros x Hx Hfx.
      apply negb_false_iff, has_uuid_true in Hfx.
      rewrite (unique_key_same_object _ _ _ HU Hx Hin Hfx).
      unfold shrinkRequests. rewrite Hc. reflexivity. }
    rewrite (G _ Hc), G'. split; reflexivity.
Qed.

Lemma expired_projectile_removed_before_move_and_collision_witness :
  uniqueKeys expiredOnTarget /\
  In expiredBullet (bullets expiredOnTarget) /\
  Bullet.timeToLive expiredBullet < 0 /\
  inRange expiredBullet (Target.mk vzero true unitScale) = true /\
  bulletCallback (1 # 60) expiredBullet expiredOnTarget =
    (expiredBullet, removeBullet expiredBullet expiredOnTarget).
Proof.
  assert (HU : uniqueKeys expiredOnTarget).
  { unfold uniqueKeys. simpl. repeat constructor; simpl; intuition discriminate. }
  split; [exact HU|]. split; [left; reflexivity|].
  split; [vm_compute; reflexivity|]. split; [reflexivity|].
  apply (expired_projectile_removed_before_move_and_collision (1 # 60)
           expiredOnTarget expiredBullet HU).
  - left. reflexivity.
  - vm_compute. reflexivity.
Defined.

(** C10.  The expiry branch changes the registry and the scene and nothing
    else.  The score, the displayed text, the targets with their position,
    scale and visibility, the pending shrinks and timers and the two inertia
    filters are as before; the registry is the old one without the expired
    projectile, every other projectile being the same object with the same
    position and [timeToLive]; the scene is the old one without it. *)
Theorem expiry_changes_only_registry_and_scene :
  forall delta b st,
    Bullet.timeToLive b < 0 ->
    let st' := snd (bulletCallback delta b st) in
    score st' = score st /\
    scoreText st' = scoreText st /\
    targets st' = targets st /\
    tweens st' = tweens st /\
    timers st' = timers st /\
    blasterInertia st' = blasterInertia st /\
    liquidSphereInertia st' = liquidSphereInertia st /\
    (forall x,
       In x (bullets st') <->
       In x (bullets st) /\ Bullet.uuid x <> Bullet.uuid b) /\
    (forall u,
       u <> Bullet.uuid b ->
       registry_get u (bullets st') = registry_get u (bullets st)) /\
    (forall o,
       In o (scene st') <->
       In o (scene st) /\ o <> ObjBullet (Bullet.uuid b)).
Proof.
  intros delta b st Hneg st'. unfold st'.
  rewrite (bulletCallback_expired delta b st Hneg). simpl.
  repeat split; try tauto.
  - apply filter_In in H. tauto.
  - apply filter_In in H. destruct H as [_ H].
    apply negb_true_iff, has_uuid_false in H. exact H.
  - intros [H1 H2]. apply filter_In. split; [exact H1|].
    now apply negb_true_iff, has_uuid_false.
  - intros u Hu. unfold registry_get, registry_delete.
    induction (bullets st) as [|x l IH]; simpl; [reflexivity|].
    destruct (has_uuid (Bullet.uuid b) x) eqn:E; simpl.
    + apply has_uuid_true in E.
      assert (F : has_uuid u x = false) by (apply has_uuid_false; congruence).
      rewrite F. exact IH.
    + destruct (has_uuid u x); [reflexivity|exact IH].
  - apply scene_remove_In in H. tauto.
  - apply scene_remove_In in H. tauto.
  - intros [H1 H2]. apply scene_remove_In. now split.
Qed.

Lemma expiry_changes_only_registry_and_scene_witness :
  Bullet.timeToLive expiredBullet < 0 /\
  score (snd (bulletCallback (1 # 60) expiredBullet expiredOnTarget)) = 30%Z /\
  scoreText (snd (bulletCallback (1 # 60) expiredBullet expiredOnTarget)) =
    "0030"%string.
Proof.
  split; [vm_compute; reflexivity|].
  pose proof (expiry_changes_only_registry_and_scene (1 # 60) expiredBullet
                expiredOnTarget ltac:(vm_compute; reflexivity))
    as (H1 & H2 & _).
  split; [exact H1|exact H2].
Defined.

(** ** Which targets can be hit *)

Lemma In_shrinkRequests delta ts bs i :
  In (Shrink i) (flat_map (shrinkRequests delta ts) bs) <->
  exists b t,
    In b bs /\ 0 <= Bullet.timeToLive b /\
    nth_error ts i = Some t /\ Target.visible t = true /\
    inRange (advance delta b) t = true.
Proof.
  rewrite in_flat_map. split.
  - intros (b & Hb & Hin). unfold shrinkRequests in Hin.
    apply in_map_iff in Hin. destruct Hin as ([j t] & E & Hc).
    simpl in E. inversion E; subst j. unfold collisions in Hc.
    destruct (Qltb (Bullet.timeToLive b) 0) eqn:L; [contradiction|].
    apply Qltb_ge in L. unfold hitsOf in Hc. apply filter_In in Hc.
    destruct Hc as [Hv Hr]. apply visibleTargets_In in Hv.
    exists b, t. simpl in Hr. tauto.
  - intros (b & t & Hb & L & Hn & Hv & Hr). exists b. split; [exact Hb|].
    unfold shrinkRequests. apply in_map_iff. exists (i, t).
    split; [reflexivity|]. rewrite (collisions_live _ _ _ L).
    unfold hitsOf. apply filter_In. split; [|exact Hr].
    apply visibleTargets_In. now split.
Qed.

Lemma applyEvent_hides e st st' i t t' :
  applyEvent e st = Some st' ->
  nth_error (targets st) i = Some t -> Target.visible t = true ->
  nth_error (targets st') i = Some t' -> Target.visible t' = false ->
  e = ShrinkComplete i.
Proof.
  destruct e as [delta inp|r0 r1 r2| |tw s|j|j rx rz|j];
    unfold applyEvent; intros H Hn Hv Hn' Hv'.
  - destruct (onFrame delta inp st) as [s|] eqn:E; [|discriminate].
    inversion H; subst s.
    destruct (onFrame_inv _ _ _ _ E) as (st2 & Hb & ->).
    destruct (beforeBullets_score _ _ _ _ Hb) as (_ & T & _).
    destruct (stepBullets_outside delta st2) as (T2 & _).
    rewrite T2, T in Hn'. exfalso. congruence.
  - exfalso. destruct (targets st); [destruct i|]; discriminate.
  - exfalso. inversion H. subst st'. simpl in Hn'. congruence.
  - destruct (existsb (Tween_eqb tw) (tweens st)); [|discriminate].
    inversion H. subst st'. simpl in Hn'.
    rewrite nth_error_update_nth, Hn in Hn'.
    exfalso.
    destruct (Nat.eqb i (tween_target tw)); simpl in Hn'; inversion Hn';
      subst t'; simpl in Hv'; congruence.
  - destruct (existsb (Tween_eqb (Shrink j)) (tweens st)); [|discriminate].
    inversion H. subst st'. simpl in Hn'.
    rewrite nth_error_update_nth, Hn in Hn'.
    destruct (Nat.eqb i j) eqn:E.
    + apply Nat.eqb_eq in E. now subst.
    + exfalso. congruence.
  - destruct (existsb (Nat.eqb j) (timers st) && isRandom rx && isRandom rz);
      [|discriminate].
    inversion H. subst st'. simpl in Hn'.
    rewrite nth_error_update_nth, Hn in Hn'.
    exfalso.
    destruct (Nat.eqb i j); simpl in Hn'; inversion Hn';
      subst t'; simpl in Hv'; congruence.
  - destruct (existsb (Tween_eqb (Grow j)) (tweens st)); [|discriminate].
    inversion H. subst st'. simpl in Hn'.
    rewrite nth_error_update_nth, Hn in Hn'.
    exfalso.
    destruct (Nat.eqb i j); simpl in Hn'; inversion Hn';
      subst t'; simpl in Hv'; congruence.
Qed.

(** C7.  The projectile loop hits the target of index [i] exactly when some
    projectile of the registry is live, the target's [visible] flag is true
    and the target is within range of the projectile once advanced: nothing
    else about the target counts, neither its scale nor a shrink in
    progress.  The loop itself writes no target, so a hit does not clear the
    flag; the flag of a visible target is cleared by one event only, the
    completion of its shrink, and that event does clear it.  A target
    therefore stays open to hits during the whole of its shrink, and a hidden
    one is never hit. *)
Theorem collision_eligibility_is_the_visible_flag :
  forall delta st i,
    targets (stepBullets delta st) = targets st /\
    (exists requests,
       tweens (stepBullets delta st) = tweens st ++ requests /\
       (In (Shrink i) requests <->
        exists b t,
          In b (bullets st) /\ 0 <= Bullet.timeToLive b /\
          nth_error (targets st) i = Some t /\ Target.visible t = true /\
          inRange (advance delta b) t = true)) /\
    (forall e st' t t',
       applyEvent e st = Some st' ->
       nth_error (targets st) i = Some t -> Target.visible t = true ->
       nth_error (targets st') i = Some t' -> Target.visible t' = false ->
       e = ShrinkComplete i) /\
    (forall t,
       nth_error (targets st) i = Some t ->
       exists t',
         nth_error (targets (shrinkComplete i st)) i = Some t' /\
         Target.visible t' = false).
Proof.
  intros delta st i. split; [|split; [|split]].
  - apply (stepBullets_outside delta st).
  - exists (flat_map (shrinkRequests delta (targets st)) (bullets st)).
    split; [|apply In_shrinkRequests].
    rewrite stepBullets_loopOver.
    apply (loopOver_score_tweens delta (bullets st) st).
  - intros e st' t t'. apply applyEvent_hides.
  - intros t Hn. simpl. rewrite nth_error_update_nth, Nat.eqb_refl, Hn.
    simpl. eexists. split; reflexivity.
Qed.

Lemma collision_eligibility_is_the_visible_flag_witness :
  exists t',
    nth_error (targets (shrinkComplete 0 (afterRun oneShot))) 0 = Some t' /\
    Target.visible t' = false.
Proof.
  destruct (collision_eligibility_is_the_visible_flag (1 # 10)
              (afterRun oneShot) 0) as (_ & _ & _ & H).
  apply (H (Target.mk (mkVector3 (0 # 2) 1 (-5)) true unitScale)).
  vm_compute. reflexivity.
Defined.

(** A target hit while it shrinks: the second of two shots lands one frame
    after the first, before the shrink has completed, on a target that is
    still visible; both score. *)
Lemma shrinking_target_is_hit_again :
  let st := afterRun twoShots in
  run twoShots (initialState vzero) = Some st /\
  score (afterRun oneShot) = 10%Z /\
  tweens (afterRun oneShot) = [Shrink 0] /\
  map Target.visible (targets (afterRun oneShot)) = [true; true; true] /\
  score st = 20%Z /\ tweens st = [Shrink 0; Shrink 0] /\ bullets st = [].
Proof. cbv zeta. by_evaluation. Qed.

(** A hidden target is not hit: when the shrink completes between the two
    landings, the second projectile flies through the place of the target. *)
Lemma hidden_target_is_not_hit :
  let st := afterRun twoShotsShrinkDone in
  run twoShotsShrinkDone (initialState vzero) = Some st /\
  map Target.visible (targets st) = [false; true; true] /\
  score st = 10%Z /\ tweens st = [] /\ timers st = [0%nat] /\
  map Bullet.uuid (bullets st) = ["b2"%string].
Proof. cbv zeta. by_evaluation. Qed.

(** The score invariant on a run. *)
Lemma score_is_multiple_of_ten_and_monotone_witness :
  exists n : nat, score (afterRun twoShots) = (10 * Z.of_nat n)%Z.
Proof.
  refine (proj1 (proj2 (score_is_multiple_of_ten_and_monotone
                          (afterRun twoShots) _))).
  exists vzero, twoShots. vm_compute. reflexivity.
Defined.

(** The spring leaves its bounds in ordinary play as well: the camera glides
    to the left at one metre per second, in frames of a fifth of a second;
    after three frames [tiltY] is still below [maxTilt], after the fourth it
    is above. *)
Lemma spring_overshoots_while_gliding :
  let tiltAfter n :=
    LiquidSphereInertia.tiltY (liquidSphereInertia (afterRun (glide n))) in
  tiltAfter 3%nat < LiquidSphereInertia.maxTilt /\
  LiquidSphereInertia.maxTilt < tiltAfter 4%nat.
Proof. cbv zeta. by_evaluation. Qed.

(** ** The frame before the projectile loop *)

Lemma rightController_frame_fields delta inp c st st' :
  rightController delta inp c st = Ok st' ->
  score st' = score st /\ scoreText st' = scoreText st /\
  targets st' = targets st /\ tweens st' = tweens st /\
  timers st' = timers st.
Proof.
  unfold rightController.
  assert (HA : score (attachBlaster c st) = score st /\
               scoreText (attachBlaster c st) = scoreText st /\
               targets (attachBlaster c st) = targets st /\
               tweens (attachBlaster c st) = tweens st /\
               timers (attachBlaster c st) = timers st).
  { unfold attachBlaster. destruct (blasterAttached st); repeat split. }
  destruct HA as (A1 & A2 & A3 & A4 & A5).
  destruct (triggerClick c).
  - rewrite onTrigger_ok. intro H. inversion H. clear H.
    unfold spawn. destruct (bulletPrototype inp); simpl; repeat split;
      assumption.
  - intro H. inversion H. simpl. repeat split; assumption.
Qed.

Lemma beforeBullets_frame_fields delta inp st st2 :
  beforeBullets delta inp st = Ok st2 ->
  score st2 = score st /\ scoreText st2 = scoreText st /\
  targets st2 = targets st /\ tweens st2 = tweens st /\
  timers st2 = timers st.
Proof.
  unfold beforeBullets. destruct (controllers_right inp) as [c|].
  - intro H. apply rightController_frame_fields in H. exact H.
  - intro H. inversion H. repeat split.
Qed.

(** ** The displayed text follows the score *)

Lemma checkTarget_displayInSync b st it :
  displayInSync st -> displayInSync (checkTarget b st it).
Proof.
  unfold checkTarget. destruct (inRange b (snd it)); [|trivial].
  intros _. reflexivity.
Qed.

Lemma bulletCallback_displayInSync delta b st :
  displayInSync st -> displayInSync (snd (bulletCallback delta b st)).
Proof.
  intro H. unfold bulletCallback.
  destruct (Qltb (Bullet.timeToLive b) 0); simpl; [exact H|].
  set (s1 := set_bullets _ st).
  assert (H1 : displayInSync s1) by exact H.
  generalize dependent s1.
  induction (visibleTargets (targets st)) as [|it its IH]; intros s1 H1;
    simpl; [exact H1|].
  apply IH. now apply checkTarget_displayInSync.
Qed.

Lemma stepBullets_displayInSync delta st :
  displayInSync st -> displayInSync (stepBullets delta st).
Proof.
  unfold stepBullets. generalize (bullets st) as bs. intro bs. revert st.
  induction bs as [|b bs IH]; intros st H; simpl; [exact H|].
  apply IH. now apply bulletCallback_displayInSync.
Qed.

Lemma applyEvent_displayInSync e st st' :
  applyEvent e st = Some st' -> displayInSync st -> displayInSync st'.
Proof.
  destruct e as [delta inp|r0 r1 r2| |tw s|i|i rx rz|i];
    unfold applyEvent; intros H HS.
  - destruct (onFrame delta inp st) as [s|] eqn:E; [|discriminate].
    inversion H; subst s.
    destruct (onFrame_inv _ _ _ _ E) as (st2 & Hb & ->).
    apply stepBullets_displayInSync.
    destruct (beforeBullets_frame_fields _ _ _ _ Hb) as (S & T & _).
    unfold displayInSync. rewrite S, T. exact HS.
  - destruct (targets st); [|discriminate].
    destruct (isRandomPair r0 && isRandomPair r1 && isRandomPair r2);
      [|discriminate].
    inversion H. destruct r0, r1, r2. exact HS.
  - inversion H. exact HS.
  - destruct (existsb (Tween_eqb tw) (tweens st)); [|discriminate].
    inversion H. exact HS.
  - destruct (existsb (Tween_eqb (Shrink i)) (tweens st)); [|discriminate].
    inversion H. exact HS.
  - destruct (existsb (Nat.eqb i) (timers st) && isRandom rx && isRandom rz);
      [|discriminate].
    inversion H. exact HS.
  - destruct (existsb (Tween_eqb (Grow i)) (tweens st)); [|discriminate].
    inversion H. exact HS.
Qed.

Lemma run_displayInSync es :
  forall s s', run es s = Some s' -> displayInSync s -> displayInSync s'.
Proof.
  induction es as [|e es IH]; intros s s' H HS; cbn [run] in H.
  - inversion H. now subst.
  - destruct (applyEvent e s) as [s1|] eqn:E; [|discriminate].
    apply (IH _ _ H). eapply applyEvent_displayInSync; eauto.
Qed.

(** X1.  In every state the game reaches, the text of the score display is
    the text that [updateScoreDisplay] computes from the stored score: no
    path changes the score without refreshing the text. *)
Theorem display_always_shows_stored_score :
  forall st, reachable st -> scoreText st = displayScore (score st).
Proof.
  intros st (c & es & H).
  assert (H0 : displayInSync (initialState c)) by reflexivity.
  exact (run_displayInSync es _ _ H H0).
Qed.

Lemma display_always_shows_stored_score_witness :
  scoreText (afterRun twoShots) = displayScore (score (afterRun twoShots)).
Proof.
  apply display_always_shows_stored_score.
  exists vzero, twoShots. vm_compute. reflexivity.
Defined.

(** X2.  In every state the game reaches the score is a multiple of ten, so
    the display shows it exactly, four digits ending in 0, as long as it is
    below 10000, and shows 9999 from 10000 on: no text between 9991 and 9998
    is ever displayed. *)
Theorem display_exact_below_10000_then_9999 :
  forall st,
    reachable st ->
    ((score st < 10000)%Z ->
     scoreText st = fourDigits (score st) /\
     (score st mod 10 = 0)%Z /\ (0 <= score st <= 9990)%Z) /\
    ((10000 <= score st)%Z -> scoreText st = "9999"%string).
Proof.
  intros st HR.
  destruct HR as (c & es & H).
  assert (HD : scoreText st = displayScore (score st))
    by (apply (run_displayInSync es _ _ H); reflexivity).
  destruct (run_score es _ _ H) as (k & S).
  change (score (initialState c)) with 0%Z in S.
  rewrite HD, displayScore_clamp. unfold clampScore. split; intro L.
  - destruct (Z.ltb_spec (score st) 0); [lia|].
    destruct (Z.ltb_spec 9999 (score st)); [lia|].
    split; [apply displayScore_in_range; lia|].
    split; [rewrite S; rewrite Z.add_0_l, Z.mul_comm; apply Z.mod_mul; lia|lia].
  - destruct (Z.ltb_spec (score st) 0); [lia|].
    destruct (Z.ltb_spec 9999 (score st)); [|lia].
    vm_compute. reflexivity.
Qed.

Lemma display_exact_below_10000_then_9999_witness :
  scoreText (afterRun twoShots) = fourDigits (score (afterRun twoShots)).
Proof.
  refine (proj1 (proj1 (display_exact_below_10000_then_9999
                          (afterRun twoShots) _) _)).
  - exists vzero, twoShots. vm_compute. reflexivity.
  - vm_compute. reflexivity.
Defined.

(** ** Haptics *)

(** X3.  Whether the haptic actuator works or throws makes no difference to
    a frame: the exception is caught where it is raised, and the frame ends
    in the same state, trigger clicked or not. *)
Theorem haptic_failure_changes_nothing :
  forall delta inp st h,
    onFrame delta (withHaptics h inp) st = onFrame delta inp st.
Proof.
  intros delta inp st h. unfold onFrame, beforeBullets, withHaptics. simpl.
  destruct (controllers_right inp) as [c|]; [|reflexivity]. simpl.
  unfold rightController. simpl.
  destruct (triggerClick c); [|reflexivity].
  rewrite !onTrigger_ok. reflexivity.
Qed.

(** ** Hits and shrink requests *)

(** X4.  A frame only appends to the list of requests made to gsap, every
    request it appends is the shrink of a target, and the score grows by ten
    for each of them: every scored hit starts one shrink, and no shrink
    starts without a scored hit. *)
Theorem every_hit_requests_one_shrink :
  forall delta inp st st',
    onFrame delta inp st = Ok st' ->
    exists requests,
      tweens st' = tweens st ++ requests /\
      forallb isShrink requests = true /\
      score st' = (score st + 10 * Z.of_nat (List.length requests))%Z.
Proof.
  intros delta inp st st' Hf.
  destruct (onFrame_inv _ _ _ _ Hf) as (st2 & Hb & ->).
  destruct (beforeBullets_frame_fields _ _ _ _ Hb) as (S & _ & _ & W & _).
  rewrite stepBullets_loopOver.
  destruct (loopOver_score_tweens delta (bullets st2) st2) as [ES ET].
  exists (flat_map (shrinkRequests delta (targets st2)) (bullets st2)).
  rewrite ES, ET, S, W. split; [reflexivity|]. split.
  - apply forallb_forall. intros tw Hin. apply in_flat_map in Hin.
    destruct Hin as (b & _ & Hin). unfold shrinkRequests in Hin.
    apply in_map_iff in Hin. destruct Hin as (it & <- & _). reflexivity.
  - assert (L : forall bs,
               List.length (flat_map (shrinkRequests delta (targets st2)) bs) =
               List.length (flat_map (collisions delta (targets st2)) bs)).
    { induction bs as [|b bs IH]; simpl; [reflexivity|].
      rewrite !length_app, IH. unfold shrinkRequests. rewrite length_map.
      reflexivity. }
    rewrite L. reflexivity.
Qed.

Lemma every_hit_requests_one_shrink_witness :
  exists requests,
    tweens (afterFrame (1 # 60) (cameraOnly vzero) twoTargetsInRange) =
      tweens twoTargetsInRange ++ requests /\
    forallb isShrink requests = true /\
    score (afterFrame (1 # 60) (cameraOnly vzero) twoTargetsInRange) =
      (score twoTargetsInRange + 10 * Z.of_nat (List.length requests))%Z.
Proof.
  apply (every_hit_requests_one_shrink (1 # 60) (cameraOnly vzero)
           twoTargetsInRange).
  reflexivity.
Defined.

(** ** Spawning a projectile *)

Lemma registry_get_mutate_same b r :
  existsb (has_uuid (Bullet.uuid b)) r = true ->
  registry_get (Bullet.uuid b) (registry_mutate b r) = Some b.
Proof.
  unfold registry_get, registry_mutate.
  induction r as [|x r IH]; simpl; [discriminate|].
  destruct (has_uuid (Bullet.uuid b) x) eqn:E; simpl.
  - intros _. rewrite has_uuid_own. reflexivity.
  - rewrite E. exact IH.
Qed.

Lemma registry_get_set_same b r :
  registry_get (Bullet.uuid b) (registry_set b r) = Some b.
Proof.
  unfold registry_set.
  destruct (existsb (has_uuid (Bullet.uuid b)) r) eqn:E.
  - now apply registry_get_mutate_same.
  - unfold registry_get. induction r as [|x r IH]; simpl in *.
    + rewrite has_uuid_own. reflexivity.
    + apply orb_false_iff in E. destruct E as [E1 E2]. rewrite E1.
      now apply IH.
Qed.

Lemma registry_get_set_other b r u :
  u <> Bullet.uuid b ->
  registry_get u (registry_set b r) = registry_get u r.
Proof.
  intro Hu. unfold registry_set, registry_get, registry_mutate.
  assert (Hb : has_uuid u b = false) by (apply has_uuid_false; congruence).
  destruct (existsb (has_uuid (Bullet.uuid b)) r).
  - induction r as [|x r IH]; simpl; [reflexivity|].
    destruct (has_uuid (Bullet.uuid b) x) eqn:E.
    + rewrite Hb. apply has_uuid_true in E.
      assert (Hx : has_uuid u x = false) by (apply has_uuid_false; congruence).
      rewrite Hx. exact IH.
    + destruct (has_uuid u x); [reflexivity|exact IH].
  - induction r as [|x r IH]; simpl; [now rewrite Hb|].
    destruct (has_uuid u x); [reflexivity|exact IH].
Qed.

Lemma registry_get_In u r b : registry_get u r = Some b -> In b r.
Proof. intro H. apply find_some in H. tauto. Qed.

Lemma registry_get_unique r b :
  NoDup (registry_keys r) -> In b r ->
  registry_get (Bullet.uuid b) r = Some b.
Proof.
  intros HN Hin. unfold registry_get.
  destruct (find (has_uuid (Bullet.uuid b)) r) as [x|] eqn:E.
  - apply find_some in E. destruct E as [Hx Hu]. apply has_uuid_true in Hu.
    f_equal. now apply (unique_key_same_object r).
  - exfalso. apply (find_none _ _ E) in Hin. now rewrite has_uuid_own in Hin.
Qed.

(** The state after the code before the loop, in a frame that fires. *)
Lemma beforeBullets_fires delta inp c p st st2 :
  controllers_right inp = Some c -> triggerClick c = true ->
  bulletPrototype inp = Some p ->
  beforeBullets delta inp st = Ok st2 ->
  bullets st2 = registry_set (newBullet (cloneUuid inp) p) (bullets st) /\
  scene st2 = scene_add (ObjBullet (cloneUuid inp)) (scene st).
Proof.
  intros Hc Ht Hp. unfold beforeBullets. rewrite Hc.
  unfold rightController. rewrite Ht, onTrigger_ok.
  unfold spawn. rewrite Hp. intro H. inversion H. clear H. simpl.
  set (st1 := set_liquidSphereInertia _ st).
  destruct (attachBlaster_registry c st1) as [EB ES].
  rewrite EB, ES. split; reflexivity.
Qed.

(** The state after the code before the loop, in a frame that does not. *)
Lemma beforeBullets_quiet delta inp st st2 :
  fires inp = false ->
  beforeBullets delta inp st = Ok st2 ->
  bullets st2 = bullets st /\ scene st2 = scene st.
Proof.
  unfold fires, beforeBullets. destruct (controllers_right inp) as [c|].
  - unfold rightController.
    set (st1 := set_liquidSphereInertia _ st).
    destruct (attachBlaster_registry c st1) as [EB ES].
    destruct (triggerClick c).
    + rewrite onTrigger_ok. unfold spawn.
      destruct (bulletPrototype inp); [discriminate|].
      intros _ H. inversion H. simpl. rewrite EB, ES. split; reflexivity.
    + intros _ H. inversion H. simpl. rewrite EB, ES. split; reflexivity.
  - intros _ H. inversion H. split; reflexivity.
Qed.

(** X5.  In a frame that fires, before the projectile loop runs, the new
    projectile is what the registry holds under its uuid: it sits at the
    prototype's world position with its orientation, flies along the rotated
    forward vector at [bulletSpeed], and has [bulletTimeToLive] to live; it
    is in the scene; what the registry holds under any other uuid and the
    other children of the scene are as before. *)
Theorem spawn_registers_new_projectile :
  forall delta inp c p st st2,
    controllers_right inp = Some c ->
    triggerClick c = true ->
    bulletPrototype inp = Some p ->
    beforeBullets delta inp st = Ok st2 ->
    let u := cloneUuid inp in
    registry_get u (bullets st2) = Some (newBullet u p) /\
    In (ObjBullet u) (scene st2) /\
    (forall v, v <> u -> registry_get v (bullets st2) = registry_get v (bullets st)) /\
    (forall o, o <> ObjBullet u -> (In o (scene st2) <-> In o (scene st))) /\
    score st2 = score st /\ targets st2 = targets st.
Proof.
  intros delta inp c p st st2 Hc Ht Hp Hb u.
  destruct (beforeBullets_fires _ _ _ _ _ _ Hc Ht Hp Hb) as [EB ES].
  destruct (beforeBullets_frame_fields _ _ _ _ Hb) as (S & _ & T & _).
  rewrite EB, ES. split; [apply (registry_get_set_same (newBullet u p))|].
  split; [apply scene_add_In; now right|]. split; [|split].
  - intros v Hv. now apply registry_get_set_other.
  - intros o Ho. rewrite scene_add_In. tauto.
  - split; assumption.
Qed.

Lemma spawn_registers_new_projectile_witness :
  exists st2,
    beforeBullets (1 # 10)
      (withController (mkVector3 0 1 (-3)) true true true "b1")
      (initialState vzero) = Ok st2 /\
    registry_get "b1" (bullets st2) =
      Some (newBullet "b1" (mkPrototype (mkVector3 0 1 (-3)) identityQuaternion)).
Proof.
  eexists. split; [reflexivity|].
  exact (proj1 (spawn_registers_new_projectile (1 # 10)
    (withController (mkVector3 0 1 (-3)) true true true "b1")
    (mkController (mkVector3 0 1 (-3)) true true)
    (mkPrototype (mkVector3 0 1 (-3)) identityQuaternion)
    (initialState vzero) _ eq_refl eq_refl eq_refl eq_refl)).
Defined.

(** X6.  When the orientation of the prototype is a unit quaternion, the
    velocity given to the new projectile has length [bulletSpeed]: its
    squared length is 100, whatever the direction. *)
Theorem projectile_speed_is_bulletSpeed :
  forall u p,
    let q := worldQuaternion p in
    qx q * qx q + qy q * qy q + qz q * qz q + qw q * qw q == 1 ->
    lengthSq (Bullet.velocity (newBullet u p)) == bulletSpeed * bulletSpeed.
Proof.
  intros u p q Hq. unfold newBullet, lengthSq, multiplyScalar,
    applyQuaternion, forwardVector, bulletSpeed. simpl. fold q.
  set (a := qx q) in *. set (b := qy q) in *.
  set (c := qz q) in *. set (d := qw q) in *.
  assert (E : forall U,
           U == 1 ->
           100 + 400 * (a * a + b * b) * (U - 1) == 100)
    by (intros U HU; rewrite HU; ring).
  rewrite <- (E _ Hq). ring.
Qed.

Lemma projectile_speed_is_bulletSpeed_witness :
  lengthSq
    (Bullet.velocity
       (newBullet "b1"
          (mkPrototype vzero (mkQuaternion (3 # 5) 0 (4 # 5) 0)))) == 100.
Proof.
  apply (projectile_speed_is_bulletSpeed "b1"
           (mkPrototype vzero (mkQuaternion (3 # 5) 0 (4 # 5) 0))).
  vm_compute. reflexivity.
Defined.

(** ** A whole frame and the registry *)

Lemma hitsOf_nil_not_inRange b ts i t :
  hitsOf b (visibleTargets ts) = [] ->
  nth_error ts i = Some t -> Target.visible t = true ->
  inRange b t = false.
Proof.
  intros H Hn Hv. destruct (inRange b t) eqn:E; [|reflexivity].
  assert (Hin : In (i, t) (hitsOf b (visibleTargets ts))).
  { unfold hitsOf. apply filter_In. split; [|exact E].
    apply visibleTargets_In. now split. }
  rewrite H in Hin. contradiction.
Qed.

(** X7.  A projectile flies already in the frame that fires it: the loop
    runs after the spawn and walks the new projectile too.  When no visible
    target is within range of it once advanced, the frame leaves it in the
    registry one step away from the prototype, with [timeToLive] equal to
    [bulletTimeToLive - delta]; when one is, it scores in that very frame
    and is in the registry no more. *)
Theorem fired_projectile_flies_in_its_first_frame :
  forall delta inp c p st st',
    reachable st ->
    controllers_right inp = Some c ->
    triggerClick c = true ->
    bulletPrototype inp = Some p ->
    onFrame delta inp st = Ok st' ->
    let u := cloneUuid inp in
    let hits :=
      hitsOf (advance delta (newBullet u p)) (visibleTargets (targets st)) in
    (hits = [] ->
     registry_get u (bullets st') = Some (advance delta (newBullet u p))) /\
    (hits <> [] ->
     registry_get u (bullets st') = None /\ (score st + 10 <= score st')%Z).
Proof.
  intros delta inp c p st st' HR Hc Ht Hp Hf u hits.
  destruct (onFrame_inv _ _ _ _ Hf) as (st2 & Hb & ->).
  pose proof (beforeBullets_wellFormed _ _ _ _ Hb (reachable_wellFormed st HR))
    as HW2.
  destruct (beforeBullets_fires _ _ _ _ _ _ Hc Ht Hp Hb) as [EB _].
  destruct (beforeBullets_frame_fields _ _ _ _ Hb) as (S & _ & T & _).
  assert (Hin : In (newBullet u p) (bullets st2)).
  { apply (registry_get_In u). rewrite EB.
    apply (registry_get_set_same (newBullet u p)). }
  assert (Hlive : 0 <= Bullet.timeToLive (newBullet u p))
    by (vm_compute; discriminate).
  assert (Hcol : collisions delta (targets st2) (newBullet u p) = hits)
    by (rewrite T; now apply collisions_live).
  split; intro Hh.
  - pose proof (stepBullets_wellFormed delta st2 HW2) as [HU' _].
    apply (registry_get_unique _ (advance delta (newBullet u p)) HU').
    rewrite (stepBullets_registry delta st2 (proj1 HW2)).
    apply in_map. apply filter_In. split; [exact Hin|].
    apply survives_true. split; [exact Hlive|]. now rewrite Hcol.
  - split.
    + destruct (registry_get u (bullets (stepBullets delta st2))) as [x|] eqn:E;
        [|reflexivity].
      exfalso. apply find_some in E. destruct E as [Hx Hu].
      apply has_uuid_true in Hu.
      rewrite (stepBullets_registry delta st2 (proj1 HW2)) in Hx.
      apply in_map_iff in Hx. destruct Hx as (b & Eb & Hb').
      apply filter_In in Hb'. destruct Hb' as [Hb' Hs].
      assert (Eq : b = newBullet u p).
      { apply (unique_key_same_object (bullets st2)); auto.
        - exact (proj1 HW2).
        - subst x. exact Hu. }
      subst b. apply survives_true in Hs. destruct Hs as [_ Hs].
      rewrite Hcol in Hs. contradiction.
    + rewrite stepBullets_loopOver.
      destruct (loopOver_score_tweens delta (bullets st2) st2) as [ES _].
      rewrite ES, S.
      assert (L : (1 <= List.length
                     (flat_map (collisions delta (targets st2)) (bullets st2)))%nat).
      { apply in_split in Hin. destruct Hin as (l1 & l2 & ->).
        rewrite flat_map_app. simpl. rewrite !length_app, Hcol.
        destruct hits; [contradiction|simpl; lia]. }
      lia.
Qed.

Lemma fired_projectile_flies_in_its_first_frame_witness :
  registry_get "b1"
    (bullets
       (afterFrame (1 # 10)
          (withController (mkVector3 0 1 (-3)) true true true "b1")
          (afterRun [targetsAhead]))) =
  Some (advance (1 # 10)
          (newBullet "b1"
             (mkPrototype (mkVector3 0 1 (-3)) identityQuaternion))).
Proof.
  refine (proj1 (fired_projectile_flies_in_its_first_frame (1 # 10)
    (withController (mkVector3 0 1 (-3)) true true true "b1")
    (mkController (mkVector3 0 1 (-3)) true true)
    (mkPrototype (mkVector3 0 1 (-3)) identityQuaternion)
    (afterRun [targetsAhead]) _ _ eq_refl eq_refl eq_refl _) _).
  - exists vzero, [targetsAhead]. vm_compute. reflexivity.
  - vm_compute. reflexivity.
  - vm_compute. reflexivity.
Defined.

(** X8.  A frame creates one projectile at most, and only when it fires:
    every uuid of the registry after the frame was in it before or is the
    uuid of the clone, and the registry has grown by one object at most; in
    a frame that does not fire (no controller, no click or no prototype)
    every uuid was in it before and it has not grown. *)
Theorem frame_creates_at_most_one_projectile :
  forall delta inp st st',
    reachable st ->
    onFrame delta inp st = Ok st' ->
    (forall u,
       In u (registry_keys (bullets st')) ->
       In u (registry_keys (bullets st)) \/ (fires inp = true /\ u = cloneUuid inp)) /\
    (List.length (bullets st') <=
     List.length (bullets st) + (if fires inp then 1 else 0))%nat.
Proof.
  intros delta inp st st' HR Hf.
  destruct (onFrame_inv _ _ _ _ Hf) as (st2 & Hb & ->).
  pose proof (beforeBullets_wellFormed _ _ _ _ Hb (reachable_wellFormed st HR))
    as HW2.
  rewrite (stepBullets_registry delta st2 (proj1 HW2)).
  rewrite registry_keys_survivors, length_map.
  assert (K : forall u,
             In u (registry_keys (bullets st2)) ->
             In u (registry_keys (bullets st)) \/
             (fires inp = true /\ u = cloneUuid inp)).
  { intros u Hu. destruct (fires inp) eqn:F.
    - unfold fires in F. destruct (controllers_right inp) as [c|] eqn:Hc;
        [|discriminate].
      destruct (bulletPrototype inp) as [p|] eqn:Hp; [|discriminate].
      destruct (beforeBullets_fires _ _ _ _ _ _ Hc F Hp Hb) as [EB _].
      rewrite EB in Hu. apply registry_keys_set in Hu.
      destruct Hu as [Hu|Hu]; [now left|right; split; [reflexivity|exact Hu]].
    - destruct (beforeBullets_quiet _ _ _ _ F Hb) as [EB _].
      rewrite EB in Hu. now left. }
  assert (L : (List.length (bullets st2) <=
               List.length (bullets st) + (if fires inp then 1 else 0))%nat).
  { destruct (fires inp) eqn:F.
    - unfold fires in F. destruct (controllers_right inp) as [c|] eqn:Hc;
        [|discriminate].
      destruct (bulletPrototype inp) as [p|] eqn:Hp; [|discriminate].
      destruct (beforeBullets_fires _ _ _ _ _ _ Hc F Hp Hb) as [EB _].
      rewrite EB. unfold registry_set, registry_mutate.
      destruct (existsb _ (bullets st));
        [rewrite length_map|rewrite length_app; simpl]; lia.
    - destruct (beforeBullets_quiet _ _ _ _ F Hb) as [EB _].
      rewrite EB. lia. }
  split.
  - intros u Hu. apply K. unfold registry_keys in *.
    apply in_map_iff in Hu. destruct Hu as (b & <- & Hin).
    apply filter_In in Hin. apply in_map. tauto.
  - pose proof (filter_length_le (survives delta (targets st2)) (bullets st2)).
    lia.
Qed.

Lemma frame_creates_at_most_one_projectile_witness :
  (List.length (bullets (afterFrame (1 # 10)
                           (withController (mkVector3 0 1 (-3)) true true true "b1")
                           (initialState vzero))) <= 0 + 1)%nat.
Proof.
  refine (proj2 (frame_creates_at_most_one_projectile (1 # 10)
    (withController (mkVector3 0 1 (-3)) true true true "b1")
    (initialState vzero) _ _ eq_refl)).
  exists vzero, []. reflexivity.
Defined.

(** X9.  When a frame ends, no projectile of the registry is within range of
    a visible target: whatever was within range after its advance has scored
    and left. *)
Theorem no_projectile_left_in_range_after_frame :
  forall delta inp st st' b i t,
    reachable st ->
    onFrame delta inp st = Ok st' ->
    In b (bullets st') ->
    nth_error (targets st') i = Some t ->
    Target.visible t = true ->
    inRange b t = false.
Proof.
  intros delta inp st st' b i t HR Hf Hin Hn Hv.
  destruct (onFrame_inv _ _ _ _ Hf) as (st2 & Hb & ->).
  pose proof (beforeBullets_wellFormed _ _ _ _ Hb (reachable_wellFormed st HR))
    as HW2.
  destruct (stepBullets_outside delta st2) as (T & _). rewrite T in Hn.
  rewrite (stepBullets_registry delta st2 (proj1 HW2)) in Hin.
  apply in_map_iff in Hin. destruct Hin as (b0 & <- & Hin).
  apply filter_In in Hin. destruct Hin as [_ Hs].
  apply survives_true in Hs. destruct Hs as [Hl Hc].
  rewrite (collisions_live _ _ _ Hl) in Hc.
  now apply (hitsOf_nil_not_inRange _ (targets st2) i t).
Qed.

Lemma no_projectile_left_in_range_after_frame_witness :
  inRange
    (advance (1 # 10)
       (newBullet "b1" (mkPrototype (mkVector3 0 1 (-3)) identityQuaternion)))
    (Target.mk (mkVector3 (0 # 2) 1 (-5)) true unitScale) = false.
Proof.
  apply (no_projectile_left_in_range_after_frame (1 # 10)
           (withController (mkVector3 0 1 (-3)) true true true "b1")
           (afterRun [targetsAhead])
           (afterRun [targetsAhead; aimFrame true "b1"]) _ 0).
  - exists vzero, [targetsAhead]. vm_compute. reflexivity.
  - vm_compute. reflexivity.
  - vm_compute. left. reflexivity.
  - vm_compute. reflexivity.
  - reflexivity.
Defined.

(** ** The flight of a projectile over several frames *)

Lemma filter_map_swap {A B : Type} (f : A -> B) (p : B -> bool) l :
  filter p (map f l) = map f (filter (fun x => p (f x)) l).
Proof.
  induction l as [|x l IH]; simpl; [reflexivity|].
  destruct (p (f x)); simpl; rewrite IH; reflexivity.
Qed.

Lemma filter_filter_and {A : Type} (p q : A -> bool) l :
  filter p (filter q l) = filter (fun x => q x && p x) l.
Proof.
  induction l as [|x l IH]; simpl; [reflexivity|].
  destruct (q x); simpl; [destruct (p x); simpl; rewrite IH|]; auto.
Qed.

(** One frame that does not fire, with no visible target. *)
Lemma quiet_frame_registry delta inp st st' :
  wellFormed st ->
  visibleTargets (targets st) = [] ->
  fires inp = false ->
  onFrame delta inp st = Ok st' ->
  bullets st' = map (advance delta) (filter (aliveThrough [delta]) (bullets st)) /\
  targets st' = targets st /\ wellFormed st'.
Proof.
  intros HW HV F Hf.
  destruct (onFrame_inv _ _ _ _ Hf) as (st2 & Hb & ->).
  pose proof (beforeBullets_wellFormed _ _ _ _ Hb HW) as HW2.
  destruct (beforeBullets_quiet _ _ _ _ F Hb) as [EB _].
  destruct (beforeBullets_frame_fields _ _ _ _ Hb) as (_ & _ & T & _).
  destruct (stepBullets_outside delta st2) as (T2 & _).
  split; [|split].
  - rewrite (stepBullets_registry delta st2 (proj1 HW2)), T, EB.
    f_equal. apply filter_ext. intro b.
    unfold survives, collisions. rewrite HV. simpl.
    destruct (Qltb (Bullet.timeToLive b) 0); reflexivity.
  - congruence.
  - now apply stepBullets_wellFormed.
Qed.

Lemma quiet_frames_registry fs :
  forall st st',
    wellFormed st ->
    visibleTargets (targets st) = [] ->
    Forall quietFrame fs ->
    run (frames fs) st = Some st' ->
    bullets st' =
      map (flightOf (map fst fs)) (filter (aliveThrough (map fst fs)) (bullets st)) /\
    wellFormed st'.
Proof.
  induction fs as [|[d inp] fs IH]; intros st st' HW HV HQ Hrun.
  - simpl in Hrun. inversion Hrun. subst st'. simpl.
    split; [|exact HW].
    rewrite map_id. induction (bullets st) as [|x l IHl]; simpl; congruence.
  - cbn [frames map run applyEvent fst snd] in Hrun.
    destruct (onFrame d inp st) as [s1|] eqn:E; [|discriminate].
    pose proof (Forall_inv HQ) as [_ Hq]. pose proof (Forall_inv_tail HQ) as HQ'.
    simpl in Hq.
    destruct (quiet_frame_registry d inp st s1 HW HV Hq E) as (B1 & T1 & W1).
    rewrite <- T1 in HV.
    destruct (IH s1 st' W1 HV HQ' Hrun) as [B W]. split; [|exact W].
    rewrite B, B1, filter_map_swap, map_map, filter_filter_and.
    cbn [map fst]. f_equal. apply filter_ext. intro b. simpl.
    rewrite andb_true_r. reflexivity.
Qed.

Lemma advance_keeps_identity d b :
  Bullet.uuid (advance d b) = Bullet.uuid b /\
  Bullet.velocity (advance d b) = Bullet.velocity b /\
  Bullet.quaternion (advance d b) = Bullet.quaternion b.
Proof. repeat split. Qed.

(** Over frames of non-negative length, the advances never give a projectile
    time to live and never move it against its velocity. *)
Lemma flightOf_monotone ds :
  Forall (fun d => 0 <= d) ds ->
  forall b,
    Bullet.uuid (flightOf ds b) = Bullet.uuid b /\
    Bullet.velocity (flightOf ds b) = Bullet.velocity b /\
    Bullet.quaternion (flightOf ds b) = Bullet.quaternion b /\
    Bullet.timeToLive (flightOf ds b) <= Bullet.timeToLive b /\
    (0 <= vx (Bullet.velocity b) ->
     vx (Bullet.position b) <= vx (Bullet.position (flightOf ds b))) /\
    (vx (Bullet.velocity b) <= 0 ->
     vx (Bullet.position (flightOf ds b)) <= vx (Bullet.position b)) /\
    (0 <= vy (Bullet.velocity b) ->
     vy (Bullet.position b) <= vy (Bullet.position (flightOf ds b))) /\
    (vy (Bullet.velocity b) <= 0 ->
     vy (Bullet.position (flightOf ds b)) <= vy (Bullet.position b)) /\
    (0 <= vz (Bullet.velocity b) ->
     vz (Bullet.position b) <= vz (Bullet.position (flightOf ds b))) /\
    (vz (Bullet.velocity b) <= 0 ->
     vz (Bullet.position (flightOf ds b)) <= vz (Bullet.position b)).
Proof.
  induction 1 as [|d ds Hd _ IH]; intro b.
  - simpl. repeat split; intros; apply Qle_refl.
  - change (flightOf (d :: ds) b) with (flightOf ds (advance d b)).
    destruct (IH (advance d b))
      as (U & V & R & T & X1 & X2 & Y1 & Y2 & Z1 & Z2).
    rewrite U, V, R. simpl in T, X1, X2, Y1, Y2, Z1, Z2.
    repeat split; try reflexivity; try lra; intro H.
    + specialize (X1 H). nra.
    + specialize (X2 H). nra.
    + specialize (Y1 H). nra.
    + specialize (Y2 H). nra.
    + specialize (Z1 H). nra.
    + specialize (Z2 H). nra.
Qed.

Lemma aliveThrough_last_test ds :
  Forall (fun x => 0 <= x) ds ->
  forall d b,
    aliveThrough (ds ++ [d]) b = true <->
    0 <= Bullet.timeToLive (flightOf ds b).
Proof.
  induction 1 as [|d0 ds H0 HF IH]; intros d b.
  - simpl. rewrite andb_true_r, negb_true_iff. apply Qltb_ge.
  - change (flightOf (d0 :: ds) b) with (flightOf ds (advance d0 b)).
    simpl. rewrite andb_true_iff, negb_true_iff, Qltb_ge, (IH d (advance d0 b)).
    destruct (flightOf_monotone ds HF (advance d0 b)) as (_ & _ & _ & T & _).
    simpl in T. split; [tauto|]. intro K. split; [lra|exact K].
Qed.

(** X10.  The life of a projectile, in frames of non-negative length that
    fire nothing and see no visible target: the projectile is still in the
    registry when a frame ends exactly when its [timeToLive], lowered by the
    code in each of the frames before, was not negative when that frame
    began.  The decrement of the frame itself does not count, and a
    projectile whose [timeToLive] has gone negative is never seen again. *)
Theorem projectile_registered_while_ttl_not_negative_at_frame_start :
  forall fs f st st' b,
    reachable st ->
    visibleTargets (targets st) = [] ->
    Forall quietFrame (fs ++ [f]) ->
    run (frames (fs ++ [f])) st = Some st' ->
    In b (bullets st) ->
    (In (Bullet.uuid b) (registry_keys (bullets st')) <->
     0 <= Bullet.timeToLive (flightOf (map fst fs) b)).
Proof.
  intros fs f st st' b HR HV HQ Hrun Hin.
  pose proof (reachable_wellFormed st HR) as HW.
  destruct (quiet_frames_registry _ _ _ HW HV HQ Hrun) as [B _].
  rewrite map_app in B. simpl in B.
  assert (HF : Forall (fun x => 0 <= x) (map fst (fs ++ [f]))).
  { apply Forall_forall. intros d Hd. apply in_map_iff in Hd.
    destruct Hd as (g & <- & Hg). rewrite Forall_forall in HQ.
    now apply (HQ g). }
  assert (HF' : Forall (fun x => 0 <= x) (map fst fs)).
  { rewrite map_app in HF. now apply Forall_app in HF. }
  rewrite map_app in HF. simpl in HF.
  rewrite <- (aliveThrough_last_test (map fst fs) HF' (fst f) b), B.
  unfold registry_keys. rewrite in_map_iff. split.
  - intros (x & Ex & Hx). apply in_map_iff in Hx.
    destruct Hx as (y & <- & Hy). apply filter_In in Hy.
    destruct Hy as [Hy Ha].
    destruct (flightOf_monotone _ HF y) as (U & _).
    rewrite U in Ex.
    now rewrite <- (unique_key_same_object _ _ _ (proj1 HW) Hy Hin Ex).
  - intro Ha. exists (flightOf (map fst fs ++ [fst f]) b). split.
    + apply (flightOf_monotone _ HF b).
    + apply in_map. apply filter_In. now split.
Qed.

Lemma projectile_registered_while_ttl_not_negative_at_frame_start_witness :
  In "b1"%string (registry_keys (bullets (afterRun shotInEmptyRoom))).
Proof.
  refine (proj2 (projectile_registered_while_ttl_not_negative_at_frame_start
                   [(1 # 2, quietInput)] (1 # 2, quietInput) firedOnce
                   (afterRun shotInEmptyRoom) firstBullet _ _ _ _ _) _).
  - exists vzero,
      [Frame (1 # 2) (withController (mkVector3 0 1 0) true true true "b1")].
    vm_compute. reflexivity.
  - reflexivity.
  - repeat constructor; vm_compute; discriminate.
  - vm_compute. reflexivity.
  - vm_compute. left. reflexivity.
  - vm_compute. discriminate.
Defined.

(** X11.  The flight of a projectile, in such frames: as long as it is in
    the registry it keeps its velocity and its orientation, its [timeToLive]
    never grows, and on each axis it never moves against its velocity: with
    a velocity component that is zero or positive the coordinate never
    decreases, with one that is zero or negative it never increases. *)
Theorem projectile_never_turns_back :
  forall fs st st' b b',
    reachable st ->
    visibleTargets (targets st) = [] ->
    Forall quietFrame fs ->
    run (frames fs) st = Some st' ->
    In b (bullets st) ->
    registry_get (Bullet.uuid b) (bullets st') = Some b' ->
    Bullet.velocity b' = Bullet.velocity b /\
    Bullet.quaternion b' = Bullet.quaternion b /\
    Bullet.timeToLive b' <= Bullet.timeToLive b /\
    (0 <= vx (Bullet.velocity b) ->
     vx (Bullet.position b) <= vx (Bullet.position b')) /\
    (vx (Bullet.velocity b) <= 0 ->
     vx (Bullet.position b') <= vx (Bullet.position b)) /\
    (0 <= vy (Bullet.velocity b) ->
     vy (Bullet.position b) <= vy (Bullet.position b')) /\
    (vy (Bullet.velocity b) <= 0 ->
     vy (Bullet.position b') <= vy (Bullet.position b)) /\
    (0 <= vz (Bullet.velocity b) ->
     vz (Bullet.position b) <= vz (Bullet.position b')) /\
    (vz (Bullet.velocity b) <= 0 ->
     vz (Bullet.position b') <= vz (Bullet.position b)).
Proof.
  intros fs st st' b b' HR HV HQ Hrun Hin Hget.
  pose proof (reachable_wellFormed st HR) as HW.
  destruct (quiet_frames_registry _ _ _ HW HV HQ Hrun) as [B _].
  assert (HF : Forall (fun x => 0 <= x) (map fst fs)).
  { apply Forall_forall. intros d Hd. apply in_map_iff in Hd.
    destruct Hd as (g & <- & Hg). rewrite Forall_forall in HQ.
    now apply (HQ g). }
  apply find_some in Hget. destruct Hget as [Hb' Hu].
  apply has_uuid_true in Hu. rewrite B in Hb'.
  apply in_map_iff in Hb'. destruct Hb' as (y & <- & Hy).
  apply filter_In in Hy. destruct Hy as [Hy _].
  destruct (flightOf_monotone _ HF y) as (U & R).
  rewrite U in Hu.
  rewrite (unique_key_same_object _ _ _ (proj1 HW) Hy Hin Hu) in *.
  exact R.
Qed.

Lemma projectile_never_turns_back_witness :
  vz (Bullet.position (flightOf [1 # 2; 1 # 2] firstBullet)) <=
  vz (Bullet.position firstBullet).
Proof.
  refine (proj2 (proj2 (proj2 (proj2 (proj2 (proj2 (proj2 (proj2
    (projectile_never_turns_back
       [(1 # 2, quietInput); (1 # 2, quietInput)] firedOnce
       (afterRun shotInEmptyRoom) firstBullet
       (flightOf [1 # 2; 1 # 2] firstBullet) _ _ _ _ _ _)))))))) _).
  - exists vzero,
      [Frame (1 # 2) (withController (mkVector3 0 1 0) true true true "b1")].
    vm_compute. reflexivity.
  - reflexivity.
  - repeat constructor; vm_compute; discriminate.
  - vm_compute. reflexivity.
  - vm_compute. left. reflexivity.
  - vm_compute. reflexivity.
  - vm_compute. discriminate.
Defined.

(** ** The targets between hits *)

Lemma isRandom_range r : isRandom r = true -> 0 <= r /\ r < 1.
Proof.
  unfold isRandom. rewrite andb_true_iff, Qltb_lt.
  intros [H1 H2]. split; [now apply Qle_bool_iff|exact H2].
Qed.

Lemma random_place_inGallery rx rz y v s :
  isRandom rx = true -> isRandom rz = true ->
  inGallery (Target.mk (mkVector3 (rx * 10 - 5) y (- rz * 5 - 5)) v s).
Proof.
  intros Hx Hz. apply isRandom_range in Hx, Hz. unfold inGallery. simpl.
  repeat split; lra.
Qed.

Lemma length_update_nth {A : Type} (f : A -> A) (l : list A) :
  forall j, List.length (update_nth j f l) = List.length l.
Proof.
  induction l as [|x l IH]; intro j; destruct j; simpl; auto.
Qed.

Lemma update_nth_all {A : Type} (P : A -> Prop) (f : A -> A) (l : list A) j :
  (forall i t, nth_error l i = Some t -> P t) ->
  (forall t, P t -> P (f t)) ->
  forall i t, nth_error (update_nth j f l) i = Some t -> P t.
Proof.
  intros HP Hf i t. rewrite nth_error_update_nth.
  destruct (Nat.eqb i j); [|apply HP].
  destruct (nth_error l i) as [t0|] eqn:E; simpl; [|discriminate].
  intro H. inversion H. apply Hf. now apply (HP i).
Qed.

Lemma onFrame_targets_timers delta inp st st' :
  onFrame delta inp st = Ok st' ->
  targets st' = targets st /\ timers st' = timers st.
Proof.
  intro Hf. destruct (onFrame_inv _ _ _ _ Hf) as (st2 & Hb & ->).
  destruct (beforeBullets_frame_fields _ _ _ _ Hb) as (_ & _ & T & _ & M).
  destruct (stepBullets_outside delta st2) as (T2 & _ & _ & _ & _ & M2).
  split; congruence.
Qed.

Lemma applyEvent_inGallery e st st' :
  applyEvent e st = Some st' -> targetsInGallery st -> targetsInGallery st'.
Proof.
  destruct e as [delta inp|r0 r1 r2| |tw s|i|i rx rz|i];
    unfold applyEvent; intros H HG.
  - destruct (onFrame delta inp st) as [s|] eqn:E; [|discriminate].
    inversion H; subst s. destruct (onFrame_targets_timers _ _ _ _ E) as [T _].
    unfold targetsInGallery. rewrite T. exact HG.
  - destruct (targets st) eqn:ET; [|discriminate].
    destruct (isRandomPair r0 && isRandomPair r1 && isRandomPair r2) eqn:R;
      [|discriminate].
    apply andb_true_iff in R. destruct R as [R R2].
    apply andb_true_iff in R. destruct R as [R0 R1].
    unfold isRandomPair in R0, R1, R2.
    apply andb_true_iff in R0, R1, R2.
    destruct r0 as [x0 z0], r1 as [x1 z1], r2 as [x2 z2]. simpl in R0, R1, R2.
    inversion H. clear H. unfold targetsInGallery. simpl. rewrite ET. simpl.
    intros [|[|[|[|i]]]] t E; simpl in E; inversion E;
      apply random_place_inGallery; tauto.
  - inversion H. exact HG.
  - destruct (existsb (Tween_eqb tw) (tweens st)); [|discriminate].
    inversion H. unfold targetsInGallery. simpl.
    apply update_nth_all; [exact HG|trivial].
  - destruct (existsb (Tween_eqb (Shrink i)) (tweens st)); [|discriminate].
    inversion H. unfold targetsInGallery. simpl.
    apply update_nth_all; [exact HG|trivial].
  - destruct (existsb (Nat.eqb i) (timers st) && isRandom rx && isRandom rz)
      eqn:R; [|discriminate].
    apply andb_true_iff in R. destruct R as [R Rz].
    apply andb_true_iff in R. destruct R as [_ Rx].
    inversion H. unfold targetsInGallery. simpl.
    apply update_nth_all; [exact HG|].
    intros t _. destruct t as [p v s]. unfold Target.set_position_xz,
      Target.set_visible. simpl. now apply random_place_inGallery.
  - destruct (existsb (Tween_eqb (Grow i)) (tweens st)); [|discriminate].
    inversion H. unfold targetsInGallery. simpl.
    apply update_nth_all; [exact HG|trivial].
Qed.

Lemma applyEvent_target_count e st st' :
  applyEvent e st = Some st' ->
  (targets st = [] \/ List.length (targets st) = 3%nat) ->
  (targets st' = [] \/ List.length (targets st') = 3%nat).
Proof.
  destruct e as [delta inp|r0 r1 r2| |tw s|i|i rx rz|i];
    unfold applyEvent; intros H HC.
  - destruct (onFrame delta inp st) as [s|] eqn:E; [|discriminate].
    inversion H; subst s. destruct (onFrame_targets_timers _ _ _ _ E) as [T _].
    rewrite T. exact HC.
  - destruct (targets st) eqn:ET; [|discriminate].
    destruct (isRandomPair r0 && isRandomPair r1 && isRandomPair r2);
      [|discriminate].
    inversion H. destruct r0, r1, r2. right. simpl. rewrite ET. reflexivity.
  - inversion H. exact HC.
  - destruct (existsb (Tween_eqb tw) (tweens st)); [|discriminate].
    inversion H. simpl. rewrite length_update_nth.
    destruct HC as [HC|HC]; [left; rewrite HC; destruct (tween_target tw)|right];
      auto.
  - destruct (existsb (Tween_eqb (Shrink i)) (tweens st)); [|discriminate].
    inversion H. simpl. rewrite length_update_nth.
    destruct HC as [HC|HC]; [left; rewrite HC; destruct i|right]; auto.
  - destruct (existsb (Nat.eqb i) (timers st) && isRandom rx && isRandom rz);
      [|discriminate].
    inversion H. simpl. rewrite length_update_nth.
    destruct HC as [HC|HC]; [left; rewrite HC; destruct i|right]; auto.
  - destruct (existsb (Tween_eqb (Grow i)) (tweens st)); [|discriminate].
    inversion H. simpl. rewrite length_update_nth.
    destruct HC as [HC|HC]; [left; rewrite HC; destruct i|right]; auto.
Qed.

(** X12.  In every state the game reaches there are no targets or three of
    them, and each target is in the gallery: its x lies in [-5, 5), its z in
    [-10, -5], and its height is the one the loader gave it, 1, 3 or 5 for
    the targets 0, 1 and 2.  Neither a frame nor a respawn takes a target
    out of that box. *)
Theorem targets_stay_in_the_gallery :
  forall st,
    reachable st ->
    (targets st = [] \/ List.length (targets st) = 3%nat) /\
    forall i t,
      nth_error (targets st) i = Some t ->
      inGallery t /\
      vy (Target.position t) = inject_Z (Z.of_nat i) * 2 + 1 /\
      (i < 3)%nat.
Proof.
  intros st HR. pose proof (reachable_laidOut st HR) as HL.
  destruct HR as (c & es & Hrun).
  assert (G : forall es s s',
             run es s = Some s' ->
             targetsInGallery s /\
             (targets s = [] \/ List.length (targets s) = 3%nat) ->
             targetsInGallery s' /\
             (targets s' = [] \/ List.length (targets s') = 3%nat)).
  { clear. induction es as [|e es IH]; intros s s' H HS; cbn [run] in H.
    - inversion H. now subst.
    - destruct (applyEvent e s) as [s1|] eqn:E; [|discriminate].
      apply (IH _ _ H). destruct HS as [H1 H2]. split.
      + eapply applyEvent_inGallery; eauto.
      + eapply applyEvent_target_count; eauto. }
  destruct (G es _ _ Hrun) as [HG HC].
  { split; [intros i t E; destruct i; discriminate|now left]. }
  split; [exact HC|]. intros i t E. split; [now apply (HG i)|].
  split; [now apply HL|].
  assert (Hi : (i < List.length (targets st))%nat)
    by (apply nth_error_Some; congruence).
  destruct HC as [HC|HC]; [rewrite HC in Hi; simpl in Hi|]; lia.
Qed.

Lemma targets_stay_in_the_gallery_witness :
  inGallery (Target.mk (mkVector3 ((7 # 10) * 10 - 5) 1 (- (1 # 5) * 5 - 5))
               true vzero).
Proof.
  refine (proj1 (proj2 (targets_stay_in_the_gallery
    (afterRun (oneShot ++ [ShrinkComplete 0; RespawnTimeout 0 (7 # 10) (1 # 5)]))
    _) 0%nat _ _)).
  - exists vzero,
      (oneShot ++ [ShrinkComplete 0; RespawnTimeout 0 (7 # 10) (1 # 5)]).
    vm_compute. reflexivity.
  - vm_compute. reflexivity.
Defined.

(** ** Hidden targets *)

Lemma remove_first_other (j i : nat) l :
  In i l -> i <> j -> In i (remove_first Nat.eqb j l).
Proof.
  induction l as [|x l IH]; simpl; intros Hin Hne; [contradiction|].
  destruct (Nat.eqb x j) eqn:E.
  - apply Nat.eqb_eq in E. destruct Hin as [->|Hin]; [congruence|exact Hin].
  - destruct Hin as [->|Hin]; [now left|right; now apply IH].
Qed.

Lemma applyEvent_hiddenHaveTimer e st st' :
  applyEvent e st = Some st' -> hiddenHaveTimer st -> hiddenHaveTimer st'.
Proof.
  destruct e as [delta inp|r0 r1 r2| |tw s|j|j rx rz|j];
    unfold applyEvent; intros H HH.
  - destruct (onFrame delta inp st) as [s|] eqn:E; [|discriminate].
    inversion H; subst s.
    destruct (onFrame_targets_timers _ _ _ _ E) as [T M].
    unfold hiddenHaveTimer. rewrite T, M. exact HH.
  - destruct (targets st) eqn:ET; [|discriminate].
    destruct (isRandomPair r0 && isRandomPair r1 && isRandomPair r2);
      [|discriminate].
    inversion H. destruct r0, r1, r2. unfold hiddenHaveTimer. simpl.
    rewrite ET. simpl.
    intros [|[|[|[|i]]]] t E V; simpl in E; inversion E; subst t;
      discriminate.
  - inversion H. exact HH.
  - destruct (existsb (Tween_eqb tw) (tweens st)); [|discriminate].
    inversion H. unfold hiddenHaveTimer. simpl. intros i t.
    rewrite nth_error_update_nth.
    destruct (Nat.eqb i (tween_target tw)); [|apply HH].
    destruct (nth_error (targets st) i) as [t0|] eqn:E; simpl; [|discriminate].
    intros Ht V. inversion Ht. subst t. simpl in V. now apply (HH i t0).
  - destruct (existsb (Tween_eqb (Shrink j)) (tweens st)); [|discriminate].
    inversion H. unfold hiddenHaveTimer. simpl. intros i t.
    rewrite nth_error_update_nth, in_app_iff.
    destruct (Nat.eqb i j) eqn:Eij.
    + apply Nat.eqb_eq in Eij. subst. intros _ _. right. now left.
    + intros Ht V. left. now apply (HH i t).
  - destruct (existsb (Nat.eqb j) (timers st) && isRandom rx && isRandom rz);
      [|discriminate].
    inversion H. unfold hiddenHaveTimer. simpl. intros i t.
    rewrite nth_error_update_nth.
    destruct (Nat.eqb i j) eqn:Eij.
    + destruct (nth_error (targets st) i) as [t0|]; simpl; [|discriminate].
      intros Ht V. inversion Ht. subst t. discriminate.
    + intros Ht V. apply remove_first_other; [now apply (HH i t)|].
      now apply Nat.eqb_neq.
  - destruct (existsb (Tween_eqb (Grow j)) (tweens st)); [|discriminate].
    inversion H. unfold hiddenHaveTimer. simpl. intros i t.
    rewrite nth_error_update_nth.
    destruct (Nat.eqb i j); [|apply HH].
    destruct (nth_error (targets st) i) as [t0|] eqn:E; simpl; [|discriminate].
    intros Ht V. inversion Ht. subst t. simpl in V. now apply (HH i t0).
Qed.

(** X13.  In every state the game reaches, a target that is hidden has a
    respawn timer pending: the flag is cleared only by the callback that arms
    the timer, and a timer is consumed only by the callback that sets the
    flag again.  No target is left hidden without a respawn under way. *)
Theorem hidden_target_has_respawn_timer :
  forall st i t,
    reachable st ->
    nth_error (targets st) i = Some t ->
    Target.visible t = false ->
    In i (timers st).
Proof.
  intros st i t (c & es & Hrun).
  assert (G : forall es s s',
             run es s = Some s' -> hiddenHaveTimer s -> hiddenHaveTimer s').
  { clear. induction es as [|e es IH]; intros s s' H HS; cbn [run] in H.
    - inversion H. now subst.
    - destruct (applyEvent e s) as [s1|] eqn:E; [|discriminate].
      apply (IH _ _ H). eapply applyEvent_hiddenHaveTimer; eauto. }
  apply (G es _ _ Hrun). intros j t0 E. destruct j; discriminate.
Qed.

Lemma hidden_target_has_respawn_timer_witness :
  In 0%nat (timers (afterRun twoShotsShrinkDone)).
Proof.
  apply (hidden_target_has_respawn_timer (afterRun twoShotsShrinkDone) 0
           (Target.mk (mkVector3 (0 # 2) 1 (-5)) false vzero)).
  - exists vzero, twoShotsShrinkDone. vm_compute. reflexivity.
  - vm_compute. reflexivity.
  - reflexivity.
Defined.

(** ** The scene *)

Lemma beforeBullets_scene_fixtures delta inp st st2 :
  beforeBullets delta inp st = Ok st2 ->
  forall o, isBullet o = false -> (In o (scene st2) <-> In o (scene st)).
Proof.
  intros Hb o Ho. destruct (fires inp) eqn:F.
  - unfold fires in F. destruct (controllers_right inp) as [c|] eqn:Hc;
      [|discriminate].
    destruct (bulletPrototype inp) as [p|] eqn:Hp; [|discriminate].
    destruct (beforeBullets_fires _ _ _ _ _ _ Hc F Hp Hb) as [_ ES].
    rewrite ES, scene_add_In. split; [|now left].
    intros [H|H]; [exact H|subst o; discriminate].
  - destruct (beforeBullets_quiet _ _ _ _ F Hb) as [_ ES]. now rewrite ES.
Qed.

(** X14.  A frame adds to the scene and removes from it nothing but
    projectiles: the children that are not projectiles (the score text, the
    space station, the targets) are the same before and after. *)
Theorem frame_moves_only_projectiles_in_and_out_of_scene :
  forall delta inp st st' o,
    onFrame delta inp st = Ok st' ->
    isBullet o = false ->
    (In o (scene st') <-> In o (scene st)).
Proof.
  intros delta inp st st' o Hf Ho.
  destruct (onFrame_inv _ _ _ _ Hf) as (st2 & Hb & ->).
  rewrite <- (beforeBullets_scene_fixtures _ _ _ _ Hb o Ho).
  rewrite stepBullets_loopOver, loopOver_scene, sceneAfter_In.
  split; [tauto|]. intro H. split; [exact H|].
  intros b _ _ E. subst o. discriminate.
Qed.

Lemma frame_moves_only_projectiles_in_and_out_of_scene_witness :
  In (ObjTarget 0) (scene (afterRun oneShot)).
Proof.
  refine (proj2 (frame_moves_only_projectiles_in_and_out_of_scene (1 # 10)
    (withController (mkVector3 0 1 (-3)) false true true "")
    (afterRun [targetsAhead; aimFrame true "b1"]) (afterRun oneShot)
    (ObjTarget 0) _ eq_refl) _).
  - vm_compute. reflexivity.
  - vm_compute. right. left. reflexivity.
Defined.

Lemma addTarget_fixtures st ir :
  fixturesInScene st -> fixturesInScene (addTarget st ir).
Proof.
  intros [HS HT]. destruct ir as [i [rx rz]]. unfold fixturesInScene. simpl.
  split; [apply scene_add_In; now left|].
  intros j Hj. rewrite length_app in Hj. simpl in Hj. apply scene_add_In.
  destruct (Nat.eq_dec j (List.length (targets st))) as [->|Hne];
    [now right|left; apply HT; lia].
Qed.

Lemma applyEvent_fixtures e st st' :
  applyEvent e st = Some st' -> fixturesInScene st -> fixturesInScene st'.
Proof.
  destruct e as [delta inp|r0 r1 r2| |tw s|j|j rx rz|j];
    unfold applyEvent; intros H HF.
  - destruct (onFrame delta inp st) as [s|] eqn:E; [|discriminate].
    inversion H; subst s.
    destruct (onFrame_targets_timers _ _ _ _ E) as [T _].
    destruct (onFrame_inv _ _ _ _ E) as (st2 & Hb & Es).
    assert (K : forall o, isBullet o = false ->
                          In o (scene st) -> In o (scene st')).
    { intros o Ho Hin. subst st'.
      rewrite stepBullets_loopOver, loopOver_scene, sceneAfter_In.
      split; [now apply (beforeBullets_scene_fixtures _ _ _ _ Hb o Ho)|].
      intros b _ _ Eo. subst o. discriminate. }
    destruct HF as [HS HT]. split; [now apply K|].
    intros i Hi. rewrite T in Hi. apply K; [reflexivity|now apply HT].
  - destruct (targets st); [|discriminate].
    destruct (isRandomPair r0 && isRandomPair r1 && isRandomPair r2);
      [|discriminate].
    assert (E : st' = addTarget (addTarget (addTarget st (0%nat, r0))
                                   (1%nat, r1)) (2%nat, r2))
      by (inversion H; reflexivity).
    subst st'. now repeat apply addTarget_fixtures.
  - inversion H. destruct HF as [HS HT]. split; simpl.
    + apply scene_add_In. now left.
    + intros i Hi. apply scene_add_In. left. now apply HT.
  - destruct (existsb (Tween_eqb tw) (tweens st)); [|discriminate].
    inversion H. destruct HF as [HS HT]. split; simpl; [exact HS|].
    intros i Hi. rewrite length_update_nth in Hi. now apply HT.
  - destruct (existsb (Tween_eqb (Shrink j)) (tweens st)); [|discriminate].
    inversion H. destruct HF as [HS HT]. split; simpl; [exact HS|].
    intros i Hi. rewrite length_update_nth in Hi. now apply HT.
  - destruct (existsb (Nat.eqb j) (timers st) && isRandom rx && isRandom rz);
      [|discriminate].
    inversion H. destruct HF as [HS HT]. split; simpl; [exact HS|].
    intros i Hi. rewrite length_update_nth in Hi. now apply HT.
  - destruct (existsb (Tween_eqb (Grow j)) (tweens st)); [|discriminate].
    inversion H. destruct HF as [HS HT]. split; simpl; [exact HS|].
    intros i Hi. rewrite length_update_nth in Hi. now apply HT.
Qed.

(** X15.  In every state the game reaches, the score text is a child of the
    scene and so is every target of [targets]: a hit hides a target and
    moves it, and nothing ever detaches it. *)
Theorem score_text_and_targets_stay_in_scene :
  forall st,
    reachable st ->
    In ObjScoreText (scene st) /\
    forall i, (i < List.length (targets st))%nat -> In (ObjTarget i) (scene st).
Proof.
  intros st (c & es & Hrun).
  assert (G : forall es s s',
             run es s = Some s' -> fixturesInScene s -> fixturesInScene s').
  { clear. induction es as [|e es IH]; intros s s' H HS; cbn [run] in H.
    - inversion H. now subst.
    - destruct (applyEvent e s) as [s1|] eqn:E; [|discriminate].
      apply (IH _ _ H). eapply applyEvent_fixtures; eauto. }
  apply (G es _ _ Hrun). split; [now left|].
  intros i Hi. simpl in Hi. lia.
Qed.

Lemma score_text_and_targets_stay_in_scene_witness :
  In ObjScoreText (scene (afterRun twoShotsShrinkDone)).
Proof.
  refine (proj1 (score_text_and_targets_stay_in_scene
                   (afterRun twoShotsShrinkDone) _)).
  exists vzero, twoShotsShrinkDone. vm_compute. reflexivity.
Defined.

(** ** The filters over a frame *)

Lemma Math_max_epsilon_pos delta : 0 < Math_max delta epsilonDelta.
Proof.
  unfold epsilonDelta.
  destruct (Math_max_spec delta (1 # 1000)) as [[H E]|[H E]]; rewrite E; lra.
Qed.

Lemma clamp_inside v m : - m <= v -> v <= m -> clamp v (- m) m == v.
Proof.
  intros H1 H2. unfold clamp.
  destruct (Math_min_spec m v) as [[A E]|[A E]]; rewrite E;
  destruct (Math_max_spec (- m) m) as [[B F]|[B F]];
  destruct (Math_max_spec (- m) v) as [[C G]|[C G]];
  rewrite ?F, ?G; lra.
Qed.

Lemma clamp_above v m : 0 <= m -> m <= v -> clamp v (- m) m == m.
Proof.
  intros H1 H2. unfold clamp.
  destruct (Math_min_spec m v) as [[A E]|[A E]]; rewrite E;
  destruct (Math_max_spec (- m) m) as [[B F]|[B F]];
  destruct (Math_max_spec (- m) v) as [[C G]|[C G]];
  rewrite ?F, ?G; lra.
Qed.

Lemma clamp_below v m : 0 <= m -> v <= - m -> clamp v (- m) m == - m.
Proof.
  intros H1 H2. unfold clamp.
  destruct (Math_min_spec m v) as [[A E]|[A E]]; rewrite E;
  destruct (Math_max_spec (- m) m) as [[B F]|[B F]];
  destruct (Math_max_spec (- m) v) as [[C G]|[C G]];
  rewrite ?F, ?G; lra.
Qed.

Lemma clamp_sign v m :
  0 <= m ->
  (v <= 0 -> clamp v (- m) m <= 0) /\ (0 <= v -> 0 <= clamp v (- m) m).
Proof.
  intro Hm. unfold clamp.
  destruct (Math_min_spec m v) as [[A E]|[A E]]; rewrite E;
  destruct (Math_max_spec (- m) m) as [[B F]|[B F]];
  destruct (Math_max_spec (- m) v) as [[C G]|[C G]];
  rewrite ?F, ?G; split; intro; lra.
Qed.

(** The liquid filter a frame leaves: the spring update at the reference
    position, whether or not the frame attaches the blaster. *)
Lemma beforeBullets_liquid_state delta inp st st2 :
  beforeBullets delta inp st = Ok st2 ->
  liquidSphereInertia st2 =
    updateLiquid delta (referencePosition inp) (liquidSphereInertia st).
Proof.
  unfold beforeBullets, referencePosition.
  destruct (controllers_right inp) as [c|].
  - set (st1 := set_liquidSphereInertia _ st).
    destruct (rightController_ok delta inp c st1) as (st' & E & _ & L & _).
    rewrite E. intro H. inversion H; subst st2. rewrite L.
    unfold attachBlaster, st1. cbn [blasterAttached set_liquidSphereInertia].
    destruct (blasterAttached st); reflexivity.
  - intro H. inversion H. reflexivity.
Qed.

Lemma rightController_attached delta inp c st st' :
  rightController delta inp c st = Ok st' ->
  blasterAttached st' = true /\
  blasterRotation st' =
    (BlasterInertia.tiltY (blasterInertia st'),
     BlasterInertia.tiltZ (blasterInertia st')).
Proof.
  unfold rightController.
  assert (HA : blasterAttached (attachBlaster c st) = true).
  { unfold attachBlaster. destruct (blasterAttached st) eqn:E;
      [exact E|reflexivity]. }
  destruct (triggerClick c).
  - rewrite onTrigger_ok. intro H. inversion H. clear H.
    unfold spawn. destruct (bulletPrototype inp); simpl; split;
      (exact HA || reflexivity).
  - intro H. inversion H. simpl. split; [exact HA|reflexivity].
Qed.

Lemma onFrame_filters delta inp st st' :
  onFrame delta inp st = Ok st' ->
  liquidSphereInertia st' =
    updateLiquid delta (referencePosition inp) (liquidSphereInertia st) /\
  blasterInertia st' =
    match controllers_right inp with
    | Some c =>
        updateBlaster delta (raySpace_worldPosition c)
          (blasterInertia (attachBlaster c st))
    | None => blasterInertia st
    end.
Proof.
  intro Hf. destruct (onFrame_inv _ _ _ _ Hf) as (st2 & Hb & ->).
  destruct (stepBullets_outside delta st2) as (_ & EB & EL & _).
  rewrite EB, EL, (beforeBullets_liquid_state _ _ _ _ Hb).
  split; [reflexivity|].
  destruct (controllers_right inp) as [c|] eqn:Hc.
  - exact (beforeBullets_blaster _ _ _ _ _ Hc Hb).
  - exact (beforeBullets_no_controller _ _ _ _ Hc Hb).
Qed.

(** X16.  What a frame leaves in the filters' bookkeeping.  The liquid
    filter is the spring update of the old one at the frame's reference
    position, the controller's when there is a controller and the camera's
    otherwise, and its [prevPos] is that position; attaching the blaster in
    the same frame changes nothing to it.  With a controller, the blaster is
    attached when the frame ends and its filter's [prevPos] is the
    controller's position; without one, the blaster's filter is untouched. *)
Theorem frame_samples_reference_positions :
  forall delta inp st st',
    onFrame delta inp st = Ok st' ->
    liquidSphereInertia st' =
      updateLiquid delta (referencePosition inp) (liquidSphereInertia st) /\
    LiquidSphereInertia.prevPos (liquidSphereInertia st') = referencePosition inp /\
    match controllers_right inp with
    | Some c =>
        blasterAttached st' = true /\
        BlasterInertia.prevPos (blasterInertia st') = raySpace_worldPosition c
    | None =>
        blasterInertia st' = blasterInertia st /\
        blasterAttached st' = blasterAttached st
    end.
Proof.
  intros delta inp st st' Hf.
  destruct (onFrame_inv _ _ _ _ Hf) as (st2 & Hb & ->).
  destruct (stepBullets_outside delta st2) as (_ & EB & EL & EA & _).
  rewrite EB, EL, EA, (beforeBullets_liquid_state _ _ _ _ Hb).
  split; [reflexivity|]. split; [reflexivity|].
  destruct (controllers_right inp) as [c|] eqn:Hc.
  - rewrite (beforeBullets_blaster _ _ _ _ _ Hc Hb). split; [|reflexivity].
    unfold beforeBullets in Hb. rewrite Hc in Hb.
    now apply rightController_attached in Hb.
  - unfold beforeBullets in Hb. rewrite Hc in Hb. inversion Hb.
    split; reflexivity.
Qed.

Lemma frame_samples_reference_positions_witness :
  LiquidSphereInertia.prevPos
    (liquidSphereInertia (afterFrame (1 # 60) sweepLeft attachedState)) =
  mkVector3 (-1) 1 0.
Proof.
  exact (proj1 (proj2 (frame_samples_reference_positions (1 # 60) sweepLeft
                         attachedState _ eq_refl))).
Defined.

(** X17.  The frame that attaches the blaster gives it no tilt impulse,
    wherever the controller is: both [prevPos] are reset to the controller's
    position first, the estimated velocity is zero, the target tilts are
    zero, and each tilt is only scaled by [1 - min(1, damping * delta)]. *)
Theorem attaching_frame_gives_no_tilt_impulse :
  forall delta inp c st st',
    controllers_right inp = Some c ->
    blasterAttached st = false ->
    onFrame delta inp st = Ok st' ->
    let k := Math_min 1 (BlasterInertia.damping * delta) in
    BlasterInertia.tiltY (blasterInertia st') ==
      BlasterInertia.tiltY (blasterInertia st) * (1 - k) /\
    BlasterInertia.tiltZ (blasterInertia st') ==
      BlasterInertia.tiltZ (blasterInertia st) * (1 - k).
Proof.
  intros delta inp c st st' Hc Ha Hf k.
  destruct (onFrame_inv _ _ _ _ Hf) as (st2 & Hb & ->).
  destruct (stepBullets_outside delta st2) as (_ & EB & _).
  rewrite EB, (beforeBullets_blaster _ _ _ _ _ Hc Hb).
  unfold attachBlaster. rewrite Ha. simpl.
  set (p := raySpace_worldPosition c).
  assert (TY : blasterTargetTiltY (estimateVelocity delta p p) == 0).
  { unfold blasterTargetTiltY. rewrite clamp_inside;
      unfold estimateVelocity, divideScalar, multiplyScalar, vsub,
        BlasterInertia.sensitivity, BlasterInertia.maxTilt; simpl.
    - ring.
    - assert (E : - ((vx p - vx p) * (1 / Math_max delta epsilonDelta)) * (25 # 10) == 0)
        by ring. rewrite E. lra.
    - assert (E : - ((vx p - vx p) * (1 / Math_max delta epsilonDelta)) * (25 # 10) == 0)
        by ring. rewrite E. lra. }
  assert (TZ : blasterTargetTiltZ (estimateVelocity delta p p) == 0).
  { unfold blasterTargetTiltZ. rewrite clamp_inside;
      unfold estimateVelocity, divideScalar, multiplyScalar, vsub,
        BlasterInertia.sensitivity, BlasterInertia.maxTilt; simpl.
    - ring.
    - assert (E : (vz p - vz p) * (1 / Math_max delta epsilonDelta) * (25 # 10) * (5 # 10) == 0)
        by ring. rewrite E. lra.
    - assert (E : (vz p - vz p) * (1 / Math_max delta epsilonDelta) * (25 # 10) * (5 # 10) == 0)
        by ring. rewrite E. lra. }
  unfold blend. fold k. rewrite TY, TZ. split; ring.
Qed.

Lemma attaching_frame_gives_no_tilt_impulse_witness :
  BlasterInertia.tiltY
    (blasterInertia (afterFrame (1 # 60) sweepLeft (initialState vzero))) ==
  0 * (1 - Math_min 1 (BlasterInertia.damping * (1 # 60))).
Proof.
  exact (proj1 (attaching_frame_gives_no_tilt_impulse (1 # 60) sweepLeft
                 (mkController (mkVector3 (-1) 1 0) false true)
                 (initialState vzero) _ eq_refl eq_refl eq_refl)).
Defined.

Lemma applyEvent_rotationInSync e st st' :
  applyEvent e st = Some st' -> rotationInSync st -> rotationInSync st'.
Proof.
  destruct e as [delta inp|r0 r1 r2| |tw s|i|i rx rz|i];
    unfold applyEvent; intros H HS.
  - destruct (onFrame delta inp st) as [s|] eqn:E; [|discriminate].
    inversion H; subst s.
    destruct (onFrame_inv _ _ _ _ E) as (st2 & Hb & ->).
    destruct (stepBullets_outside delta st2) as (_ & EB & _ & _ & ER & _).
    unfold rotationInSync. rewrite EB, ER.
    unfold beforeBullets in Hb. destruct (controllers_right inp) as [c|].
    + now apply rightController_attached in Hb.
    + inversion Hb. exact HS.
  - destruct (targets st); [|discriminate].
    destruct (isRandomPair r0 && isRandomPair r1 && isRandomPair r2);
      [|discriminate].
    inversion H. destruct r0, r1, r2. exact HS.
  - inversion H. exact HS.
  - destruct (existsb (Tween_eqb tw) (tweens st)); [|discriminate].
    inversion H. exact HS.
  - destruct (existsb (Tween_eqb (Shrink i)) (tweens st)); [|discriminate].
    inversion H. exact HS.
  - destruct (existsb (Nat.eqb i) (timers st) && isRandom rx && isRandom rz);
      [|discriminate].
    inversion H. exact HS.
  - destruct (existsb (Tween_eqb (Grow i)) (tweens st)); [|discriminate].
    inversion H. exact HS.
Qed.

(** X18.  In every state the game reaches, the rotation given to the blaster
    about its y and z axes is the pair of tilts of its filter: every update
    of the filter is followed by the write of the rotation, and nothing else
    writes either. *)
Theorem blaster_rotation_is_filter_state :
  forall st,
    reachable st ->
    blasterRotation st =
    (BlasterInertia.tiltY (blasterInertia st),
     BlasterInertia.tiltZ (blasterInertia st)).
Proof.
  intros st (c & es & Hrun).
  assert (G : forall es s s',
             run es s = Some s' -> rotationInSync s -> rotationInSync s').
  { clear. induction es as [|e es IH]; intros s s' H HS; cbn [run] in H.
    - inversion H. now subst.
    - destruct (applyEvent e s) as [s1|] eqn:E; [|discriminate].
      apply (IH _ _ H). eapply applyEvent_rotationInSync; eauto. }
  apply (G es _ _ Hrun). reflexivity.
Qed.

Lemma blaster_rotation_is_filter_state_witness :
  blasterRotation (afterRun oneShot) =
  (BlasterInertia.tiltY (blasterInertia (afterRun oneShot)),
   BlasterInertia.tiltZ (blasterInertia (afterRun oneShot))).
Proof.
  apply blaster_rotation_is_filter_state.
  exists vzero, oneShot. vm_compute. reflexivity.
Defined.

(** X19.  In a frame of an eighth of a second or more the low-pass filter
    does not smooth: the blend factor [Math.min(1, damping * delta)] is 1,
    and each tilt of the blaster ends as the previous tilt plus the whole of
    its difference to the clamped target tilt of that frame, whatever the
    length of the frame beyond that. *)
Theorem lowpass_takes_full_step_in_long_frame :
  forall delta inp c st st',
    1 # 8 <= delta ->
    controllers_right inp = Some c ->
    onFrame delta inp st = Ok st' ->
    let velocity :=
      estimateVelocity delta (raySpace_worldPosition c)
        (BlasterInertia.prevPos (blasterInertia (attachBlaster c st))) in
    Math_min 1 (BlasterInertia.damping * delta) = 1 /\
    BlasterInertia.tiltY (blasterInertia st') =
    BlasterInertia.tiltY (blasterInertia st) +
    (blasterTargetTiltY velocity - BlasterInertia.tiltY (blasterInertia st)) * 1 /\
    BlasterInertia.tiltZ (blasterInertia st') =
    BlasterInertia.tiltZ (blasterInertia st) +
    (blasterTargetTiltZ velocity - BlasterInertia.tiltZ (blasterInertia st)) * 1.
Proof.
  intros delta inp c st st' Hd Hc Hf velocity.
  destruct (onFrame_inv _ _ _ _ Hf) as (st2 & Hb & ->).
  destruct (stepBullets_outside delta st2) as (_ & EB & _).
  rewrite EB, (beforeBullets_blaster _ _ _ _ _ Hc Hb).
  destruct (attachBlaster_tilts c st) as [EY EZ].
  assert (K : Math_min 1 (BlasterInertia.damping * delta) = 1).
  { unfold BlasterInertia.damping.
    destruct (Math_min_spec 1 (8 * delta)) as [[_ E]|[H _]]; [exact E|lra]. }
  split; [exact K|].
  unfold updateBlaster. simpl. fold velocity. unfold blend.
  rewrite K, EY, EZ. split; reflexivity.
Qed.

Lemma lowpass_takes_full_step_in_long_frame_witness :
  BlasterInertia.tiltY
    (blasterInertia (afterFrame (1 # 4) sweepLeft attachedState)) =
  BlasterInertia.tiltY (blasterInertia attachedState) +
  (blasterTargetTiltY
     (estimateVelocity (1 # 4) (mkVector3 (-1) 1 0)
        (BlasterInertia.prevPos
           (blasterInertia
              (attachBlaster (mkController (mkVector3 (-1) 1 0) false true)
                 attachedState)))) -
   BlasterInertia.tiltY (blasterInertia attachedState)) * 1.
Proof.
  exact (proj1 (proj2 (lowpass_takes_full_step_in_long_frame (1 # 4) sweepLeft
                (mkController (mkVector3 (-1) 1 0) false true) attachedState
                _ ltac:(vm_compute; discriminate) eq_refl eq_refl))).
Defined.

(** ** Velocity and target tilts *)

Lemma estimateVelocity_components delta pos prev :
  let i := 1 / Math_max delta epsilonDelta in
  0 < i /\
  vx (estimateVelocity delta pos prev) = (vx pos - vx prev) * i /\
  vy (estimateVelocity delta pos prev) = (vy pos - vy prev) * i /\
  vz (estimateVelocity delta pos prev) = (vz pos - vz prev) * i.
Proof.
  cbn zeta. split; [|repeat split].
  pose proof (Math_max_epsilon_pos delta) as H.
  unfold Qdiv. rewrite Qmult_1_l. now apply Qinv_lt_0_compat.
Qed.

(** X20.  The velocity estimate and the length of the frame.  For a frame
    longer than a millisecond the displacement since the last sample is
    divided by [delta].  A shorter frame, of length zero or negative
    included, counts as a millisecond: the estimate is the one of a frame of
    length zero, a thousand times the displacement, and nothing is divided
    by zero. *)
Theorem velocity_estimate_floors_delta_at_one_millisecond :
  forall delta pos prev,
    let v := estimateVelocity delta pos prev in
    (1 # 1000 < delta -> v = divideScalar (vsub pos prev) delta) /\
    (delta <= 1 # 1000 ->
     v = estimateVelocity 0 pos prev /\
     vx v == (vx pos - vx prev) * 1000 /\
     vy v == (vy pos - vy prev) * 1000 /\
     vz v == (vz pos - vz prev) * 1000).
Proof.
  intros delta pos prev v. unfold v, estimateVelocity, epsilonDelta.
  split; intro H.
  - destruct (Math_max_spec delta (1 # 1000)) as [[A E]|[A E]]; rewrite E.
    + lra.
    + reflexivity.
  - destruct (Math_max_spec delta (1 # 1000)) as [[A E]|[A E]]; rewrite E.
    + split; [reflexivity|].
      unfold divideScalar, multiplyScalar, vsub. simpl.
      repeat split; field.
    + lra.
Qed.

(** X21.  The target tilts lean against the motion.  A controller or camera
    that has moved towards +x since the last sample gives target tilts about
    y (and, for the liquid, about x) that are zero or negative, towards -x
    zero or positive; a move towards +z gives a target tilt about z that is
    zero or positive, towards -z zero or negative.  This holds for frames of
    any length. *)
Theorem target_tilts_lean_against_motion :
  forall delta pos prev,
    let v := estimateVelocity delta pos prev in
    (vx prev <= vx pos ->
     blasterTargetTiltY v <= 0 /\ liquidTargetX v <= 0 /\ liquidTargetY v <= 0) /\
    (vx pos <= vx prev ->
     0 <= blasterTargetTiltY v /\ 0 <= liquidTargetX v /\ 0 <= liquidTargetY v) /\
    (vz prev <= vz pos ->
     0 <= blasterTargetTiltZ v /\ 0 <= liquidTargetZ v) /\
    (vz pos <= vz prev ->
     blasterTargetTiltZ v <= 0 /\ liquidTargetZ v <= 0).
Proof.
  intros delta pos prev v.
  destruct (estimateVelocity_components delta pos prev) as (Hi & EX & _ & EZ).
  fold v in EX, EZ.
  set (i := 1 / Math_max delta epsilonDelta) in *.
  assert (MB : 0 <= BlasterInertia.maxTilt) by (vm_compute; discriminate).
  assert (ML : 0 <= LiquidSphereInertia.maxTilt) by (vm_compute; discriminate).
  unfold blasterTargetTiltY, blasterTargetTiltZ, liquidTargetX, liquidTargetY,
    liquidTargetZ, BlasterInertia.sensitivity, LiquidSphereInertia.sensitivity.
  rewrite EX, EZ.
  split; [|split; [|split]]; intro H.
  - repeat split; apply clamp_sign; trivial; nra.
  - repeat split; apply clamp_sign; trivial; nra.
  - repeat split; apply clamp_sign; trivial; nra.
  - repeat split; apply clamp_sign; trivial; nra.
Qed.

Lemma target_tilts_lean_against_motion_witness :
  blasterTargetTiltY
    (estimateVelocity (1 # 60) (mkVector3 1 1 0) (mkVector3 0 1 0)) <= 0.
Proof.
  refine (proj1 (proj1 (target_tilts_lean_against_motion (1 # 60)
                          (mkVector3 1 1 0) (mkVector3 0 1 0)) _)).
  vm_compute. discriminate.
Defined.

Lemma velocity_estimate_floors_delta_at_one_millisecond_witness :
  vx (estimateVelocity 0 (mkVector3 1 1 0) (mkVector3 0 1 0)) ==
  (1 - 0) * 1000.
Proof.
  refine (proj1 (proj2 (proj2 (velocity_estimate_floors_delta_at_one_millisecond
                                 0 (mkVector3 1 1 0) (mkVector3 0 1 0)) _))).
  vm_compute. discriminate.
Defined.

(** ** Frames that should change nothing *)

(** X22.  A frame of length zero moves no filter: the three tilts and the
    three velocities of the liquid and the two tilts of the blaster have the
    values they had, whatever the positions sampled. *)
Theorem zero_length_frame_leaves_filters_unchanged :
  forall inp st st',
    onFrame 0 inp st = Ok st' ->
    sameLiquidMotion (liquidSphereInertia st) (liquidSphereInertia st') /\
    BlasterInertia.tiltY (blasterInertia st') ==
      BlasterInertia.tiltY (blasterInertia st) /\
    BlasterInertia.tiltZ (blasterInertia st') ==
      BlasterInertia.tiltZ (blasterInertia st).
Proof.
  intros inp st st' Hf.
  destruct (onFrame_filters 0 inp st st' Hf) as (EL & EB).
  split.
  - rewrite EL. unfold sameLiquidMotion, updateLiquid, springVel,
      LiquidSphereInertia.damping, LiquidSphereInertia.spring. simpl.
    repeat split; ring.
  - destruct (controllers_right inp) as [c|].
    + rewrite EB. destruct (attachBlaster_tilts c st) as [EY EZ].
      unfold updateBlaster, blend. simpl. rewrite EY, EZ.
      change (Math_min 1 (BlasterInertia.damping * 0))
        with (BlasterInertia.damping * 0).
      unfold BlasterInertia.damping. split; ring.
    + rewrite EB. split; reflexivity.
Qed.

Lemma zero_length_frame_leaves_filters_unchanged_witness :
  BlasterInertia.tiltY
    (blasterInertia (afterFrame 0 sweepLeft attachedState)) ==
  BlasterInertia.tiltY (blasterInertia attachedState).
Proof.
  exact (proj1 (proj2 (zero_length_frame_leaves_filters_unchanged sweepLeft
                         attachedState _ eq_refl))).
Defined.

(** X23.  The liquid at rest stays at rest while its reference does not
    move: with no tilt and no velocity, and a reference position equal to the
    last sample, a frame of any length leaves no tilt and no velocity. *)
Theorem resting_liquid_stays_at_rest :
  forall delta inp st st',
    liquidAtRest (liquidSphereInertia st) ->
    referencePosition inp = LiquidSphereInertia.prevPos (liquidSphereInertia st) ->
    onFrame delta inp st = Ok st' ->
    liquidAtRest (liquidSphereInertia st').
Proof.
  intros delta inp st st' (X & Y & Z & VX & VY & VZ) Hp Hf.
  destruct (onFrame_filters delta inp st st' Hf)
    as (EL & _).
  rewrite EL, Hp. set (l := liquidSphereInertia st) in *.
  set (p := LiquidSphereInertia.prevPos l).
  assert (ML : 0 <= LiquidSphereInertia.maxTilt) by (vm_compute; discriminate).
  destruct (estimateVelocity_components delta p p) as (_ & EX & _ & EZ).
  assert (TX : liquidTargetX (estimateVelocity delta p p) == 0).
  { unfold liquidTargetX. rewrite EX, clamp_inside;
      unfold LiquidSphereInertia.sensitivity.
    - ring.
    - assert (E : - ((vx p - vx p) * (1 / Math_max delta epsilonDelta)) * 3 * (8 # 10) == 0)
        by ring. rewrite E. lra.
    - assert (E : - ((vx p - vx p) * (1 / Math_max delta epsilonDelta)) * 3 * (8 # 10) == 0)
        by ring. rewrite E. lra. }
  assert (TY : liquidTargetY (estimateVelocity delta p p) == 0).
  { unfold liquidTargetY. rewrite EX, clamp_inside;
      unfold LiquidSphereInertia.sensitivity.
    - ring.
    - assert (E : - ((vx p - vx p) * (1 / Math_max delta epsilonDelta)) * 3 == 0)
        by ring. rewrite E. lra.
    - assert (E : - ((vx p - vx p) * (1 / Math_max delta epsilonDelta)) * 3 == 0)
        by ring. rewrite E. lra. }
  assert (TZ : liquidTargetZ (estimateVelocity delta p p) == 0).
  { unfold liquidTargetZ. rewrite EZ, clamp_inside;
      unfold LiquidSphereInertia.sensitivity.
    - ring.
    - assert (E : (vz p - vz p) * (1 / Math_max delta epsilonDelta) * 3 * (5 # 10) == 0)
        by ring. rewrite E. lra.
    - assert (E : (vz p - vz p) * (1 / Math_max delta epsilonDelta) * 3 * (5 # 10) == 0)
        by ring. rewrite E. lra. }
  unfold liquidAtRest, updateLiquid, springVel. simpl. fold p.
  rewrite TX, TY, TZ, X, Y, Z, VX, VY, VZ. repeat split; ring.
Qed.

Lemma resting_liquid_stays_at_rest_witness :
  liquidAtRest
    (liquidSphereInertia
       (afterFrame (1 # 60) (cameraOnly vzero) (initialState vzero))).
Proof.
  apply (resting_liquid_stays_at_rest (1 # 60) (cameraOnly vzero)
           (initialState vzero)).
  - repeat split.
  - reflexivity.
  - reflexivity.
Defined.

(** ** The respawn cycle *)

(** X24.  The three callbacks of a respawn in a row.  When the shrink of a
    target is in flight, its completion, the timeout and the completion of
    the growth can happen in that order, and they leave the target visible,
    at full scale, at its old height and at the new place drawn inside the
    gallery; the other targets, the score and the projectiles are as
    before. *)
Theorem respawn_cycle_restores_target :
  forall i rx rz st t,
    existsb (Tween_eqb (Shrink i)) (tweens st) = true ->
    isRandom rx = true ->
    isRandom rz = true ->
    nth_error (targets st) i = Some t ->
    exists st',
      run [ShrinkComplete i; RespawnTimeout i rx rz; GrowComplete i] st =
        Some st' /\
      nth_error (targets st') i =
        Some (Target.mk
                (mkVector3 (rx * 10 - 5) (vy (Target.position t)) (- rz * 5 - 5))
                true (mkVector3 1 1 1)) /\
      (forall j, j <> i -> nth_error (targets st') j = nth_error (targets st) j) /\
      score st' = score st /\ bullets st' = bullets st /\
      scoreText st' = scoreText st.
Proof.
  intros i rx rz st t HS Hx Hz Hn.
  assert (T1 : existsb (Nat.eqb i) (timers (shrinkComplete i st)) = true).
  { simpl. rewrite existsb_app. simpl. rewrite Nat.eqb_refl.
    now rewrite orb_true_r. }
  assert (T2 : existsb (Tween_eqb (Grow i))
                 (tweens (respawn i rx rz (shrinkComplete i st))) = true).
  { simpl. rewrite existsb_app. simpl. rewrite Nat.eqb_refl.
    now rewrite orb_true_r. }
  exists (growComplete i (respawn i rx rz (shrinkComplete i st))).
  split.
  - cbn [run applyEvent]. rewrite HS. cbn [run applyEvent].
    rewrite T1, Hx, Hz. cbn [andb run applyEvent]. rewrite T2. reflexivity.
  - split; [|split; [|repeat split]].
    + simpl. rewrite !nth_error_update_nth, Nat.eqb_refl, Hn. reflexivity.
    + intros j Hj. simpl. rewrite !nth_error_update_nth.
      apply Nat.eqb_neq in Hj. rewrite Hj. reflexivity.
Qed.

Lemma respawn_cycle_restores_target_witness :
  exists st',
    run [ShrinkComplete 0; RespawnTimeout 0 (7 # 10) (1 # 5); GrowComplete 0]
      (afterRun oneShot) = Some st' /\
    nth_error (targets st') 0 =
      Some (Target.mk (mkVector3 ((7 # 10) * 10 - 5) 1 (- (1 # 5) * 5 - 5))
              true (mkVector3 1 1 1)).
Proof.
  destruct (respawn_cycle_restores_target 0 (7 # 10) (1 # 5) (afterRun oneShot)
              (Target.mk (mkVector3 (0 # 2) 1 (-5)) true unitScale))
    as (st' & H1 & H2 & _).
  - vm_compute. reflexivity.
  - reflexivity.
  - reflexivity.
  - vm_compute. reflexivity.
  - exists st'. split; [exact H1|exact H2].
Defined.
(** ** Rounding to the nearest double is monotone *)

Lemma pow2_pos e : 0 < pow2 e.
Proof. apply Qpower_0_lt. reflexivity. Qed.

Lemma pow2_plus a b : pow2 (a + b) == pow2 a * pow2 b.
Proof. apply Qpower_plus. discriminate. Qed.

Lemma pow2_le a b : (a <= b)%Z -> pow2 a <= pow2 b.
Proof. intro H. apply Qpower_le_compat_l; [exact H|discriminate]. Qed.

Lemma pow2_lt_inv a b : pow2 a < pow2 b -> (a < b)%Z.
Proof. intro H. apply (Qpower_lt_compat_l_inv 2); [exact H|reflexivity]. Qed.

Lemma pow2_inject n : (0 <= n)%Z -> inject_Z (2 ^ n) == pow2 n.
Proof. intro H. unfold pow2. now rewrite Zpower_Qpower. Qed.

Lemma roundHalfEven_bounds m :
  (Qfloor m <= roundHalfEven m <= Qfloor m + 1)%Z.
Proof.
  unfold roundHalfEven.
  destruct (m - inject_Z (Qfloor m) ?= 1 # 2); [destruct (Z.even _)| |]; lia.
Qed.

Lemma Qfloor_lt_succ m : m < inject_Z (Qfloor m + 1).
Proof. rewrite inject_Z_plus. pose proof (Qlt_floor m) as H.
  rewrite inject_Z_plus in H. exact H. Qed.

Lemma roundHalfEven_monotone m1 m2 :
  m1 <= m2 -> (roundHalfEven m1 <= roundHalfEven m2)%Z.
Proof.
  intro H. pose proof (Qfloor_resp_le _ _ H) as HF.
  destruct (Z.eq_dec (Qfloor m1) (Qfloor m2)) as [E|NE].
  - unfold roundHalfEven. rewrite E.
    set (f := Qfloor m2).
    destruct (Qcompare_spec (m1 - inject_Z f) (1 # 2)) as [C1|C1|C1];
    destruct (Qcompare_spec (m2 - inject_Z f) (1 # 2)) as [C2|C2|C2];
      try (destruct (Z.even f)); try lia; exfalso; lra.
  - pose proof (roundHalfEven_bounds m1). pose proof (roundHalfEven_bounds m2).
    lia.
Qed.

Lemma roundHalfEven_ge (k : Z) m :
  inject_Z k <= m -> (k <= roundHalfEven m)%Z.
Proof.
  intro H. pose proof (roundHalfEven_bounds m) as [B _].
  apply Qfloor_resp_le in H. rewrite Qfloor_Z in H. lia.
Qed.

Lemma roundHalfEven_le (k : Z) m :
  m <= inject_Z k -> (roundHalfEven m <= k)%Z.
Proof.
  intro H. pose proof (roundHalfEven_monotone _ _ H) as M.
  assert (E : roundHalfEven (inject_Z k) = k).
  { unfold roundHalfEven. rewrite Qfloor_Z.
    destruct (Qcompare_spec (inject_Z k - inject_Z k) (1 # 2)) as [C|C|C];
      [exfalso; lra|reflexivity|exfalso; lra]. }
  now rewrite E in M.
Qed.

Lemma binade_spec a :
  0 < a -> pow2 (binade a) <= a /\ a < pow2 (binade a + 1).
Proof.
  intro Ha. destruct a as [n d]. 
  assert (Hn : (0 < n)%Z).
  { unfold Qlt in Ha. simpl in Ha. lia. }
  unfold binade. cbn [Qnum Qden].
  set (p := Z.log2 n). set (s := Z.log2 (Z.pos d)).
  destruct (Z.log2_spec n Hn) as [P1 P2]. fold p in P1, P2.
  destruct (Z.log2_spec (Z.pos d) (Pos2Z.is_pos d)) as [S1 S2]. fold s in S1, S2.
  assert (Hp : (0 <= p)%Z) by apply Z.log2_nonneg.
  assert (Hs : (0 <= s)%Z) by apply Z.log2_nonneg.
  rewrite Zle_Qle, pow2_inject in P1, S1 by lia.
  rewrite Zlt_Qlt, pow2_inject in P2, S2 by lia.
  set (N := inject_Z n) in *. set (D := inject_Z (Z.pos d)) in *.
  assert (HD : 0 < D) by (unfold D; rewrite <- (Zlt_Qlt 0); lia).
  assert (EA : (n # d) * D == N).
  { unfold N, D. rewrite (Qmake_Qdiv n d). field.
    intro K. unfold D in HD. rewrite K in HD. discriminate. }
  set (a := n # d) in *.
  assert (U : a < pow2 (p - s + 1)).
  { assert (E : pow2 (p - s + 1) * pow2 s == pow2 (Z.succ p)).
    { rewrite <- pow2_plus. apply Qpower_comp; [reflexivity|lia]. }
    pose proof (pow2_pos s). pose proof (pow2_pos (p - s + 1)). nra. }
  assert (L : pow2 (p - s - 1) < a).
  { assert (E : pow2 (p - s - 1) * pow2 (Z.succ s) == pow2 p).
    { rewrite <- pow2_plus. apply Qpower_comp; [reflexivity|lia]. }
    pose proof (pow2_pos (Z.succ s)). pose proof (pow2_pos (p - s - 1)). nra. }
  destruct (Qle_bool (pow2 (p - s)) a) eqn:B.
  - apply Qle_bool_iff in B. split; [exact B|exact U].
  - apply Qle_bool_false in B. split; [apply Qlt_le_weak; exact L|].
    replace (p - s - 1 + 1)%Z with (p - s)%Z by lia. exact B.
Qed.

Lemma binade_monotone a b : 0 < a -> a <= b -> (binade a <= binade b)%Z.
Proof.
  intros Ha Hab. assert (Hb : 0 < b) by lra.
  destruct (binade_spec a Ha) as [A1 _]. destruct (binade_spec b Hb) as [_ B2].
  assert (H : pow2 (binade a) < pow2 (binade b + 1)) by lra.
  apply pow2_lt_inv in H. lia.
Qed.

Lemma roundPositive_nonneg a : 0 < a -> 0 <= roundPositive a.
Proof.
  intro Ha. unfold roundPositive.
  set (q := (Z.max (binade a) (-1022) - 52)%Z).
  pose proof (pow2_pos q) as Hq.
  assert (H : (0 <= roundHalfEven (a / pow2 q))%Z).
  { apply (roundHalfEven_ge 0). apply Qle_shift_div_l; [exact Hq|].
    change (inject_Z 0) with 0. lra. }
  rewrite Zle_Qle in H. change (inject_Z 0) with 0 in H. nra.
Qed.

(** The grid of the doubles between [2^e] and [2^(e+1)] has step
    [2^(e-52)]: rounding on that grid keeps a number between the two. *)
Lemma round_on_grid_bounds a e :
  pow2 e <= a -> a <= pow2 (e + 1) ->
  pow2 e <= inject_Z (roundHalfEven (a / pow2 (e - 52))) * pow2 (e - 52) /\
  inject_Z (roundHalfEven (a / pow2 (e - 52))) * pow2 (e - 52) <= pow2 (e + 1).
Proof.
  intros H1 H2. set (q := (e - 52)%Z). pose proof (pow2_pos q) as Hq.
  assert (E1 : pow2 e == inject_Z (2 ^ 52) * pow2 q).
  { rewrite pow2_inject by lia. rewrite <- pow2_plus.
    apply Qpower_comp; [reflexivity|unfold q; lia]. }
  assert (E2 : pow2 (e + 1) == inject_Z (2 ^ 53) * pow2 q).
  { rewrite pow2_inject by lia. rewrite <- pow2_plus.
    apply Qpower_comp; [reflexivity|unfold q; lia]. }
  assert (L : (2 ^ 52 <= roundHalfEven (a / pow2 q))%Z).
  { apply roundHalfEven_ge. apply Qle_shift_div_l; [exact Hq|lra]. }
  assert (U : (roundHalfEven (a / pow2 q) <= 2 ^ 53)%Z).
  { apply roundHalfEven_le. apply Qle_shift_div_r; [exact Hq|lra]. }
  rewrite Zle_Qle in L, U. rewrite E1, E2. split; nra.
Qed.

Lemma roundPositive_monotone a b :
  0 < a -> a <= b -> roundPositive a <= roundPositive b.
Proof.
  intros Ha Hab. assert (Hb : 0 < b) by lra.
  pose proof (binade_monotone a b Ha Hab) as HB.
  unfold roundPositive.
  set (ea := Z.max (binade a) (-1022)). set (eb := Z.max (binade b) (-1022)).
  assert (HE : (ea <= eb)%Z) by (unfold ea, eb; lia).
  destruct (Z.eq_dec ea eb) as [E|NE].
  - rewrite E. set (q := (eb - 52)%Z). pose proof (pow2_pos q) as Hq.
    assert (M : a / pow2 q <= b / pow2 q).
    { unfold Qdiv. apply Qmult_le_compat_r; [exact Hab|].
      apply Qinv_le_0_compat. now apply Qlt_le_weak. }
    apply roundHalfEven_monotone in M. rewrite Zle_Qle in M. nra.
  - assert (Hlt : (ea < eb)%Z) by lia.
    assert (Heb : eb = binade b) by (unfold ea, eb in *; lia).
    destruct (binade_spec a Ha) as [A1 A2].
    destruct (binade_spec b Hb) as [B1 B2]. rewrite <- Heb in B1, B2.
    assert (A3 : a <= pow2 (ea + 1)).
    { apply Qle_trans with (pow2 (binade a + 1)); [lra|].
      apply pow2_le. unfold ea. lia. }
    assert (UB : inject_Z (roundHalfEven (a / pow2 (ea - 52))) * pow2 (ea - 52)
                 <= pow2 (ea + 1)).
    { set (q := (ea - 52)%Z). pose proof (pow2_pos q) as Hq.
      assert (E2 : pow2 (ea + 1) == inject_Z (2 ^ 53) * pow2 q).
      { rewrite pow2_inject by lia. rewrite <- pow2_plus.
        apply Qpower_comp; [reflexivity|unfold q; lia]. }
      assert (U : (roundHalfEven (a / pow2 q) <= 2 ^ 53)%Z).
      { apply roundHalfEven_le. apply Qle_shift_div_r; [exact Hq|lra]. }
      rewrite Zle_Qle in U. rewrite E2. nra. }
    destruct (round_on_grid_bounds b eb B1 (Qlt_le_weak _ _ B2)) as [LB _].
    pose proof (pow2_le (ea + 1) eb ltac:(lia)). lra.
Qed.

Lemma roundDouble_monotone x y : x <= y -> roundDouble x <= roundDouble y.
Proof.
  intro H. unfold roundDouble.
  destruct (Qcompare_spec x 0) as [X|X|X];
  destruct (Qcompare_spec y 0) as [Y|Y|Y]; try (exfalso; lra).
  - lra.
  - now apply roundPositive_nonneg.
  - assert (K : 0 <= roundPositive (- x)) by (apply roundPositive_nonneg; lra).
    lra.
  - assert (K : roundPositive (- y) <= roundPositive (- x))
      by (apply roundPositive_monotone; lra).
    lra.
  - assert (K : 0 <= roundPositive (- x)) by (apply roundPositive_nonneg; lra).
    assert (K' : 0 <= roundPositive y) by (apply roundPositive_nonneg; lra).
    lra.
  - now apply roundPositive_monotone.
Qed.

Lemma roundDouble_zero : roundDouble 0 == 0.
Proof. reflexivity. Qed.
(** ** The low-pass filter under rounding *)

Lemma updateBlasterR_exact delta currentPos b :
  updateBlasterR (fun x => x) delta currentPos b = updateBlaster delta currentPos b.
Proof. reflexivity. Qed.

Section RoundedBlend.

Variable fl : Q -> Q.
Hypothesis fl_monotone : forall x y, x <= y -> fl x <= fl y.
Hypothesis fl_zero : fl 0 == 0.

Lemma rounded_factor_range delta :
  0 <= delta ->
  0 <= Math_min 1 (fl (BlasterInertia.damping * delta)) /\
  Math_min 1 (fl (BlasterInertia.damping * delta)) <= 1.
Proof.
  intro Hd.
  assert (H : 0 <= fl (BlasterInertia.damping * delta)).
  { unfold BlasterInertia.damping.
    assert (K : fl 0 <= fl (8 * delta)) by (apply fl_monotone; lra). lra. }
  destruct (Math_min_spec 1 (fl (BlasterInertia.damping * delta)))
    as [[A E]|[A E]]; rewrite E; lra.
Qed.

(** The blend under rounding: never away from the target, never further than
    the full step. *)
Lemma blendR_between target tilt delta :
  0 <= delta -> fl tilt == tilt ->
  between tilt (fullStepR fl target tilt) (blendR fl target tilt delta) /\
  (tilt <= target -> tilt <= blendR fl target tilt delta) /\
  (target <= tilt -> blendR fl target tilt delta <= tilt).
Proof.
  intros Hd Ht. destruct (rounded_factor_range delta Hd) as [K0 K1].
  unfold blendR, fullStepR, between.
  set (k := Math_min 1 (fl (BlasterInertia.damping * delta))) in *.
  set (d := fl (target - tilt)).
  assert (Up : tilt <= target ->
               tilt <= fl (tilt + fl (d * k)) /\
               fl (tilt + fl (d * k)) <= fl (tilt + fl (d * 1))).
  { intro H.
    assert (D0 : 0 <= d).
    { assert (K : fl 0 <= fl (target - tilt)) by (apply fl_monotone; lra).
      unfold d. lra. }
    assert (P0 : 0 <= fl (d * k)).
    { assert (K : fl 0 <= fl (d * k)) by (apply fl_monotone; nra). lra. }
    assert (P1 : fl (d * k) <= fl (d * 1)) by (apply fl_monotone; nra).
    split.
    - assert (K : fl tilt <= fl (tilt + fl (d * k)))
        by (apply fl_monotone; lra). lra.
    - apply fl_monotone. lra. }
  assert (Down : target <= tilt ->
                 fl (tilt + fl (d * 1)) <= fl (tilt + fl (d * k)) /\
                 fl (tilt + fl (d * k)) <= tilt).
  { intro H.
    assert (D0 : d <= 0).
    { assert (K : fl (target - tilt) <= fl 0) by (apply fl_monotone; lra).
      unfold d. lra. }
    assert (P0 : fl (d * k) <= 0).
    { assert (K : fl (d * k) <= fl 0) by (apply fl_monotone; nra). lra. }
    assert (P1 : fl (d * 1) <= fl (d * k)) by (apply fl_monotone; nra).
    split.
    - apply fl_monotone. lra.
    - assert (K : fl (tilt + fl (d * k)) <= fl tilt)
        by (apply fl_monotone; lra). lra. }
  split; [|split].
  - destruct (Qlt_le_dec target tilt) as [C|C].
    + destruct (Down (Qlt_le_weak _ _ C)) as [D1 D2].
      destruct (Math_min_spec tilt (fl (tilt + fl (d * 1)))) as [[A E]|[A E]];
        rewrite E;
      destruct (Math_max_spec tilt (fl (tilt + fl (d * 1)))) as [[B F]|[B F]];
        rewrite F; lra.
    + destruct (Up C) as [U1 U2].
      destruct (Math_min_spec tilt (fl (tilt + fl (d * 1)))) as [[A E]|[A E]];
        rewrite E;
      destruct (Math_max_spec tilt (fl (tilt + fl (d * 1)))) as [[B F]|[B F]];
        rewrite F; lra.
  - intro H. now apply Up.
  - intro H. now apply Down.
Qed.

End RoundedBlend.

(** C5, as the code has it.  The code computes in doubles; rounding to the
    nearest double is monotone and keeps 0, which is all that is used of it.
    In a frame with [delta >= 0], on each of its two axes, the new tilt of
    the blaster lies between the tilt it had and the full step, the value
    the same update gives when the factor is 1, ends included; it never moves
    away from the clamped target of the frame.  Without rounding the full
    step is the target itself, and the update is the one a frame with the
    right controller makes.  With rounding the full step can lie beyond the
    target, by what the subtraction and the addition round off. *)
Theorem lowpass_tilt_between_previous_and_full_step :
  forall (fl : Q -> Q) delta currentPos b,
    (forall x y, x <= y -> fl x <= fl y) ->
    fl 0 == 0 ->
    fl (BlasterInertia.tiltY b) == BlasterInertia.tiltY b ->
    fl (BlasterInertia.tiltZ b) == BlasterInertia.tiltZ b ->
    0 <= delta ->
    let velocity :=
      estimateVelocityR fl delta currentPos (BlasterInertia.prevPos b) in
    let targetY := blasterTargetTiltYR fl velocity in
    let targetZ := blasterTargetTiltZR fl velocity in
    let b' := updateBlasterR fl delta currentPos b in
    between (BlasterInertia.tiltY b) (fullStepR fl targetY (BlasterInertia.tiltY b))
            (BlasterInertia.tiltY b') /\
    between (BlasterInertia.tiltZ b) (fullStepR fl targetZ (BlasterInertia.tiltZ b))
            (BlasterInertia.tiltZ b') /\
    (BlasterInertia.tiltY b <= targetY ->
     BlasterInertia.tiltY b <= BlasterInertia.tiltY b') /\
    (targetY <= BlasterInertia.tiltY b ->
     BlasterInertia.tiltY b' <= BlasterInertia.tiltY b) /\
    (BlasterInertia.tiltZ b <= targetZ ->
     BlasterInertia.tiltZ b <= BlasterInertia.tiltZ b') /\
    (targetZ <= BlasterInertia.tiltZ b ->
     BlasterInertia.tiltZ b' <= BlasterInertia.tiltZ b) /\
    (forall target tilt, fullStepR (fun x => x) target tilt == target) /\
    updateBlasterR (fun x => x) delta currentPos b =
      updateBlaster delta currentPos b /\
    (forall inp c st st',
       controllers_right inp = Some c ->
       onFrame delta inp st = Ok st' ->
       blasterInertia st' =
       updateBlaster delta (raySpace_worldPosition c)
         (blasterInertia (attachBlaster c st))).
Proof.
  intros fl delta currentPos b Hm H0 HY HZ Hd velocity targetY targetZ b'.
  destruct (blendR_between fl Hm H0 targetY (BlasterInertia.tiltY b) delta Hd HY)
    as (Y1 & Y2 & Y3).
  destruct (blendR_between fl Hm H0 targetZ (BlasterInertia.tiltZ b) delta Hd HZ)
    as (Z1 & Z2 & Z3).
  repeat split; try assumption.
  - apply Y1.
  - apply Y1.
  - apply Z1.
  - apply Z1.
  - intros target tilt. unfold fullStepR. ring.
  - intros inp c st st' Hc Hf.
    destruct (onFrame_inv _ _ _ _ Hf) as (st2 & Hb & ->).
    destruct (stepBullets_outside delta st2) as (_ & EB & _).
    rewrite EB. exact (beforeBullets_blaster _ _ _ _ _ Hc Hb).
Qed.

Lemma lowpass_tilt_between_previous_and_full_step_witness :
  between (BlasterInertia.tiltY blasterNudged)
    (fullStepR roundDouble sweptTargetTiltY (BlasterInertia.tiltY blasterNudged))
    (BlasterInertia.tiltY blasterSwept).
Proof.
  refine (proj1 (lowpass_tilt_between_previous_and_full_step roundDouble
    (1 # 8) (mkVector3 (-31 # 32) 0 0) blasterNudged
    roundDouble_monotone roundDouble_zero _ _ _)).
  - vm_compute. reflexivity.
  - vm_compute. reflexivity.
  - vm_compute. discriminate.
Defined.

(** C5 does not hold in doubles.  The blaster is attached at the origin; the
    controller moves 1/32 to the right in a frame of 1/64 s, which leaves
    [tiltY] at -0.015; it then moves one metre to the left in a frame of
    1/8 s.  The target of that frame is 0.12 (the double nearest to it), the
    factor is 1, and the new [tiltY] is that double plus 2^-56: past the
    target, and above [maxTilt]. *)
Lemma lowpass_tilt_passes_target_in_doubles :
  0 <= 1 # 8 /\
  BlasterInertia.tiltY blasterNudged == roundDouble (-15 # 1000) /\
  sweptTargetTiltY == roundDouble (12 # 100) /\
  BlasterInertia.tiltY blasterSwept == roundDouble (12 # 100) + pow2 (-56) /\
  sweptTargetTiltY < BlasterInertia.tiltY blasterSwept /\
  maxTiltR roundDouble < BlasterInertia.tiltY blasterSwept /\
  ~ between (BlasterInertia.tiltY blasterNudged) sweptTargetTiltY
      (BlasterInertia.tiltY blasterSwept).
Proof.
  split; [vm_compute; discriminate|].
  split; [vm_compute; reflexivity|].
  split; [vm_compute; reflexivity|].
  split; [vm_compute; reflexivity|].
  split; [vm_compute; reflexivity|].
  split; [vm_compute; reflexivity|].
  unfold between. intros [_ H].
  assert (E : Math_max (BlasterInertia.tiltY blasterNudged) sweptTargetTiltY
              = sweptTargetTiltY) by (vm_compute; reflexivity).
  rewrite E in H. vm_compute in H. apply H. reflexivity.
Qed.
(** ** One collision per projectile *)






(** C2, as the code has it.  What the code clamps to [[-maxTilt, maxTilt]]
    is the target tilts, in every frame and for any positions sampled: the
    three targets of the spring (liquid) filter and the two of the low-pass
    (blaster) filter.  No tilt is clamped after its update.  Each tilt of the
    liquid moves by its new velocity times [delta], the velocity being
    driven by a clamped target; each tilt of the blaster is the blend of the
    tilt it had with a clamped target.  The target tilts stay within the
    bounds whatever the rounding of the operations. *)
Theorem tilt_targets_are_clamped_tilts_are_not :
  forall delta inp st st',
    onFrame delta inp st = Ok st' ->
    let l := liquidSphereInertia st in
    let l' := liquidSphereInertia st' in
    let s := LiquidSphereInertia.spring * delta in
    let d := LiquidSphereInertia.damping * delta in
    (exists targetX targetY targetZ,
       withinTilt LiquidSphereInertia.maxTilt targetX /\
       withinTilt LiquidSphereInertia.maxTilt targetY /\
       withinTilt LiquidSphereInertia.maxTilt targetZ /\
       LiquidSphereInertia.velX l' =
         springVel targetX (LiquidSphereInertia.tiltX l) (LiquidSphereInertia.velX l) s d /\
       LiquidSphereInertia.velY l' =
         springVel targetY (LiquidSphereInertia.tiltY l) (LiquidSphereInertia.velY l) s d /\
       LiquidSphereInertia.velZ l' =
         springVel targetZ (LiquidSphereInertia.tiltZ l) (LiquidSphereInertia.velZ l) s d /\
       LiquidSphereInertia.tiltX l' =
         LiquidSphereInertia.tiltX l + LiquidSphereInertia.velX l' * delta /\
       LiquidSphereInertia.tiltY l' =
         LiquidSphereInertia.tiltY l + LiquidSphereInertia.velY l' * delta /\
       LiquidSphereInertia.tiltZ l' =
         LiquidSphereInertia.tiltZ l + LiquidSphereInertia.velZ l' * delta) /\
    match controllers_right inp with
    | Some c =>
        exists targetTiltY targetTiltZ,
          withinTilt BlasterInertia.maxTilt targetTiltY /\
          withinTilt BlasterInertia.maxTilt targetTiltZ /\
          BlasterInertia.tiltY (blasterInertia st') =
            blend targetTiltY (BlasterInertia.tiltY (blasterInertia st)) delta /\
          BlasterInertia.tiltZ (blasterInertia st') =
            blend targetTiltZ (BlasterInertia.tiltZ (blasterInertia st)) delta
    | None => blasterInertia st' = blasterInertia st
    end /\
    (forall (fl : Q -> Q) velocity,
       0 <= maxTiltR fl ->
       withinTilt (maxTiltR fl) (blasterTargetTiltYR fl velocity) /\
       withinTilt (maxTiltR fl) (blasterTargetTiltZR fl velocity)).
Proof.
  intros delta inp st st' Hf l l' s d.
  destruct (onFrame_filters delta inp st st' Hf) as (EL & EB).
  split; [|split].
  - set (v := estimateVelocity delta (referencePosition inp)
                (LiquidSphereInertia.prevPos l)).
    exists (liquidTargetX v), (liquidTargetY v), (liquidTargetZ v).
    destruct (liquidTargets_within v) as (WX & WY & WZ).
    unfold l'. rewrite EL. repeat split; try apply WX; try apply WY;
      try apply WZ.
  - destruct (controllers_right inp) as [c|]; [|exact EB].
    set (v := estimateVelocity delta (raySpace_worldPosition c)
                (BlasterInertia.prevPos (blasterInertia (attachBlaster c st)))).
    exists (blasterTargetTiltY v), (blasterTargetTiltZ v).
    destruct (blasterTargets_within v) as (WY & WZ).
    destruct (attachBlaster_tilts c st) as [EY EZ].
    rewrite EB. unfold updateBlaster. cbn [BlasterInertia.tiltY BlasterInertia.tiltZ].
    fold v. rewrite EY, EZ. repeat split; try apply WY; try apply WZ.
  - intros fl velocity Hm. unfold blasterTargetTiltYR, blasterTargetTiltZR.
    split; now apply clamp_within.
Qed.

Lemma tilt_targets_are_clamped_tilts_are_not_witness :
  exists targetTiltY targetTiltZ,
    withinTilt BlasterInertia.maxTilt targetTiltY /\
    withinTilt BlasterInertia.maxTilt targetTiltZ /\
    BlasterInertia.tiltY (blasterInertia (afterFrame (1 # 60) sweepLeft attachedState)) =
      blend targetTiltY (BlasterInertia.tiltY (blasterInertia attachedState)) (1 # 60) /\
    BlasterInertia.tiltZ (blasterInertia (afterFrame (1 # 60) sweepLeft attachedState)) =
      blend targetTiltZ (BlasterInertia.tiltZ (blasterInertia attachedState)) (1 # 60).
Proof.
  exact (proj1 (proj2 (tilt_targets_are_clamped_tilts_are_not (1 # 60)
                         sweepLeft attachedState _ eq_refl))).
Defined.
